(** * s3c4: a c4 Store backed by an S3-compatible object store

    Shallow embedding of the Go package [s3c4] (the [Store] with its
    [Create], [Open], [Remove] and [Close] methods, and the write handle
    [s3WriteCloser]) together with the few pieces of the Go runtime the
    package leans on: [path.Join], [io.Pipe], goroutines, channels of
    [struct{}], [time.After] and [sync.WaitGroup]. *)

From Stdlib Require Import ZArith String Ascii List Lia DecimalString Eqdep_dec.
From stdpp Require Import base option list strings gmap.

Set Default Proof Using "Type".

(** ** Go values *)

(** [[]byte] *)
Abbreviation bytes := (list Byte.byte).

(** [time.Duration]: an [int64] count of nanoseconds. *)
Definition Duration := Z.

Definition Millisecond : Duration := 1000000%Z.
Definition Second : Duration := (1000 * Millisecond)%Z.

(** ** Package [path] *)

Module path.

Definition is_slash (c : ascii) : bool := Ascii.eqb c "/".
Definition is_dot (c : ascii) : bool := Ascii.eqb c ".".

(** [r+1 == n || path[r+1] == '/'], on the input that follows [r]. *)
Definition ends_element (rest : list ascii) : bool :=
  match rest with
  | [] => true
  | c :: _ => is_slash c
  end.

(** The inner loop of the [..] case:
    [for out.w > dotdot && out.index(out.w) != '/' { out.w-- }]. *)
Fixpoint backtrack (out : list ascii) (dotdot w : nat) : nat :=
  match w with
  | 0 => 0
  | S w' =>
      if (dotdot <? w) && negb (is_slash (nth w out "/"%char))
      then backtrack out dotdot w'
      else w
  end.

(** [for ; r < n && path[r] != '/'; r++ { out.append(path[r]) }] *)
Fixpoint copy_element (path out : list ascii) : list ascii * list ascii :=
  match path with
  | [] => ([], out)
  | c :: rest =>
      if is_slash c then (path, out) else copy_element rest (out ++ [c])
  end.

(** The main loop of [Clean].  [path] is the input from index [r] on,
    [out] the bytes written so far (so [out.w = length out]); every
    iteration consumes at least one byte, hence [fuel = n] suffices. *)
Fixpoint Clean_loop (fuel : nat) (rooted : bool)
    (path out : list ascii) (dotdot : nat) : list ascii :=
  match fuel with
  | 0 => out
  | S fuel =>
      match path with
      | [] => out
      | c :: rest =>
          if is_slash c then
            (* empty path element *)
            Clean_loop fuel rooted rest out dotdot
          else if is_dot c && ends_element rest then
            (* . element *)
            Clean_loop fuel rooted rest out dotdot
          else if is_dot c && match rest with
                              | d :: rest2 => is_dot d && ends_element rest2
                              | [] => false
                              end then
            (* .. element: remove to last / *)
            let rest2 := tl rest in
            if dotdot <? length out then
              let w := backtrack out dotdot (length out - 1) in
              Clean_loop fuel rooted rest2 (take w out) dotdot
            else if negb rooted then
              let out1 := if 0 <? length out then out ++ ["/"%char] else out in
              let out2 := out1 ++ ["."%char; "."%char] in
              Clean_loop fuel rooted rest2 out2 (length out2)
            else Clean_loop fuel rooted rest2 out dotdot
          else
            (* real path element: add slash if needed, copy element *)
            let out1 :=
              if (rooted && negb (length out =? 1))
                 || (negb rooted && negb (length out =? 0))
              then out ++ ["/"%char] else out in
            let '(rest', out2) := copy_element path out1 in
            Clean_loop fuel rooted rest' out2 dotdot
      end
  end.

(** [path.Clean].  The lazily allocated buffer of the library is an
    allocation optimisation; [out] is its logical content. *)
Definition Clean (path : string) : string :=
  match list_ascii_of_string path with
  | [] => "."
  | c :: rest =>
      let rooted := is_slash c in
      let out :=
        if rooted then Clean_loop (length rest) true rest ["/"%char] 1
        else Clean_loop (S (length rest)) false (c :: rest) [] 0 in
      match out with
      | [] => "."
      | _ => string_of_list_ascii out
      end
  end.

(** [path.Join(elem...)]: empty elements are ignored, the rest are
    joined by a slash and the result is cleaned; all empty gives [""]. *)
Definition Join (elem : list string) : string :=
  let size := foldr (fun e n => String.length e + n) 0 elem in
  if size =? 0 then EmptyString
  else
    let buf :=
      fold_left
        (fun buf e =>
           if (0 <? String.length buf) || negb (String.eqb e EmptyString)
           then (if 0 <? String.length buf then buf +:+ "/" else buf) +:+ e
           else buf)
        elem EmptyString in
    Clean buf.

End path.

(** ** Content identifiers (package [c4]) *)

Module c4.

(** The base-58 alphabet of c4 identifiers. *)
Definition charset : string :=
  "123456789ABCDEFGHJKLMNPQRSTUVWXYZabcdefghijkmnopqrstuvwxyz".

Definition in_charset (c : ascii) : bool :=
  existsb (Ascii.eqb c) (list_ascii_of_string charset).

(** The canonical form of an identifier: ["c4"] followed by 88 base-58
    digits, 90 characters in all. *)
Definition canonical (s : string) : bool :=
  (String.length s =? 90)
  && String.prefix "c4" s
  && forallb in_charset (list_ascii_of_string s).

(** Modelled from the spec: the content identifier [c4.ID], whose
    package is not part of this repository.  The store only ever asks
    an identifier for its canonical string, so an identifier is
    represented by that string together with the evidence that it has
    the canonical form. *)
Record ID : Type := mkID {
  String : string;
  String_canonical : canonical String = true;
}.

End c4.

(** ** Errors *)

(** Values of Go's [error] interface that the package builds or passes
    on; [nil] is [None] in [option error]. *)
Inductive error : Type :=
| io_EOF                                    (* io.EOF *)
| io_ErrClosedPipe                          (* io.ErrClosedPipe *)
| os_ErrExist                               (* os.ErrExist *)
| errorString (s : string)                  (* fmt.Errorf / errors.New *)
| PathError (Op Path : string) (Err : error)  (* *os.PathError *)
| ErrConfirmationTimeout (Id : c4.ID) (ConfirmationTimeout : Duration)
| awserr (code message : string).           (* an error of the backend *)

(** [%d] applied to an [int64]. *)
Definition itoa (n : Z) : string := NilZero.string_of_int (Z.to_int n).

(** ** Package [io]: the synchronous in-memory pipe *)

Module io.

(** The shared state of the two ends of an [io.Pipe]: the slice that a
    parked [Write] still has to hand over on [wrCh] (if a [Write] is
    parked), whether [done] is closed, and the two once-set errors. *)
Record pipe : Type := mkpipe {
  wr : option bytes;
  done : bool;
  rerr : option error;
  werr : option error;
}.

Definition Pipe : pipe := mkpipe None false None None.

(** [onceError.Store]: only the first error is kept. *)
Definition Store (old : option error) (err : error) : option error :=
  match old with
  | Some _ => old
  | None => Some err
  end.

Definition readCloseError (p : pipe) : error :=
  match rerr p, werr p with
  | None, Some e => e
  | _, _ => io_ErrClosedPipe
  end.

Definition writeCloseError (p : pipe) : error :=
  match werr p, rerr p with
  | None, Some e => e
  | _, _ => io_ErrClosedPipe
  end.

(** [PipeReader.CloseWithError(err)]; it always returns [nil]. *)
Definition closeRead (err : option error) (p : pipe) : pipe :=
  mkpipe (wr p) true (Store (rerr p) (default io_ErrClosedPipe err)) (werr p).

(** [PipeWriter.CloseWithError(err)]; it always returns [nil]. *)
Definition closeWrite (err : option error) (p : pipe) : pipe :=
  mkpipe (wr p) true (rerr p) (Store (werr p) (default io_EOF err)).

(** One [read] into a buffer of [n] bytes, when it need not park:
    a closed pipe answers with the close error, a parked [Write] hands
    over [copy(b, bw)] bytes and is released once nothing is left of
    its slice.  [None]: the reader parks. *)
Definition read (n : nat) (p : pipe) : option (bytes * option error * pipe) :=
  if done p then Some ([], Some (readCloseError p), p)
  else
    match wr p with
    | Some bw =>
        let rest := drop n bw in
        Some (take n bw, None,
              mkpipe (match rest with [] => None | _ => Some rest end)
                     (done p) (rerr p) (werr p))
    | None => None
    end.

(** A [Write] of [b] parks on [wrCh]. *)
Definition offer (b : bytes) (p : pipe) : pipe :=
  mkpipe (Some b) (done p) (rerr p) (werr p).

(** The parked [Write] leaves (its slice was taken, or [done] closed). *)
Definition retract (p : pipe) : pipe :=
  mkpipe None (done p) (rerr p) (werr p).

(** What a [Write] of [b] that is parked returns, once it can:
    everything was taken, or [done] was closed under it. *)
Definition written (b : bytes) (p : pipe) : option (Z * option error) :=
  match wr p with
  | None => Some (Z.of_nat (length b), None)
  | Some rest =>
      if done p
      then Some (Z.of_nat (length b - length rest), Some (writeCloseError p))
      else None
  end.

End io.

(** ** The backend: [s3iface.S3API] with the [s3manager] transfer helpers *)

Record HeadObjectInput : Type := { HeadObjectInput_Bucket : string; HeadObjectInput_Key : string }.
Record GetObjectInput : Type := { GetObjectInput_Bucket : string; GetObjectInput_Key : string }.
Record DeleteObjectInput : Type := { DeleteObjectInput_Bucket : string; DeleteObjectInput_Key : string }.
(** [s3manager.UploadInput] without its [Body], which is a pipe here. *)
Record UploadInput : Type := { UploadInput_Bucket : string; UploadInput_Key : string }.

(** The client the store is built on is an interface; [B] is the state
    of whatever implements it.  [Download] is
    [s3manager.Downloader.Download] (the bytes left in the buffer, [n]
    and the error); [Upload] is [s3manager.Uploader.Upload] applied to
    the bytes its [Body] yielded up to end-of-data. *)
Class S3API (B : Type) : Type := {
  HeadObject : HeadObjectInput -> B -> option error * B;
  DeleteObject : DeleteObjectInput -> B -> option error * B;
  Download : GetObjectInput -> B -> (bytes * Z * option error) * B;
  Upload : UploadInput -> bytes -> B -> option error * B;
}.

(** ** Goroutines, channels, timers and the wait group *)

(** Who issued a backend call: the goroutine of the caller of the
    package, or one of the goroutines the package started. *)
Inductive issuer : Type :=
| caller
| goroutine_id (g : nat).

(** The backend calls, in the order they were issued. *)
Inductive event : Type :=
| HeadObject_call (who : issuer) (input : HeadObjectInput) (err : option error)
| Download_call (who : issuer) (input : GetObjectInput) (n : Z) (err : option error)
| Upload_call (who : issuer) (input : UploadInput) (Body : nat)
| DeleteObject_call (who : issuer) (input : DeleteObjectInput) (err : option error).

(** Where the goroutine started by [Create] stands:
    [go func() { defer s.wg.Done(); _, err := s.uploader.Upload(..Body: r..);
                 if err != nil { r.CloseWithError(err) } }()]. *)
Inductive Create_pc : Type :=
| Upload_enter                        (* about to call Upload *)
| Upload_read (body : bytes)          (* inside Upload, reading Body *)
| Upload_return (err : option error)  (* Upload returned err *)
| Create_defer                        (* about to run the deferred wg.Done *)
| Create_exit.                        (* the goroutine has returned *)

(** Where the goroutine started by [Open] stands:
    [go func() { defer func() { err := w.Close(); if err != nil {
                   r.CloseWithError(err) }; s.wg.Done() }()
                 _, err = io.Copy(w, bytes.NewReader(buff.Bytes()))
                 if err != nil { r.CloseWithError(err); return } }()]. *)
Inductive Open_pc : Type :=
| Copy_enter                          (* about to call io.Copy *)
| Copy_write                          (* inside io.Copy, parked in w.Write *)
| Copy_return (err : option error)    (* io.Copy returned err *)
| Open_defer_Close                    (* deferred: about to call w.Close *)
| Open_defer_Done                     (* deferred: about to call wg.Done *)
| Open_exit.                          (* the goroutine has returned *)

(** Where the polling goroutine started by [s3WriteCloser.Close] stands:
    [go func() { defer close(headok)
                 for { _, err := w.s3.HeadObject(w.headInput)
                       if err == nil { return }
                       select { case <-done: return
                                case <-time.After(w.confirmationRequestRate): } } }()]. *)
Inductive Close_pc : Type :=
| Poll_head                           (* about to call HeadObject *)
| Poll_select (t : nat)               (* in the select, on done and timer t *)
| Close_defer                         (* about to run the deferred close(headok) *)
| Close_exit.                         (* the goroutine has returned *)

Inductive goroutine : Type :=
| Create_go (pc : Create_pc) (input : UploadInput) (r : nat)
| Open_go (pc : Open_pc) (w : nat) (buff : bytes)
| Close_go (pc : Close_pc) (headInput : HeadObjectInput)
    (confirmationRequestRate : Duration) (headok done : nat).

(** What the rest of the system may do while the caller is parked:
    a goroutine takes its next step ([n] is the size of the buffer it
    reads into, when the step is a read), a timer expires, or the upload
    a goroutine is performing is failed by the backend. *)
Inductive label : Type :=
| Run (g : nat) (n : nat)
| Fire (t : nat)
| Fail (g : nat) (e : error).

Section World.

Context {B : Type}.

(** The state the methods of the package act on.  There is one
    [Store]; [s3] is the state behind its client, [wg] the counter of
    its wait group.  [timers] holds, for each [time.After(d)] channel,
    [d] and whether the time has been delivered; [chans] holds, for
    each [chan struct{}], whether it is closed.  [sched] is what the
    rest of the system will do, in order, whenever the caller is
    parked, and [fastrand] the coin [select] flips when several cases
    are ready. *)
Record World : Type := mkWorld {
  s3 : B;
  pipes : list io.pipe;
  chans : list bool;
  timers : list (Duration * bool);
  wg : Z;
  gos : list goroutine;
  log : list event;
  sched : list label;
  fastrand : nat -> bool;
}.

Definition set_s3 (x : B) (σ : World) : World :=
  mkWorld x (pipes σ) (chans σ) (timers σ) (wg σ) (gos σ) (log σ) (sched σ) (fastrand σ).
Definition set_pipes (x : list io.pipe) (σ : World) : World :=
  mkWorld (s3 σ) x (chans σ) (timers σ) (wg σ) (gos σ) (log σ) (sched σ) (fastrand σ).
Definition set_chans (x : list bool) (σ : World) : World :=
  mkWorld (s3 σ) (pipes σ) x (timers σ) (wg σ) (gos σ) (log σ) (sched σ) (fastrand σ).
Definition set_timers (x : list (Duration * bool)) (σ : World) : World :=
  mkWorld (s3 σ) (pipes σ) (chans σ) x (wg σ) (gos σ) (log σ) (sched σ) (fastrand σ).
Definition set_wg (x : Z) (σ : World) : World :=
  mkWorld (s3 σ) (pipes σ) (chans σ) (timers σ) x (gos σ) (log σ) (sched σ) (fastrand σ).
Definition set_gos (x : list goroutine) (σ : World) : World :=
  mkWorld (s3 σ) (pipes σ) (chans σ) (timers σ) (wg σ) x (log σ) (sched σ) (fastrand σ).
Definition set_log (x : list event) (σ : World) : World :=
  mkWorld (s3 σ) (pipes σ) (chans σ) (timers σ) (wg σ) (gos σ) x (sched σ) (fastrand σ).
Definition set_sched (x : list label) (σ : World) : World :=
  mkWorld (s3 σ) (pipes σ) (chans σ) (timers σ) (wg σ) (gos σ) (log σ) x (fastrand σ).
Definition set_fastrand (x : nat -> bool) (σ : World) : World :=
  mkWorld (s3 σ) (pipes σ) (chans σ) (timers σ) (wg σ) (gos σ) (log σ) (sched σ) x.

(** A computation of the package: it returns with a value and a new
    state, or never returns ([None]): the caller, or the goroutine,
    stays parked. *)
Definition M (A : Type) : Type := World -> option (A * World).

Definition ret {A} (a : A) : M A := fun σ => Some (a, σ).

Definition bind {A C} (m : M A) (k : A -> M C) : M C :=
  fun σ => match m σ with
           | Some (a, σ') => k a σ'
           | None => None
           end.

Definition act (f : World -> World) : M unit := fun σ => Some (tt, f σ).

End World.

Arguments World B : clear implicits.
Arguments M B A : clear implicits.

Notation "x <- m ;; k" := (bind m (fun x => k))
  (at level 100, m at next level, right associativity).
Notation "m ;; k" := (bind m (fun _ => k))
  (at level 100, right associativity).

Section Runtime.

Context {B : Type} {api : S3API B}.

Implicit Types (σ : World B) (p c t g n : nat).

(** *** Pipes *)

Definition pipe_at σ p : io.pipe := default io.Pipe (pipes σ !! p).

Definition upd_pipe p (f : io.pipe -> io.pipe) : M B unit :=
  act (fun σ => set_pipes (alter f p (pipes σ)) σ).

(** [io.Pipe()]: both ends are named by the index of the new pipe. *)
Definition io_Pipe : M B nat :=
  fun σ => Some (length (pipes σ), set_pipes (pipes σ ++ [io.Pipe]) σ).

(** *** Parking *)

(** A goroutine of the package that cannot go on does not step. *)
Definition try {A} (ready : World B -> option A) : M B A :=
  fun σ => match ready σ with
           | Some a => Some (a, σ)
           | None => None
           end.

(** *** Channels of [struct{}], timers, the wait group, [select] *)

Definition make_chan : M B nat :=
  fun σ => Some (length (chans σ), set_chans (chans σ ++ [false]) σ).

Definition close c : M B unit :=
  act (fun σ => set_chans (<[c:=true]> (chans σ)) σ).

Definition is_closed c σ : bool := default false (chans σ !! c).

(** [time.After(d)] *)
Definition time_After (d : Duration) : M B nat :=
  fun σ => Some (length (timers σ), set_timers (timers σ ++ [(d, false)]) σ).

Definition fired t σ : bool := default false (snd <$> timers σ !! t).

Definition wg_Add (delta : Z) : M B unit :=
  act (fun σ => set_wg (wg σ + delta)%Z σ).

Definition wg_Done : M B unit := wg_Add (-1).

(** The coin of a [select] with several ready cases. *)
Definition flip : M B bool :=
  fun σ => Some (fastrand σ 0, set_fastrand (fun i => fastrand σ (S i)) σ).

(** Which of two receive cases is ready: [Some (Some true)] the
    first only, [Some (Some false)] the second only, [Some None]
    both, [None] neither. *)
Definition ready2 (c1 c2 : World B -> bool) σ : option (option bool) :=
  match c1 σ, c2 σ with
  | true, true => Some None
  | true, false => Some (Some true)
  | false, true => Some (Some false)
  | false, false => None
  end.

(** [select { case <-c1: ...; case <-c2: ... }], parking by [wait];
    [true] when the first case was taken. *)
Definition select2 (wait : (World B -> option (option bool)) -> M B (option bool))
    (c1 c2 : World B -> bool) : M B bool :=
  r <- wait (ready2 c1 c2) ;;
  match r with
  | Some first => ret first
  | None => flip
  end.

(** [go f]: the new goroutine is named by its index. *)
Definition go (f : goroutine) : M B unit :=
  act (fun σ => set_gos (gos σ ++ [f]) σ).

(** *** Backend calls, recorded in the log *)

Definition emit (e : event) : M B unit :=
  act (fun σ => set_log (log σ ++ [e]) σ).

Definition s3_HeadObject (who : issuer) (input : HeadObjectInput) : M B (option error) :=
  fun σ => let '(err, b) := HeadObject input (s3 σ) in
           Some (err, set_log (log σ ++ [HeadObject_call who input err]) (set_s3 b σ)).

Definition s3_DeleteObject (who : issuer) (input : DeleteObjectInput) : M B (option error) :=
  fun σ => let '(err, b) := DeleteObject input (s3 σ) in
           Some (err, set_log (log σ ++ [DeleteObject_call who input err]) (set_s3 b σ)).

Definition downloader_Download (who : issuer) (input : GetObjectInput)
  : M B (bytes * Z * option error) :=
  fun σ => let '(buff, n, err, b) := Download input (s3 σ) in
           Some ((buff, n, err),
                 set_log (log σ ++ [Download_call who input n err]) (set_s3 b σ)).

(** *** One step of a goroutine of the package *)

(** The goroutine of [Create]; [n] is the size of the buffer the
    uploader reads its [Body] into at this step. *)
Definition Create_go_step g n (pc : Create_pc) (input : UploadInput) (r : nat)
  : M B goroutine :=
  match pc with
  | Upload_enter =>
      emit (Upload_call (goroutine_id g) input r) ;;
      ret (Create_go (Upload_read []) input r)
  | Upload_read body =>
      x <- try (fun σ => io.read n (pipe_at σ r)) ;;
      let '(chunk, err, p') := x in
      upd_pipe r (fun _ => p') ;;
      match err with
      | None => ret (Create_go (Upload_read (body ++ chunk)) input r)
      | Some io_EOF =>
          fun σ => let '(err, b) := Upload input body (s3 σ) in
                   Some (Create_go (Upload_return err) input r, set_s3 b σ)
      | Some e => ret (Create_go (Upload_return (Some e)) input r)
      end
  | Upload_return err =>
      match err with
      | Some e => upd_pipe r (io.closeRead (Some e))
      | None => ret tt
      end ;;
      ret (Create_go Create_defer input r)
  | Create_defer =>
      wg_Done ;;
      ret (Create_go Create_exit input r)
  | Create_exit => fun _ => None
  end.

(** The goroutine of [Open].  [io.Copy] from a [bytes.Reader] is one
    [w.Write] of everything that is left, and no [Write] at all when
    nothing is. *)
Definition Open_go_step (pc : Open_pc) (w : nat) (buff : bytes) : M B goroutine :=
  match pc with
  | Copy_enter =>
      match buff with
      | [] => ret (Open_go (Copy_return None) w buff)
      | _ =>
          fun σ =>
            if io.done (pipe_at σ w)
            then Some (Open_go (Copy_return (Some (io.writeCloseError (pipe_at σ w)))) w buff, σ)
            else (upd_pipe w (io.offer buff) ;; ret (Open_go Copy_write w buff)) σ
      end
  | Copy_write =>
      x <- try (fun σ => io.written buff (pipe_at σ w)) ;;
      upd_pipe w io.retract ;;
      ret (Open_go (Copy_return (snd x)) w buff)
  | Copy_return err =>
      match err with
      | Some e => upd_pipe w (io.closeRead (Some e))
      | None => ret tt
      end ;;
      ret (Open_go Open_defer_Close w buff)
  | Open_defer_Close =>
      (* err := w.Close() is nil: PipeWriter.Close never fails *)
      upd_pipe w (io.closeWrite None) ;;
      ret (Open_go Open_defer_Done w buff)
  | Open_defer_Done =>
      wg_Done ;;
      ret (Open_go Open_exit w buff)
  | Open_exit => fun _ => None
  end.

(** The polling goroutine of [s3WriteCloser.Close]. *)
Definition Close_go_step g (pc : Close_pc) (headInput : HeadObjectInput)
    (confirmationRequestRate : Duration) (headok done : nat) : M B goroutine :=
  match pc with
  | Poll_head =>
      err <- s3_HeadObject (goroutine_id g) headInput ;;
      match err with
      | None => ret (Close_go Close_defer headInput confirmationRequestRate headok done)
      | Some _ =>
          t <- time_After confirmationRequestRate ;;
          ret (Close_go (Poll_select t) headInput confirmationRequestRate headok done)
      end
  | Poll_select t =>
      isdone <- select2 try (is_closed done) (fired t) ;;
      if isdone
      then ret (Close_go Close_defer headInput confirmationRequestRate headok done)
      else ret (Close_go Poll_head headInput confirmationRequestRate headok done)
  | Close_defer =>
      close headok ;;
      ret (Close_go Close_exit headInput confirmationRequestRate headok done)
  | Close_exit => fun _ => None
  end.

Definition step g n (f : goroutine) : M B goroutine :=
  match f with
  | Create_go pc input r => Create_go_step g n pc input r
  | Open_go pc w buff => Open_go_step pc w buff
  | Close_go pc headInput rate headok done => Close_go_step g pc headInput rate headok done
  end.

(** One move of the rest of the system.  A goroutine that is parked,
    or has returned, stays where it is. *)
Definition bg (x : label) σ : World B :=
  match x with
  | Run g n =>
      match gos σ !! g with
      | Some f =>
          match step g n f σ with
          | Some (f', σ') => set_gos (<[g:=f']> (gos σ')) σ'
          | None => σ
          end
      | None => σ
      end
  | Fire t =>
      set_timers (alter (fun x => (fst x, true)) t (timers σ)) σ
  | Fail g e =>
      match gos σ !! g with
      | Some (Create_go (Upload_read _) input r) =>
          set_gos (<[g:=Create_go (Upload_return (Some e)) input r]> (gos σ)) σ
      | _ => σ
      end
  end.

(** The caller is parked until [ready]: the rest of the system moves,
    as [sched] says, until it is; when [sched] runs out first, the
    caller stays parked for good. *)
Fixpoint await {A} (ready : World B -> option A) (l : list label) σ
  : option (A * World B) :=
  match ready σ with
  | Some a => Some (a, set_sched l σ)
  | None =>
      match l with
      | [] => None
      | x :: l => await ready l (bg x σ)
      end
  end.

Definition park {A} (ready : World B -> option A) : M B A :=
  fun σ => await ready (sched σ) σ.

(** The caller does something else for a while: the next [k] moves of
    the rest of the system happen. *)
Fixpoint idle (k : nat) (l : list label) σ : World B :=
  match k, l with
  | S k, x :: l => idle k l (bg x σ)
  | _, _ => set_sched l σ
  end.

Definition Gosched (k : nat) : M B unit :=
  act (fun σ => idle k (sched σ) σ).

(** The world in which the program starts: nothing allocated, no
    goroutine started, [gos] listing from then on every goroutine the
    package starts, with the place it has reached. *)
Definition boot (b : B) (sched : list label) (fastrand : nat -> bool) : World B :=
  mkWorld b [] [] [] 0%Z [] [] sched fastrand.

Definition wg_Wait : M B unit :=
  park (fun σ => if (wg σ =? 0)%Z then Some tt else None).

(** *** The two ends of a pipe, as the caller uses them *)

Definition PipeWriter_Write p (b : bytes) : M B (Z * option error) :=
  fun σ =>
    if io.done (pipe_at σ p)
    then Some ((0%Z, Some (io.writeCloseError (pipe_at σ p))), σ)
    else (upd_pipe p (io.offer b) ;;
          res <- park (fun σ => io.written b (pipe_at σ p)) ;;
          upd_pipe p io.retract ;;
          ret res) σ.

Definition PipeWriter_Close p : M B (option error) :=
  upd_pipe p (io.closeWrite None) ;;
  ret None.

Definition PipeReader_Read p n : M B (bytes * option error) :=
  x <- park (fun σ => io.read n (pipe_at σ p)) ;;
  let '(chunk, err, p') := x in
  upd_pipe p (fun _ => p') ;;
  ret (chunk, err).

End Runtime.

(** ** The package *)

(** What an [io.WriteCloser] can be: the write end of a pipe, which is
    what [Create] puts in a write handle, or any other implementation,
    given by what its [Write] and its [Close] return. *)
Inductive io_WriteCloser : Type :=
| PipeWriter (p : nat)
| otherWriter (n : Z) (werr cerr : option error).

(** [ioutil.NopCloser(r)] around the read end of a pipe. *)
Inductive io_ReadCloser : Type :=
| NopCloser (r : nat).

(** [type Store struct]; its client, uploader and downloader are the
    backend of the world, its wait group the world's [wg]. *)
Record Store : Type := mkStore {
  ConfirmCreate : bool;
  ConfirmationTimeout : Duration;
  ConfirmationRequestRate : Duration;
  bucket : string;
  prefix : string;
}.

(** [type s3WriteCloser struct]; its client is the backend of the world. *)
Record s3WriteCloser : Type := mks3WriteCloser {
  confirmCreate : bool;
  confirmationTimeout : Duration;
  confirmationRequestRate : Duration;
  wc_id : c4.ID;
  wc_w : io_WriteCloser;
  closed : bool;
  headInput : HeadObjectInput;
}.

Definition set_closed (x : bool) (w : s3WriteCloser) : s3WriteCloser :=
  mks3WriteCloser (confirmCreate w) (confirmationTimeout w) (confirmationRequestRate w)
    (wc_id w) (wc_w w) x (headInput w).

Section Package.

Context {B : Type} {api : S3API B}.

(** [time.Duration.String], which the package only uses to format
    error messages. *)
Variable Duration_String : Duration -> string.

(** The [Error] method of the errors above. *)
Fixpoint Error (e : error) : string :=
  match e with
  | io_EOF => "EOF"
  | io_ErrClosedPipe => "io: read/write on closed pipe"
  | os_ErrExist => "file already exists"
  | errorString s => s
  | PathError Op Path Err => Op +:+ " " +:+ Path +:+ ": " +:+ Error Err
  | ErrConfirmationTimeout Id ConfirmationTimeout =>
      "confirmation timed out after " +:+ Duration_String ConfirmationTimeout
      +:+ " writting " +:+ c4.String Id
  | awserr code message => code +:+ ": " +:+ message
  end.

(** [New(s3api, bucket, keyprefix)]; [s3api] is the backend of the world. *)
Definition New (bucket keyprefix : string) : Store * option error :=
  (mkStore true (Second * 5)%Z (Millisecond * 500)%Z bucket keyprefix, None).

(** The key [Open] and [Create] compute. *)
Definition Open_key (s : Store) (id : c4.ID) : string :=
  let key := c4.String id in
  if 0 <? String.length (prefix s) then path.Join [prefix s; key] else key.

Definition Create_key (s : Store) (id : c4.ID) : string :=
  let key := c4.String id in
  if 0 <? String.length (prefix s) then path.Join [prefix s; key] else key.

(** The key [Remove] computes. *)
Definition Remove_path (s : Store) (id : c4.ID) : string :=
  path.Join [prefix s; c4.String id].

Definition Open (s : Store) (id : c4.ID) : M B (option io_ReadCloser * option error) :=
  let key := Open_key s id in
  x <- downloader_Download caller
         {| GetObjectInput_Bucket := bucket s; GetObjectInput_Key := key |} ;;
  let '(buff, n, err) := x in
  match err with
  | Some err =>
      ret (None, Some (errorString
             (key +:+ " " +:+ Error err +:+ " (n == " +:+ itoa n +:+ ")")))
  | None =>
      p <- io_Pipe ;;
      wg_Add 1 ;;
      go (Open_go Copy_enter p buff) ;;
      ret (Some (NopCloser p), None)
  end.

(** The read handle. *)
Definition ReadCloser_Read (r : io_ReadCloser) (n : nat) : M B (bytes * option error) :=
  match r with
  | NopCloser p => PipeReader_Read p n
  end.

Definition ReadCloser_Close (r : io_ReadCloser) : M B (option error) :=
  ret None.

Definition io_WriteCloser_Write (w : io_WriteCloser) (b : bytes) : M B (Z * option error) :=
  match w with
  | PipeWriter p => PipeWriter_Write p b
  | otherWriter n werr _ => ret (n, werr)
  end.

Definition io_WriteCloser_Close (w : io_WriteCloser) : M B (option error) :=
  match w with
  | PipeWriter p => PipeWriter_Close p
  | otherWriter _ _ cerr => ret cerr
  end.

Definition s3WriteCloser_Write (w : s3WriteCloser) (b : bytes) : M B (Z * option error) :=
  io_WriteCloser_Write (wc_w w) b.

(** [(w *s3WriteCloser) Close]; the handle it returns is [*w] as the
    call leaves it. *)
Definition s3WriteCloser_Close (w : s3WriteCloser) : M B (option error * s3WriteCloser) :=
  if closed w then ret (Some (errorString "already closed"), w)
  else
    let w := set_closed true w in
    err <- io_WriteCloser_Close (wc_w w) ;;
    match err with
    | Some err => ret (Some err, w)
    | None =>
        if negb (confirmCreate w) then ret (None, w)
        else
          headok <- make_chan ;;
          done <- make_chan ;;
          go (Close_go Poll_head (headInput w) (confirmationRequestRate w) headok done) ;;
          t <- time_After (confirmationTimeout w) ;;
          timeout <- select2 park (fired t) (is_closed headok) ;;
          (* deferred *)
          close done ;;
          if timeout
          then ret (Some (ErrConfirmationTimeout (wc_id w) (confirmationTimeout w)), w)
          else ret (None, w)
    end.

Definition Create (s : Store) (id : c4.ID) : M B (option s3WriteCloser * option error) :=
  let key := Create_key s id in
  let headInput := {| HeadObjectInput_Bucket := bucket s; HeadObjectInput_Key := key |} in
  (* Check if object exists *)
  err <- s3_HeadObject caller headInput ;;
  match err with
  | None => ret (None, Some (PathError "create" key os_ErrExist))
  | Some _ =>
      p <- io_Pipe ;;
      let out :=
        mks3WriteCloser (ConfirmCreate s) (ConfirmationTimeout s) (ConfirmationRequestRate s)
          id (PipeWriter p) false headInput in
      wg_Add 1 ;;
      go (Create_go Upload_enter
            {| UploadInput_Bucket := bucket s; UploadInput_Key := key |} p) ;;
      ret (Some out, None)
  end.

Definition Store_Close (s : Store) : M B (option error) :=
  wg_Wait ;;
  ret None.

Definition Remove (s : Store) (id : c4.ID) : M B (option error) :=
  let path := Remove_path s id in
  s3_DeleteObject caller
    {| DeleteObjectInput_Bucket := bucket s; DeleteObjectInput_Key := path |}.

End Package.

(** ** A reference backend: an in-memory, strongly consistent store *)

Module MemS3.

Abbreviation state := (gmap (string * string) bytes).

Definition NotFound : error := awserr "NotFound" "Not Found".
Definition NoSuchKey : error := awserr "NoSuchKey" "The specified key does not exist.".

Definition get (bucket key : string) (b : state) : option bytes := b !! (bucket, key).
Definition put (bucket key : string) (body : bytes) (b : state) : state :=
  <[(bucket, key) := body]> b.
Definition del (bucket key : string) (b : state) : state := delete (bucket, key) b.

#[global] Arguments get : simpl never.
#[global] Arguments put : simpl never.
#[global] Arguments del : simpl never.

#[global] Instance api : S3API state := {|
  HeadObject input b :=
    match get (HeadObjectInput_Bucket input) (HeadObjectInput_Key input) b with
    | Some _ => (None, b)
    | None => (Some NotFound, b)
    end;
  DeleteObject input b :=
    (None, del (DeleteObjectInput_Bucket input) (DeleteObjectInput_Key input) b);
  Download input b :=
    match get (GetObjectInput_Bucket input) (GetObjectInput_Key input) b with
    | Some data => (data, Z.of_nat (length data), None, b)
    | None => ([], 0%Z, Some NoSuchKey, b)
    end;
  Upload input body b :=
    (None, put (UploadInput_Bucket input) (UploadInput_Key input) body b);
|}.

End MemS3.

(** ** Vocabulary of the properties *)

(** [sub] occurs in [s]. *)
Definition includes (sub s : string) : Prop :=
  exists pre post : string, s = pre +:+ sub +:+ post.

(** How many elements of a list satisfy a test. *)
Definition count {A : Type} (P : A -> bool) (l : list A) : nat :=
  length (filter (fun x => P x = true) l).

(** A transfer goroutine (of [Create] or of [Open]) that has not returned. *)
Definition in_flight (f : goroutine) : bool :=
  match f with
  | Create_go Create_exit _ _ => false
  | Create_go _ _ _ => true
  | Open_go Open_exit _ _ => false
  | Open_go _ _ _ => true
  | Close_go _ _ _ _ _ => false
  end.

(** The number of transfer goroutines in flight. *)
Definition live (l : list goroutine) : nat := count in_flight l.

(** Two places in the code of one and the same goroutine. *)
Definition same_code (f f' : goroutine) : Prop :=
  match f, f' with
  | Create_go _ input r, Create_go _ input' r' => input = input' /\ r = r'
  | Open_go _ w buff, Open_go _ w' buff' => w = w' /\ buff = buff'
  | Close_go _ input rate headok done, Close_go _ input' rate' headok' done' =>
      input = input' /\ rate = rate' /\ headok = headok' /\ done = done'
  | _, _ => False
  end.

(** The goroutine of a [Create] has called [Upload]. *)
Definition uploading (f : option goroutine) : bool :=
  match f with
  | Some (Create_go Upload_enter _ _) => false
  | Some (Create_go _ _ _) => true
  | _ => false
  end.

Definition is_upload_by (g : nat) (e : event) : bool :=
  match e with
  | Upload_call (goroutine_id g') _ _ => g =? g'
  | _ => false
  end.

(** A call that moves an object: an upload or a download. *)
Definition is_transfer (e : event) : bool :=
  match e with
  | Upload_call _ _ _ | Download_call _ _ _ _ => true
  | _ => false
  end.

Definition by_caller (e : event) : bool :=
  match e with
  | HeadObject_call caller _ _ | Download_call caller _ _ _
  | Upload_call caller _ _ | DeleteObject_call caller _ _ => true
  | _ => false
  end.

Definition is_upload (e : event) : bool :=
  match e with
  | Upload_call _ _ _ => true
  | _ => false
  end.

Definition is_download (e : event) : bool :=
  match e with
  | Download_call _ _ _ _ => true
  | _ => false
  end.

(** How many uploads goroutine [g] has issued, and how many transfers
    the caller's goroutine has issued. *)
Definition uploads_by (g : nat) (l : list event) : nat := count (is_upload_by g) l.

Definition caller_transfers (l : list event) : nat :=
  count (fun e => is_transfer e && by_caller e) l.

Section Moves.

Context {B : Type} {api : S3API B}.

(** The steps of [step], one rule per place in the code of a
    goroutine: goroutine [g], standing at the first place in the first
    state, reading into [n] bytes if it reads, stands at the second
    place in the second state after the step. *)
Inductive moves (g n : nat) : goroutine -> World B -> goroutine -> World B -> Prop :=
| moves_Upload_enter input r σ :
    moves g n (Create_go Upload_enter input r) σ
      (Create_go (Upload_read []) input r)
      (set_log (log σ ++ [Upload_call (goroutine_id g) input r]) σ)
| moves_Upload_read body input r σ chunk p' :
    io.read n (pipe_at σ r) = Some (chunk, None, p') ->
    moves g n (Create_go (Upload_read body) input r) σ
      (Create_go (Upload_read (body ++ chunk)) input r)
      (set_pipes (alter (fun _ => p') r (pipes σ)) σ)
| moves_Upload_eof body input r σ chunk p' err b :
    io.read n (pipe_at σ r) = Some (chunk, Some io_EOF, p') ->
    Upload input body (s3 σ) = (err, b) ->
    moves g n (Create_go (Upload_read body) input r) σ
      (Create_go (Upload_return err) input r)
      (set_s3 b (set_pipes (alter (fun _ => p') r (pipes σ)) σ))
| moves_Upload_read_error body input r σ chunk p' e :
    io.read n (pipe_at σ r) = Some (chunk, Some e, p') ->
    e <> io_EOF ->
    moves g n (Create_go (Upload_read body) input r) σ
      (Create_go (Upload_return (Some e)) input r)
      (set_pipes (alter (fun _ => p') r (pipes σ)) σ)
| moves_Upload_return_err e input r σ :
    moves g n (Create_go (Upload_return (Some e)) input r) σ
      (Create_go Create_defer input r)
      (set_pipes (alter (io.closeRead (Some e)) r (pipes σ)) σ)
| moves_Upload_return_nil input r σ :
    moves g n (Create_go (Upload_return None) input r) σ
      (Create_go Create_defer input r) σ
| moves_Create_defer input r σ :
    moves g n (Create_go Create_defer input r) σ
      (Create_go Create_exit input r) (set_wg (wg σ + -1)%Z σ)
| moves_Copy_enter_empty w σ :
    moves g n (Open_go Copy_enter w []) σ (Open_go (Copy_return None) w []) σ
| moves_Copy_enter_closed w buff σ :
    buff <> [] ->
    io.done (pipe_at σ w) = true ->
    moves g n (Open_go Copy_enter w buff) σ
      (Open_go (Copy_return (Some (io.writeCloseError (pipe_at σ w)))) w buff) σ
| moves_Copy_enter_offer w buff σ :
    buff <> [] ->
    io.done (pipe_at σ w) = false ->
    moves g n (Open_go Copy_enter w buff) σ
      (Open_go Copy_write w buff)
      (set_pipes (alter (io.offer buff) w (pipes σ)) σ)
| moves_Copy_write w buff σ res :
    io.written buff (pipe_at σ w) = Some res ->
    moves g n (Open_go Copy_write w buff) σ
      (Open_go (Copy_return (snd res)) w buff)
      (set_pipes (alter io.retract w (pipes σ)) σ)
| moves_Copy_return_err e w buff σ :
    moves g n (Open_go (Copy_return (Some e)) w buff) σ
      (Open_go Open_defer_Close w buff)
      (set_pipes (alter (io.closeRead (Some e)) w (pipes σ)) σ)
| moves_Copy_return_nil w buff σ :
    moves g n (Open_go (Copy_return None) w buff) σ
      (Open_go Open_defer_Close w buff) σ
| moves_Open_defer_Close w buff σ :
    moves g n (Open_go Open_defer_Close w buff) σ
      (Open_go Open_defer_Done w buff)
      (set_pipes (alter (io.closeWrite None) w (pipes σ)) σ)
| moves_Open_defer_Done w buff σ :
    moves g n (Open_go Open_defer_Done w buff) σ
      (Open_go Open_exit w buff) (set_wg (wg σ + -1)%Z σ)
| moves_Poll_head_ok input rate headok done σ b :
    HeadObject input (s3 σ) = (None, b) ->
    moves g n (Close_go Poll_head input rate headok done) σ
      (Close_go Close_defer input rate headok done)
      (set_log (log σ ++ [HeadObject_call (goroutine_id g) input None]) (set_s3 b σ))
| moves_Poll_head_err input rate headok done σ e b :
    HeadObject input (s3 σ) = (Some e, b) ->
    moves g n (Close_go Poll_head input rate headok done) σ
      (Close_go (Poll_select (length (timers σ))) input rate headok done)
      (set_timers (timers σ ++ [(rate, false)])
         (set_log (log σ ++ [HeadObject_call (goroutine_id g) input (Some e)])
            (set_s3 b σ)))
| moves_Poll_select_done t input rate headok done σ :
    is_closed done σ = true ->
    fired t σ = false ->
    moves g n (Close_go (Poll_select t) input rate headok done) σ
      (Close_go Close_defer input rate headok done) σ
| moves_Poll_select_timer t input rate headok done σ :
    is_closed done σ = false ->
    fired t σ = true ->
    moves g n (Close_go (Poll_select t) input rate headok done) σ
      (Close_go Poll_head input rate headok done) σ
| moves_Poll_select_both t input rate headok done σ :
    is_closed done σ = true ->
    fired t σ = true ->
    moves g n (Close_go (Poll_select t) input rate headok done) σ
      (Close_go (if fastrand σ 0 then Close_defer else Poll_head) input rate headok done)
      (set_fastrand (fun i => fastrand σ (S i)) σ)
| moves_Close_defer input rate headok done σ :
    moves g n (Close_go Close_defer input rate headok done) σ
      (Close_go Close_exit input rate headok done)
      (set_chans (<[headok:=true]> (chans σ)) σ).

End Moves.

Section Program.

Context {B : Type} {api : S3API B}.
Variable Duration_String : Duration -> string.

(** What the user of the package can do. *)
Inductive call : Type :=
| call_Create (s : Store) (id : c4.ID)
| call_Open (s : Store) (id : c4.ID)
| call_Remove (s : Store) (id : c4.ID)
| call_Store_Close (s : Store)
| call_Write (w : s3WriteCloser) (b : bytes)
| call_Close (w : s3WriteCloser)
| call_Read (r : io_ReadCloser) (n : nat)
| call_ReadCloser_Close (r : io_ReadCloser)
| call_Gosched (k : nat).

Definition exec (c : call) : M B unit :=
  match c with
  | call_Create s id => Create s id ;; ret tt
  | call_Open s id => Open Duration_String s id ;; ret tt
  | call_Remove s id => Remove s id ;; ret tt
  | call_Store_Close s => Store_Close s ;; ret tt
  | call_Write w b => s3WriteCloser_Write w b ;; ret tt
  | call_Close w => s3WriteCloser_Close w ;; ret tt
  | call_Read r n => ReadCloser_Read r n ;; ret tt
  | call_ReadCloser_Close r => ReadCloser_Close r ;; ret tt
  | call_Gosched k => Gosched k
  end.

(** The states a program that uses the package can be in: it starts
    from [boot] and makes calls that return; what the rest of the
    system will do next is arbitrary at every point. *)
Inductive reachable : World B -> Prop :=
| reachable_boot b sched fastrand :
    reachable (boot b sched fastrand)
| reachable_call c σ σ' :
    reachable σ -> exec c σ = Some (tt, σ') -> reachable σ'
| reachable_oracle sched fastrand σ :
    reachable σ -> reachable (set_fastrand fastrand (set_sched sched σ)).

(** Every goroutine of the first state is still there in the second,
    at some place of the same code. *)
Definition extends (σ σ' : World B) : Prop :=
  forall g f, gos σ !! g = Some f -> exists f', gos σ' !! g = Some f' /\ same_code f f'.


(** What holds of every reachable state: the wait group counts the
    transfer goroutines in flight; a polling goroutine refers to
    channels and timers that exist; a goroutine of [Create] has
    issued one upload once it has called [Upload] and none before, no
    other goroutine has issued any; every upload was issued by a
    goroutine of [Create], for the key and from the pipe it was started
    with; the caller's goroutine issues no upload and the goroutines
    of the package no download. *)
Record inv (σ : World B) : Prop := {
  inv_wg : wg σ = Z.of_nat (live (gos σ));
  inv_pollers : forall g pc input rate headok done,
    gos σ !! g = Some (Close_go pc input rate headok done) ->
    headok < length (chans σ) /\ done < length (chans σ)
    /\ forall t, pc = Poll_select t -> t < length (timers σ);
  inv_uploads : forall g,
    uploads_by g (log σ) = if uploading (gos σ !! g) then 1 else 0;
  inv_upload_events : forall who input r,
    Upload_call who input r ∈ log σ ->
    exists g pc, who = goroutine_id g /\ gos σ !! g = Some (Create_go pc input r);
  inv_caller_uploads : count (fun e => is_upload e && by_caller e) (log σ) = 0;
  inv_goroutine_downloads : count (fun e => is_download e && negb (by_caller e)) (log σ) = 0;
}.

End Program.

(** ** The round trip *)

(** What the round trip needs of the backend: behind its state there is
    a table of objects per bucket and key, which [HeadObject] and
    [Download] leave as it is, which a successful [Upload] changes at
    its key, to the bytes uploaded, and a failed one leaves as it is;
    and a [Download] that succeeds delivers the object of its key. *)
Class ObjectStore (B : Type) {api : S3API B} : Type := {
  stored : B -> string -> string -> option bytes;
  HeadObject_stored input b bucket key :
    stored (snd (HeadObject input b)) bucket key = stored b bucket key;
  Download_stored input b bucket key :
    stored (snd (Download input b)) bucket key = stored b bucket key;
  Download_ok input b buff n b' :
    Download input b = (buff, n, None, b') ->
    stored b (GetObjectInput_Bucket input) (GetObjectInput_Key input) = Some buff;
  Upload_ok input body b b' :
    Upload input body b = (None, b') ->
    stored b' (UploadInput_Bucket input) (UploadInput_Key input) = Some body;
  Upload_err input body b e b' bucket key :
    Upload input body b = (Some e, b') ->
    stored b' bucket key = stored b bucket key;
}.

(** What is left of the slice of the parked [Write], if one is parked. *)
Definition pending (p : io.pipe) : bytes := default [] (io.wr p).

(** The write end was closed by [Close] or not at all. *)
Definition closing (p : io.pipe) : Prop :=
  (io.done p = true -> io.wr p = None /\ io.werr p = Some io_EOF)
  /\ (io.done p = false -> io.werr p = None).

(** The pipe of an [Open] while its goroutine copies: the slice of the
    parked [Write], or nothing parked when nothing is left. *)
Definition copying (rest : bytes) : io.pipe :=
  io.mkpipe (match rest with [] => None | _ => Some rest end) false None None.

Section RoundTrip.

Context {B : Type} {api : S3API B}.
Variable Duration_String : Duration -> string.

(** The caller writes the chunks one after the other and stops at the
    first error. *)
Fixpoint WriteAll (w : s3WriteCloser) (chunks : list bytes) : M B (option error) :=
  match chunks with
  | [] => ret None
  | b :: chunks =>
      x <- s3WriteCloser_Write w b ;;
      match snd x with
      | Some e => ret (Some e)
      | None => WriteAll w chunks
      end
  end.

(** The caller reads into a buffer of [n] bytes until a [Read]
    returns an error, end-of-data included, at most [fuel] times, and
    collects what it read. *)
Fixpoint ReadAll (r : io_ReadCloser) (n fuel : nat) : M B (bytes * option error) :=
  match fuel with
  | 0 => ret ([], None)
  | S fuel =>
      x <- ReadCloser_Read r n ;;
      match snd x with
      | Some e => ret (fst x, Some e)
      | None =>
          y <- ReadAll r n fuel ;;
          ret (fst x ++ fst y, snd y)
      end
  end.

(** The round trip: [Create], the writes, [Close] (whatever it
    returns), some time, [Open], and reads up to end-of-data.  It
    gives the bytes read when every step came about, and [None] when
    [Create] or [Open] gave no handle, a write failed, or the reads
    did not reach end-of-data. *)
Definition roundtrip (s : Store) (id : c4.ID) (chunks : list bytes)
    (k n fuel : nat) : M B (option bytes) :=
  c <- Create s id ;;
  match fst c with
  | None => ret None
  | Some w =>
      e <- WriteAll w chunks ;;
      match e with
      | Some _ => ret None
      | None =>
          s3WriteCloser_Close w ;;
          Gosched k ;;
          o <- Open Duration_String s id ;;
          match fst o with
          | None => ret None
          | Some r =>
              d <- ReadAll r n fuel ;;
              match snd d with
              | Some io_EOF => ret (Some (fst d))
              | _ => ret None
              end
          end
      end
  end.

Context {store : ObjectStore B}.

(** Where the upload of a [Create] stands, while the caller has
    offered [offered] to the handle: as long as the uploader reads,
    nothing is stored at the key, and what it has read followed by
    what is left of the parked [Write] is [offered]; afterwards, the
    key holds nothing or, the write end being closed, [offered]. *)
Definition uploaded (input : UploadInput) (offered : bytes) (b : B)
    (p : io.pipe) (pc : Create_pc) : Prop :=
  let object := stored b (UploadInput_Bucket input) (UploadInput_Key input) in
  match pc with
  | Upload_enter =>
      object = None /\ io.rerr p = None /\ pending p = offered /\ closing p
  | Upload_read body =>
      object = None /\ io.rerr p = None /\ body ++ pending p = offered /\ closing p
  | _ => object = None \/ (object = Some offered /\ io.done p = true)
  end.

(** The state between [Create] and [Open] in the round trip: one
    pipe, the goroutine of the [Create] first in the list, and
    otherwise polling goroutines only. *)
Record writing (input : UploadInput) (offered : bytes) (σ : World B) : Prop := {
  writing_pipes : length (pipes σ) = 1;
  writing_others : forall g f,
    g <> 0 -> gos σ !! g = Some f ->
    match f with Close_go _ _ _ _ _ => True | _ => False end;
  writing_upload : exists pc,
    gos σ !! 0 = Some (Create_go pc input 0)
    /\ uploaded input offered (s3 σ) (pipe_at σ 0) pc;
}.

(** Where the copy of an [Open] stands, while the caller has read
    [got] from the handle and [P] was downloaded. *)
Definition copied (P got : bytes) (p : io.pipe) (pc : Open_pc) : Prop :=
  match pc with
  | Copy_enter =>
      got = [] /\ io.wr p = None /\ io.done p = false
      /\ io.rerr p = None /\ io.werr p = None
  | Copy_write =>
      got ++ pending p = P /\ io.done p = false
      /\ io.rerr p = None /\ io.werr p = None
  | Copy_return None | Open_defer_Close =>
      got = P /\ io.wr p = None /\ io.done p = false
      /\ io.rerr p = None /\ io.werr p = None
  | Copy_return (Some _) => False
  | Open_defer_Done | Open_exit =>
      got = P /\ io.wr p = None /\ io.done p = true
      /\ io.rerr p = None /\ io.werr p = Some io_EOF
  end.

(** The state after [Open] in the round trip: goroutine [g] copies
    [P] into pipe [q], which no other goroutine touches. *)
Record reading (q g : nat) (P got : bytes) (σ : World B) : Prop := {
  reading_others : forall g' f,
    g' <> g -> gos σ !! g' = Some f ->
    match f with
    | Create_go _ _ r => r <> q
    | Open_go _ w _ => w <> q
    | Close_go _ _ _ _ _ => True
    end;
  reading_copy : exists pc,
    gos σ !! g = Some (Open_go pc q P)
    /\ q < length (pipes σ)
    /\ copied P got (pipe_at σ q) pc;
}.

End RoundTrip.

(** ** The earlier revision of [Close] *)

Module Legacy.
Section Close.

Context {B : Type} {api : S3API B}.

(** [s3WriteCloser.Close] as [s3c4.go] has it: the revision without
    the confirmation settings always confirms, polls every 500ms for
    up to 5s, and returns [nil] whichever of the timer and [headok]
    comes ready first.  The handle of that revision has no
    confirmation fields; those of [w] are not read. *)
Definition s3WriteCloser_Close (w : s3WriteCloser) : M B (option error * s3WriteCloser) :=
  if closed w then ret (Some (errorString "already closed"), w)
  else
    let w := set_closed true w in
    err <- io_WriteCloser_Close (wc_w w) ;;
    match err with
    | Some err => ret (Some err, w)
    | None =>
        headok <- make_chan ;;
        done <- make_chan ;;
        go (Close_go Poll_head (headInput w) (Millisecond * 500)%Z headok done) ;;
        t <- time_After (Second * 5)%Z ;;
        select2 park (fired t) (is_closed headok) ;;
        (* deferred *)
        close done ;;
        ret (None, w)
    end.

End Close.
End Legacy.

(** ** A concrete program *)

Module Example.

Definition Duration_String (d : Duration) : string := itoa d +:+ "ns".

Definition id : c4.ID :=
  c4.mkID
    "c41111111111111111111111111111111111111111111111111111111111111111111111111111111111111111"
    eq_refl.

Definition store (confirm : bool) : Store :=
  mkStore confirm (Second * 5)%Z (Millisecond * 500)%Z "bucket" "prefix".

(** The bytes of ["foobar"]. *)
Definition foobar : bytes :=
  [Byte.x66; Byte.x6f; Byte.x6f; Byte.x62; Byte.x61; Byte.x72].

Definition fastrand (n : nat) : bool := false.

Definition empty : MemS3.state := ∅.

(** The backend that has ["foobar"] at the key of [id]. *)
Definition full : MemS3.state :=
  MemS3.put "bucket" (Create_key (store true) id) foobar empty.

(** The handle that [Create] returns in a world without pipes. *)
Definition handle (confirm : bool) : s3WriteCloser :=
  mks3WriteCloser confirm (Second * 5)%Z (Millisecond * 500)%Z id (PipeWriter 0) false
    {| HeadObjectInput_Bucket := "bucket";
       HeadObjectInput_Key := Create_key (store confirm) id |}.

(** A handle around a writer whose [Close] fails. *)
Definition broken : s3WriteCloser :=
  mks3WriteCloser true (Second * 5)%Z (Millisecond * 500)%Z id
    (otherWriter 0 None (Some (errorString "close failed"))) false
    {| HeadObjectInput_Bucket := "bucket";
       HeadObjectInput_Key := Create_key (store true) id |}.

(** The world after [Create] on the empty backend, under a schedule. *)
Definition after_Create (confirm : bool) (sched : list label) : World MemS3.state :=
  match Create (store confirm) id (boot empty sched fastrand) with
  | Some (_, σ) => σ
  | None => boot empty sched fastrand
  end.

(** The world after the writer of a handle was closed. *)
Definition after_writer_Close (w : s3WriteCloser) (σ : World MemS3.state)
  : World MemS3.state :=
  match io_WriteCloser_Close (wc_w w) σ with
  | Some (_, σ') => σ'
  | None => σ
  end.

(** The world after [w.Close()]. *)
Definition after_Close (w : s3WriteCloser) (σ : World MemS3.state) : World MemS3.state :=
  match s3WriteCloser_Close w σ with
  | Some (_, σ') => σ'
  | None => σ
  end.

(** The world after [s.Close()]. *)
Definition after_Store_Close (s : Store) (σ : World MemS3.state) : World MemS3.state :=
  match Store_Close s σ with
  | Some (_, σ') => σ'
  | None => σ
  end.

(** A schedule under which the goroutine of a [Create] runs to its
    end once the handle is closed. *)
Definition upload : list label := repeat (Run 0 0) 6.


(** The handle of a [Create] was closed without confirmation, the
    upload has yet to run. *)
Definition closed_handle : World MemS3.state :=
  after_Close (handle false) (after_Create false upload).

(** Then the store was closed. *)
Definition closed_store : World MemS3.state :=
  after_Store_Close (store false) closed_handle.

End Example.
(** ** Further vocabulary *)

(** The write end of a pipe was closed: [done] is closed and the
    error of the write side is set. *)
Definition write_closed (p : io.pipe) : Prop :=
  io.done p = true /\ io.werr p <> None.

(** The pipe that a goroutine of the package holds an end of. *)
Definition pipe_of (f : goroutine) : option nat :=
  match f with
  | Create_go _ _ r => Some r
  | Open_go _ w _ => Some w
  | Close_go _ _ _ _ _ => None
  end.

(** Every goroutine holds an end of a pipe that was made. *)
Definition bounded {B : Type} (σ : World B) : Prop :=
  forall g f p, gos σ !! g = Some f -> pipe_of f = Some p -> p < length (pipes σ).

(** The goroutine [g] of a [Create] has not seen the end of its body
    yet: it is about to call [Upload] or reads, the pipe [q] that it
    reads is open, and no other goroutine holds an end of [q]. *)
Record awaiting {B : Type} (q g : nat) (σ : World B) : Prop := {
  awaiting_others : forall g' f,
    g' <> g -> gos σ !! g' = Some f -> pipe_of f <> Some q;
  awaiting_upload : exists pc input,
    gos σ !! g = Some (Create_go pc input q)
    /\ (pc = Upload_enter \/ exists body, pc = Upload_read body);
  awaiting_open : io.done (default io.Pipe (pipes σ !! q)) = false;
  awaiting_made : q < length (pipes σ);
}.

(** A goroutine at the place where it is started. *)
Definition started (f : goroutine) : Prop :=
  match f with
  | Create_go Upload_enter _ _ | Open_go Copy_enter _ _ | Close_go Poll_head _ _ _ _ => True
  | _ => False
  end.

(** A goroutine of [Open] that is parked in its [Write] has bytes to
    write. *)
Definition offering {B : Type} (σ : World B) : Prop :=
  forall g w buff, gos σ !! g = Some (Open_go Copy_write w buff) -> buff <> [].

(** A path element that [Clean] copies as it is: not empty, without
    a slash, and not starting with a dot. *)
Definition plain (e : list ascii) : Prop :=
  match e with
  | [] => False
  | c :: _ => path.is_dot c = false /\ forallb (fun c => negb (path.is_slash c)) e = true
  end.

(** The buffer of a rooted path starts with the slash, which [..]
    never removes. *)
Definition rooted_ok (rooted : bool) (out : list ascii) (dotdot : nat) : Prop :=
  rooted = true -> 1 <= dotdot /\ exists t, out = "/"%char :: t.

(** ** The example program of the README *)

Section README.

Context {B : Type} {api : S3API B}.
Variable Duration_String : Duration -> string.

(** [DontPanic(err)] and then the rest of [main]: what [main] has
    printed, and the error it panicked with, if it did. *)
Definition DontPanic (printed : bytes) (err : option error)
    (rest : M B (bytes * option error)) : M B (bytes * option error) :=
  match err with
  | Some e => ret (printed, Some e)
  | None => rest
  end.

(** [io.Copy(w, bytes.NewReader(data))].  A [bytes.Reader] has a
    [WriteTo], which [io.Copy] uses: everything that is left goes into
    one [Write], and nothing is written when nothing is left. *)
Definition io_Copy (w : s3WriteCloser) (data : bytes) : M B (Z * option error) :=
  match data with
  | [] => ret (0%Z, None)
  | _ =>
      x <- s3WriteCloser_Write w data ;;
      let '(m, err) := x in
      ret (m, match err with
              | None => if (m =? Z.of_nat (length data))%Z then None
                        else Some (errorString "short write")
              | Some _ => err
              end)
  end.

(** The panic of a method call on a [nil] interface value. *)
Definition nil_dereference : error :=
  errorString "runtime error: invalid memory address or nil pointer dereference".

(** [main] of the README, for the identifier and the bytes that it
    stores. *)
Definition main (id : c4.ID) (data : bytes) : M B (bytes * option error) :=
  let bucket := "your_bucket" in
  let '(store, err) := New bucket "optional_prefix" in
  DontPanic [] err (
  (* Open S3 Object for writing, error if object already exists. *)
  x <- Create store id ;;
  let '(w, err) := x in
  DontPanic [] err (
  match w with
  | None => ret ([], Some nil_dereference)
  | Some w =>
  (* Write data to object *)
  x <- io_Copy w data ;;
  DontPanic [] (snd x) (
  x <- s3WriteCloser_Close w ;;
  DontPanic [] (fst x) (
  (* Open S3 Object for reading. *)
  x <- Open Duration_String store id ;;
  let '(r, err) := x in
  DontPanic [] err (
  match r with
  | None => ret ([], Some nil_dereference)
  | Some r =>
  x <- ReadCloser_Read r 512 ;;
  let '(chunk, err) := x in
  DontPanic [] err (
  err <- ReadCloser_Close r ;;
  DontPanic [] err (
  let printed := chunk ++ [Byte.x0a] in
  (* Delete S3 Object *)
  err <- Remove store id ;;
  DontPanic printed err (
  err <- Store_Close store ;;
  DontPanic printed err (
  ret (printed, None)))))
  end)))
  end)).

End README.

(** The store that [main] makes, and the key of an identifier in it. *)
Definition main_store : Store := fst (New "your_bucket" "optional_prefix").
Definition main_key (id : c4.ID) : string := Create_key main_store id.

(** ** More of the concrete program *)

Module Cases.

Import Example.



(** A schedule under which a [Write] of six bytes returns. *)
Definition writing_six : list label := [Run 0 0; Run 0 6; Run 0 0; Run 0 0].


Definition after_WriteAll (w : s3WriteCloser) (chunks : list bytes) (σ : World MemS3.state)
  : World MemS3.state :=
  match WriteAll w chunks σ with
  | Some (_, σ') => σ'
  | None => σ
  end.

(** The backend has ["foobar"] at the key, nothing has been called. *)
Definition stocked (sched : list label) : World MemS3.state := boot full sched fastrand.

(** The world after [Open], and after reads from the handle. *)
Definition after_Open (σ : World MemS3.state) : World MemS3.state :=
  match Open Duration_String (store true) id σ with
  | Some (_, σ') => σ'
  | None => σ
  end.

Definition after_ReadAll (r : io_ReadCloser) (n fuel : nat) (σ : World MemS3.state)
  : World MemS3.state :=
  match ReadAll r n fuel σ with
  | Some (_, σ') => σ'
  | None => σ
  end.

(** A schedule under which [main] runs to its end on six bytes. *)
Definition main_sched : list label :=
  [Run 0 0; Run 0 6; Run 0 0; Run 1 0; Run 1 0; Run 2 0;
   Run 0 0; Run 0 0; Run 2 0; Run 2 0; Run 2 0; Run 2 0].

(** The world after [main]. *)
Definition after_main (data : bytes) (σ : World MemS3.state) : World MemS3.state :=
  match main Duration_String id data σ with
  | Some (_, σ') => σ'
  | None => σ
  end.

End Cases.

(** * Properties *)

(** Reduce the projections of a state that was built by the setters. *)
Ltac proj :=
  cbn [s3 pipes chans timers wg gos log sched fastrand set_s3 set_pipes set_chans
       set_timers set_wg set_gos set_log set_sched set_fastrand].

(** ** Keys *)

Section Keys.

Import path.

Lemma copy_element_no_slash (l out : list ascii) :
  forallb (fun c => negb (is_slash c)) l = true ->
  copy_element l out = ([], out ++ l).
Proof.
  revert out. induction l as [|c l IH]; intros out H; simpl in *.
  - by rewrite app_nil_r.
  - apply andb_true_iff in H as [Hc Hl].
    apply negb_true_iff in Hc. rewrite Hc.
    rewrite (IH _ Hl), <- app_assoc. reflexivity.
Qed.

Lemma Clean_loop_nil fuel rooted out dotdot :
  Clean_loop fuel rooted [] out dotdot = out.
Proof. by destruct fuel. Qed.

(** A single path element that does not start with a dot is clean. *)
Lemma Clean_element (c : ascii) (s : string) :
  is_dot c = false ->
  forallb (fun c => negb (is_slash c)) (c :: list_ascii_of_string s) = true ->
  Clean (String c s) = String c s.
Proof.
  intros Hdot Hs. unfold Clean.
  change (list_ascii_of_string (String c s)) with (c :: list_ascii_of_string s).
  pose proof Hs as Hs'. simpl in Hs'.
  apply andb_true_iff in Hs' as [Hc _]. apply negb_true_iff in Hc.
  cbv zeta. rewrite Hc. cbn [Clean_loop]. rewrite Hc, Hdot. cbn [andb length Nat.eqb negb orb].
  rewrite (copy_element_no_slash _ _ Hs), Clean_loop_nil. cbn [app].
  change (c :: list_ascii_of_string s) with (list_ascii_of_string (String c s)).
  by rewrite string_of_list_ascii_of_string.
Qed.

Lemma in_charset_plain (c : ascii) :
  c4.in_charset c = true -> is_slash c = false /\ is_dot c = false.
Proof.
  unfold c4.in_charset. intros H. apply existsb_exists in H as (d & Hin & Heq).
  apply Ascii.eqb_eq in Heq. subst d.
  simpl in Hin. repeat (destruct Hin as [<- | Hin]; [by split|]). destruct Hin.
Qed.

Lemma canonical_Clean (s : string) : c4.canonical s = true -> Clean s = s.
Proof.
  unfold c4.canonical. intros H.
  apply andb_true_iff in H as [H Hall]. apply andb_true_iff in H as [Hlen _].
  destruct s as [|c s]; [done|].
  simpl in Hall. apply andb_true_iff in Hall as [Hc Hall].
  apply Clean_element.
  - by apply in_charset_plain.
  - simpl. apply andb_true_iff. split.
    + apply negb_true_iff. by apply in_charset_plain.
    + apply forallb_forall. intros x Hx. apply negb_true_iff.
      apply in_charset_plain. revert x Hx. by apply forallb_forall.
Qed.

Lemma canonical_nonempty (s : string) : c4.canonical s = true -> String.length s <> 0.
Proof.
  unfold c4.canonical. intros H.
  apply andb_true_iff in H as [H _]. apply andb_true_iff in H as [Hlen _].
  apply Nat.eqb_eq in Hlen. lia.
Qed.

Lemma Join_empty_prefix (s : string) : c4.canonical s = true -> Join [EmptyString; s] = s.
Proof.
  intros H. unfold Join. cbn [foldr String.length Nat.add].
  rewrite Nat.add_0_r.
  destruct (String.length s =? 0) eqn:E.
  - apply Nat.eqb_eq in E. by apply canonical_nonempty in H.
  - cbn [fold_left String.length Nat.ltb Nat.leb orb negb String.eqb].
    destruct s as [|c s]; [done|]. cbn. by apply canonical_Clean.
Qed.

(** C9. For every store (every prefix, the empty one included) and
    every identifier, [Remove] addresses the very key that [Create]
    and [Open] address; with the empty prefix, joining it with the
    identifier's canonical string gives that string alone, which is
    the key of all three. *)
Theorem Remove_addresses_the_key_of_Create_and_Open (s : Store) (id : c4.ID) :
  Remove_path s id = Create_key s id
  /\ Remove_path s id = Open_key s id
  /\ (prefix s = EmptyString ->
      Join [prefix s; c4.String id] = c4.String id
      /\ Remove_path s id = c4.String id
      /\ Create_key s id = c4.String id
      /\ Open_key s id = c4.String id).
Proof.
  unfold Remove_path, Create_key, Open_key.
  destruct (prefix s) as [|a pre] eqn:E; cbn [String.length Nat.ltb Nat.leb].
  - rewrite (Join_empty_prefix _ (c4.String_canonical id)). tauto.
  - repeat split; done.
Qed.

End Keys.

(** ** The calls that do not park *)

Section Direct.

Context {B : Type} {api : S3API B}.
Variable Duration_String : Duration -> string.

Implicit Types (σ : World B) (w : s3WriteCloser) (s : Store) (id : c4.ID).

Lemma includes_intro (pre sub post : string) : includes sub (pre +:+ sub +:+ post).
Proof. by exists pre, post. Qed.

Lemma append_assoc (a b c : string) : (a +:+ b) +:+ c = a +:+ (b +:+ c).
Proof.
  induction a as [|x a IH]; [done|].
  change (String x ((a +:+ b) +:+ c) = String x (a +:+ b +:+ c)). by f_equal.
Qed.

(** C2. When [HeadObject] reports the key of [id] as existing,
    [Create] returns no handle and the already-exists error that
    carries the key; it creates no pipe, adds nothing to the wait
    group, starts no goroutine, and the only backend call it issues
    is that [HeadObject]: no upload. *)
Theorem Create_of_an_existing_key s id σ :
  let key := Create_key s id in
  let input := {| HeadObjectInput_Bucket := bucket s; HeadObjectInput_Key := key |} in
  fst (HeadObject input (s3 σ)) = None ->
  exists σ',
    Create s id σ = Some ((None, Some (PathError "create" key os_ErrExist)), σ')
    /\ gos σ' = gos σ /\ wg σ' = wg σ /\ pipes σ' = pipes σ
    /\ log σ' = log σ ++ [HeadObject_call caller input None]
    /\ sched σ' = sched σ.
Proof.
  intros key input H. unfold Create, bind, s3_HeadObject. fold key. fold input.
  destruct (HeadObject input (s3 σ)) as [err b]. simpl in H. subst err.
  eexists. split; [reflexivity|]. by repeat split.
Qed.

(** C7. When the download fails, [Open] returns no handle and an
    error whose text includes the key, the text of the backend's
    error and the number of bytes; it creates no pipe, adds nothing
    to the wait group and starts no goroutine. *)
Theorem Open_of_a_failed_download s id σ buff n err b :
  let key := Open_key s id in
  let input := {| GetObjectInput_Bucket := bucket s; GetObjectInput_Key := key |} in
  Download input (s3 σ) = (buff, n, Some err, b) ->
  exists (msg : string) σ',
    Open Duration_String s id σ = Some ((None, Some (errorString msg)), σ')
    /\ msg = key +:+ " " +:+ Error Duration_String err +:+ " (n == " +:+ itoa n +:+ ")"
    /\ includes key msg
    /\ includes (Error Duration_String err) msg
    /\ includes (itoa n) msg
    /\ gos σ' = gos σ /\ wg σ' = wg σ /\ pipes σ' = pipes σ
    /\ log σ' = log σ ++ [Download_call caller input n (Some err)].
Proof.
  intros key input H. unfold Open, bind, downloader_Download. fold key. fold input.
  rewrite H. eexists _, _. split; [reflexivity|]. split; [reflexivity|].
  split; [|split; [|split]].
  - exists EmptyString. eexists. reflexivity.
  - exists (key +:+ " "). eexists. rewrite !append_assoc. reflexivity.
  - exists (key +:+ " " +:+ Error Duration_String err +:+ " (n == "), ")".
    rewrite !append_assoc. reflexivity.
  - by repeat split.
Qed.

(** What the [Close] of the writer inside a handle leaves alone. *)
Lemma io_WriteCloser_Close_frame (x : io_WriteCloser) σ r σ1 :
  io_WriteCloser_Close x σ = Some (r, σ1) ->
  s3 σ1 = s3 σ /\ log σ1 = log σ /\ gos σ1 = gos σ /\ wg σ1 = wg σ
  /\ chans σ1 = chans σ /\ timers σ1 = timers σ /\ sched σ1 = sched σ.
Proof.
  destruct x; cbv [io_WriteCloser_Close PipeWriter_Close bind upd_pipe act ret];
    intros [= <- <-]; by repeat split.
Qed.

(** A [Close] that returns leaves the handle closed. *)
Lemma Close_closes w σ r w1 σ1 :
  s3WriteCloser_Close w σ = Some ((r, w1), σ1) -> closed w1 = true.
Proof.
  unfold s3WriteCloser_Close.
  destruct (closed w) eqn:Hc.
  { intros [= <- <- <-]. done. }
  unfold bind at 1.
  destruct (io_WriteCloser_Close _ σ) as [[[e|] σ0]|]; [| |done].
  { intros [= <- <- <-]. done. }
  destruct (negb _).
  { intros [= <- <- <-]. done. }
  unfold bind, make_chan, go, act, time_After, close.
  destruct (select2 _ _ _ _) as [[[] σ2]|]; [| |done]; intros [= <- <- <-]; done.
Qed.

Lemma Close_of_closed w σ :
  closed w = true ->
  s3WriteCloser_Close w σ = Some ((Some (errorString "already closed"), w), σ).
Proof. intros H. unfold s3WriteCloser_Close. by rewrite H. Qed.

(** C5. Whatever the first [Close] of a handle returned, a second
    [Close] returns the already-closed error and leaves the handle and
    the whole state as they were: the pipe is not closed again, no
    goroutine is started, no timer armed, no backend call issued. *)
Theorem second_Close_is_rejected w σ r w1 σ1 :
  s3WriteCloser_Close w σ = Some ((r, w1), σ1) ->
  s3WriteCloser_Close w1 σ1
  = Some ((Some (errorString "already closed"), w1), σ1).
Proof. intros H. apply Close_of_closed. eapply Close_closes, H. Qed.

(** C6. With confirmation disabled, once the writer inside the handle
    has closed without error, [Close] returns [nil] at once: the
    schedule is not consumed, no goroutine, channel or timer is
    created, and the log of backend calls is unchanged, so no
    [HeadObject] is issued, whatever the backend is. *)
Theorem Close_without_confirmation w σ σ1 :
  closed w = false ->
  confirmCreate w = false ->
  io_WriteCloser_Close (wc_w w) σ = Some (None, σ1) ->
  s3WriteCloser_Close w σ = Some ((None, set_closed true w), σ1)
  /\ log σ1 = log σ /\ s3 σ1 = s3 σ /\ gos σ1 = gos σ
  /\ chans σ1 = chans σ /\ timers σ1 = timers σ /\ sched σ1 = sched σ.
Proof.
  intros Hc Hn Hw. split.
  - unfold s3WriteCloser_Close. rewrite Hc. unfold bind at 1.
    cbn [set_closed wc_w confirmCreate]. rewrite Hw, Hn. reflexivity.
  - apply io_WriteCloser_Close_frame in Hw. tauto.
Qed.

(** C10. [Close] sets the closed flag before it closes the writer:
    when that close fails, [Close] returns the failure with the handle
    already marked closed and without having started the confirmation
    (no goroutine, channel, timer or backend call), and every later
    [Close] of the handle, in any state, is rejected as already
    closed and changes nothing. *)
Theorem failed_Close_is_not_retryable w σ e σ1 :
  closed w = false ->
  io_WriteCloser_Close (wc_w w) σ = Some (Some e, σ1) ->
  s3WriteCloser_Close w σ = Some ((Some e, set_closed true w), σ1)
  /\ closed (set_closed true w) = true
  /\ (log σ1 = log σ /\ gos σ1 = gos σ /\ chans σ1 = chans σ /\ timers σ1 = timers σ)
  /\ forall σ',
      s3WriteCloser_Close (set_closed true w) σ'
      = Some ((Some (errorString "already closed"), set_closed true w), σ').
Proof.
  intros Hc Hw. split; [|split; [done|split]].
  - unfold s3WriteCloser_Close. rewrite Hc. unfold bind at 1.
    cbn [set_closed wc_w]. rewrite Hw. reflexivity.
  - apply io_WriteCloser_Close_frame in Hw. tauto.
  - intros σ'. by apply Close_of_closed.
Qed.

End Direct.

(** ** Counting *)

Section Counting.
Context {A : Type}.
Implicit Types (P : A -> bool) (l : list A).

Lemma count_nil P : count P [] = 0.
Proof. reflexivity. Qed.

Lemma count_cons P x l : count P (x :: l) = Nat.b2n (P x) + count P l.
Proof.
  unfold count. rewrite filter_cons. case_decide as H; rewrite H || (apply not_true_is_false in H; rewrite H); done.
Qed.

Lemma count_app P l1 l2 : count P (l1 ++ l2) = count P l1 + count P l2.
Proof. unfold count. by rewrite filter_app, length_app. Qed.

Lemma count_snoc P l x : count P (l ++ [x]) = count P l + Nat.b2n (P x).
Proof. rewrite count_app, count_cons, count_nil. lia. Qed.

Lemma count_insert P l i x y :
  l !! i = Some x ->
  count P (<[i:=y]> l) + Nat.b2n (P x) = count P l + Nat.b2n (P y).
Proof.
  revert i. induction l as [|z l IH]; intros [|i] H; simplify_eq/=.
  - rewrite !count_cons. lia.
  - rewrite !count_cons. specialize (IH _ H). lia.
Qed.

Lemma count_zero P l : count P l = 0 <-> forall x, x ∈ l -> P x = false.
Proof.
  induction l as [|z l IH].
  - split; [intros _ x Hx; by apply elem_of_nil in Hx | done].
  - rewrite count_cons. split.
    + intros H x Hx. apply elem_of_cons in Hx as [->|Hx].
      * destruct (P z); simpl in H; [lia | done].
      * apply IH; [lia | done].
    + intros H. rewrite (H z) by left. simpl. apply IH. intros x Hx. apply H. by right.
Qed.
End Counting.

(** ** What holds of every reachable state *)

Section Invariant.

Context {B : Type} {api : S3API B}.
Implicit Types (σ : World B).

Lemma inv_boot (b : B) sched fastrand : inv (boot b sched fastrand).
Proof.
  split; simpl; try done.
  intros who input r Hin. by apply elem_of_nil in Hin.
Qed.


Lemma step_moves g n f σ f' σ' :
  step g n f σ = Some (f', σ') -> moves g n f σ f' σ'.
Proof.
  destruct f as [pc input r|pc w buff|pc input rate headok done]; destruct pc;
    cbv [step Create_go_step Open_go_step Close_go_step bind ret act emit upd_pipe
         wg_Done wg_Add time_After close].
  - intros [= <- <-]. constructor.
  - unfold try. destruct (io.read n (pipe_at σ r)) as [[[chunk err] p']|] eqn:Hr; [|done].
    destruct err as [e|]; [destruct e|].
    1: { cbn. destruct (Upload input body (s3 σ)) as [err b] eqn:Hu.
         intros [= <- <-]. by eapply moves_Upload_eof. }
    all: intros [= <- <-]; by econstructor.
  - destruct err; intros [= <- <-]; constructor.
  - intros [= <- <-]. constructor.
  - done.
  - destruct buff as [|x buff].
    + intros [= <- <-]. constructor.
    + destruct (io.done (pipe_at σ w)) eqn:Hd; intros [= <- <-]; by constructor.
  - unfold try. destruct (io.written buff (pipe_at σ w)) as [res|] eqn:Hw; [|done].
    intros [= <- <-]. by constructor.
  - destruct err; intros [= <- <-]; constructor.
  - intros [= <- <-]. constructor.
  - intros [= <- <-]. constructor.
  - done.
  - unfold s3_HeadObject. destruct (HeadObject input (s3 σ)) as [[e|] b] eqn:Hh;
      intros [= <- <-]; by econstructor.
  - cbv [select2 bind ret try ready2 flip].
    destruct (is_closed done σ) eqn:Hd, (fired t σ) eqn:Hf; try done.
    + pose proof (moves_Poll_select_both g n t input rate headok done σ Hd Hf) as H.
      destruct (fastrand σ 0); intros [= <- <-]; exact H.
    + intros [= <- <-]. by constructor.
    + intros [= <- <-]. by constructor.
  - intros [= <- <-]. constructor.
  - done.
Qed.

(** A step of a goroutine leaves the list of goroutines alone. *)
Lemma moves_gos g n f σ f' σ' : moves g n f σ f' σ' -> gos σ' = gos σ.
Proof. by destruct 1. Qed.

Lemma bg_cases x σ :
  bg x σ = σ
  \/ (exists g n f f' σ', x = Run g n /\ gos σ !! g = Some f /\ moves g n f σ f' σ'
       /\ bg x σ = set_gos (<[g:=f']> (gos σ)) σ')
  \/ (exists t, x = Fire t
       /\ bg x σ = set_timers (alter (fun x => (fst x, true)) t (timers σ)) σ)
  \/ (exists g e body input r, x = Fail g e
       /\ gos σ !! g = Some (Create_go (Upload_read body) input r)
       /\ bg x σ = set_gos (<[g:=Create_go (Upload_return (Some e)) input r]> (gos σ)) σ).
Proof.
  destruct x as [g n|t|g e]; simpl.
  - destruct (gos σ !! g) as [f|] eqn:Hg; [|by left].
    destruct (step g n f σ) as [[f' σ']|] eqn:Hs; [|by left].
    apply step_moves in Hs. right; left. exists g, n, f, f', σ'.
    by rewrite (moves_gos _ _ _ _ _ _ Hs).
  - right; right; left. by exists t.
  - destruct (gos σ !! g) as [[[] input r| |]|] eqn:Hg; try by left.
    right; right; right. by exists g, e, body, input, r.
Qed.


Lemma lookup_insert_cases {A} (l : list A) i j x y :
  <[i:=x]> l !! j = Some y ->
  (i = j /\ x = y /\ i < length l) \/ (i <> j /\ l !! j = Some y).
Proof.
  destruct (decide (i = j)) as [->|Hne].
  - intros H. pose proof (lookup_lt_Some _ _ _ H) as Hlt. rewrite length_insert in Hlt.
    rewrite list_lookup_insert_eq in H by done. left. by simplify_eq.
  - rewrite list_lookup_insert_ne by done. by right.
Qed.

Lemma uploads_by_snoc g l e :
  uploads_by g (l ++ [e]) = uploads_by g l + Nat.b2n (is_upload_by g e).
Proof. apply count_snoc. Qed.

Lemma same_code_refl f : same_code f f.
Proof. by destruct f. Qed.

Lemma same_code_trans f1 f2 f3 : same_code f1 f2 -> same_code f2 f3 -> same_code f1 f3.
Proof. destruct f1, f2, f3; simpl; intuition congruence. Qed.

Lemma moves_same_code g n f σ f' σ' : moves g n f σ f' σ' -> same_code f f'.
Proof. by destruct 1. Qed.

Lemma extends_refl σ : extends σ σ.
Proof. intros g f H. eauto using same_code_refl. Qed.

Lemma extends_trans σ1 σ2 σ3 : extends σ1 σ2 -> extends σ2 σ3 -> extends σ1 σ3.
Proof.
  intros H12 H23 g f H. destruct (H12 _ _ H) as (f2 & H2 & Hs2).
  destruct (H23 _ _ H2) as (f3 & H3 & Hs3). eauto using same_code_trans.
Qed.

Lemma extends_insert g f f' σ σ' :
  gos σ !! g = Some f -> same_code f f' -> gos σ' = <[g:=f']> (gos σ) -> extends σ σ'.
Proof.
  intros Hg Hs Hg' g0 f0 H0. rewrite Hg'.
  destruct (decide (g = g0)) as [<-|Hne].
  - rewrite list_lookup_insert_eq by by eapply lookup_lt_Some. simplify_eq. eauto.
  - rewrite list_lookup_insert_ne by done. eauto using same_code_refl.
Qed.

Lemma extends_app l σ σ' : gos σ' = gos σ ++ l -> extends σ σ'.
Proof.
  intros Hg' g f H. rewrite Hg', lookup_app_l by by eapply lookup_lt_Some.
  eauto using same_code_refl.
Qed.

Lemma extends_bg x σ : extends σ (bg x σ).
Proof.
  destruct (bg_cases x σ) as [->|[(g & n & f & f' & σ' & -> & Hg & Hm & ->)
    |[(t & -> & ->)|(g & e & body & input & r & -> & Hg & ->)]]].
  - apply extends_refl.
  - eapply extends_insert; [done|by eapply moves_same_code|done].
  - apply (extends_app []). simpl. by rewrite app_nil_r.
  - eapply (extends_insert g _ (Create_go (Upload_return (Some e)) input r));
      [exact Hg|done|done].
Qed.

Lemma upload_events_extends σ σ' :
  extends σ σ' ->
  (forall who input r, Upload_call who input r ∈ log σ ->
     exists g pc, who = goroutine_id g /\ gos σ !! g = Some (Create_go pc input r)) ->
  forall who input r, Upload_call who input r ∈ log σ ->
     exists g pc, who = goroutine_id g /\ gos σ' !! g = Some (Create_go pc input r).
Proof.
  intros He H who input r Hin. destruct (H _ _ _ Hin) as (g & pc & -> & Hg).
  destruct (He _ _ Hg) as (f' & Hg' & Hs). destruct f'; simpl in Hs; try done.
  destruct Hs as [<- <-]. eauto.
Qed.

Lemma inv_moves g n f σ f' σ' :
  gos σ !! g = Some f -> moves g n f σ f' σ' -> inv σ ->
  inv (set_gos (<[g:=f']> (gos σ)) σ').
Proof.
  intros Hg Hm [Hwg Hpoll Hup Hue Hcu Hgd].
  pose proof (lookup_lt_Some _ _ _ Hg) as Hlt.
  assert (extends σ (set_gos (<[g:=f']> (gos σ)) σ')) as Hext
    by (eapply extends_insert; [done|by eapply moves_same_code|done]).
  split.
  - pose proof (count_insert in_flight _ _ _ f' Hg) as Hc. unfold live.
    destruct Hm; simpl in *; unfold live in Hwg; lia.
  - intros g0 pc0 input0 rate0 headok0 done0 H0. simpl in H0.
    apply lookup_insert_cases in H0 as [(-> & Heq & _)|[Hne H0]].
    + destruct Hm; simplify_eq/=; destruct (Hpoll _ _ _ _ _ _ Hg) as (? & ? & Ht);
        rewrite ?length_app, ?length_insert; simpl;
        (split; [lia|split; [lia|]]); intros t' Ht';
        try (destruct (fastrand _ 0)); simplify_eq; lia.
    + destruct (Hpoll _ _ _ _ _ _ H0) as (? & ? & Ht).
      destruct Hm; simpl; rewrite ?length_app, ?length_insert; simpl;
        (split; [lia|split; [lia|]]); intros t' ->; specialize (Ht _ eq_refl); lia.
  - intros g0. specialize (Hup g0). simpl.
    destruct (decide (g = g0)) as [<-|Hne].
    + rewrite list_lookup_insert_eq by done. rewrite Hg in Hup.
      destruct Hm; simpl in *; rewrite ?uploads_by_snoc; simpl; rewrite ?Nat.eqb_refl; simpl; lia.
    + rewrite list_lookup_insert_ne by done.
      destruct Hm; simpl in *; rewrite ?uploads_by_snoc; simpl; try lia.
      apply Nat.eqb_neq in Hne. rewrite Nat.eqb_sym, Hne. simpl. lia.
  - pose proof (upload_events_extends _ _ Hext Hue) as Hue'.
    intros who input0 r0 Hin.
    assert (Upload_call who input0 r0 ∈ log σ
            \/ (f = Create_go Upload_enter input0 r0 /\ who = goroutine_id g)) as [Hold|[-> ->]].
    { destruct Hm; simpl in Hin; try (by left).
      all: apply elem_of_app in Hin as [Hin|Hin]; [by left|].
      all: apply list_elem_of_singleton in Hin; simplify_eq. by right. }
    + by apply Hue'.
    + destruct (Hext _ _ Hg) as (f2 & Hg2 & Hs). destruct f2; simpl in Hs; try done.
      destruct Hs as [<- <-]. eauto.
  - destruct Hm; simpl; rewrite ?count_snoc; simpl; lia.
  - destruct Hm; simpl; rewrite ?count_snoc; simpl; lia.
Qed.

Lemma inv_bg x σ : inv σ -> inv (bg x σ).
Proof.
  intros Hi.
  destruct (bg_cases x σ) as [->|[(g & n & f & f' & σ' & -> & Hg & Hm & ->)
    |[(t & -> & ->)|(g & e & body & input & r & -> & Hg & ->)]]]; [done| | |].
  - by eapply inv_moves.
  - destruct Hi as [Hwg Hpoll Hup Hue Hcu Hgd]. split; simpl; try done.
    intros ?????? H0. rewrite length_alter. eauto.
  - pose proof (extends_bg (Fail g e) σ) as Hext. simpl in Hext. rewrite Hg in Hext.
    destruct Hi as [Hwg Hpoll Hup Hue Hcu Hgd].
    pose proof (lookup_lt_Some _ _ _ Hg) as Hlt. split; simpl; try done.
    4: by apply (upload_events_extends _ _ Hext Hue).
    + pose proof (count_insert in_flight _ _ _ (Create_go (Upload_return (Some e)) input r) Hg) as Hc.
      unfold live in *. simpl in Hc. lia.
    + intros g0 ????? H0. apply lookup_insert_cases in H0 as [(-> & ? & _)|[Hne H0]]; [done|eauto].
    + intros g0. specialize (Hup g0).
      destruct (decide (g = g0)) as [<-|Hne].
      * rewrite list_lookup_insert_eq by done. by rewrite Hg in Hup.
      * by rewrite list_lookup_insert_ne.
Qed.

Lemma inv_oracle sched fastrand σ : inv σ -> inv (set_fastrand fastrand (set_sched sched σ)).
Proof. by intros []. Qed.

Lemma inv_set_sched sched σ : inv σ -> inv (set_sched sched σ).
Proof. by intros []. Qed.


Lemma await_inv {A} (I : World B -> Prop) (ready : World B -> option A) l σ a σ' :
  (forall x σ, I σ -> ready σ = None -> I (bg x σ)) ->
  I σ ->
  await ready l σ = Some (a, σ') ->
  exists σ1 l', I σ1 /\ ready σ1 = Some a /\ σ' = set_sched l' σ1.
Proof.
  intros Hbg. revert σ. induction l as [|x l IH]; intros σ Hi; simpl;
    destruct (ready σ) as [a'|] eqn:Hr.
  - intros [= <- <-]. eauto.
  - done.
  - intros [= <- <-]. eauto.
  - intros H. eapply IH; [|exact H]. by apply Hbg.
Qed.

Lemma idle_inv (I : World B -> Prop) k l σ :
  (forall x σ, I σ -> I (bg x σ)) ->
  I σ ->
  exists σ1 l', I σ1 /\ idle k l σ = set_sched l' σ1.
Proof.
  intros Hbg. revert l σ. induction k as [|k IH]; intros [|x l] σ Hi; simpl; eauto.
Qed.

(** The invariant only looks at the wait group, the goroutines, the
    log and the number of channels and timers. *)
Lemma inv_frame σ σ' :
  wg σ' = wg σ -> gos σ' = gos σ -> log σ' = log σ ->
  length (chans σ') = length (chans σ) -> length (timers σ') = length (timers σ) ->
  inv σ -> inv σ'.
Proof.
  intros Hw Hg Hl Hc Ht [Hwg Hpoll Hup Hue Hcu Hgd].
  split; rewrite ?Hw, ?Hg, ?Hl, ?Hc, ?Ht; done.
Qed.

Lemma inv_park {A} (ready : World B -> option A) σ a σ' :
  inv σ -> park ready σ = Some (a, σ') -> inv σ'.
Proof.
  intros Hi H. unfold park in H.
  eapply await_inv in H as (σ1 & l' & Hi1 & _ & ->); [|by intros; apply inv_bg|done].
  by apply inv_set_sched.
Qed.

(** The invariant when a goroutine is started. *)
Lemma inv_go f σ σ' :
  gos σ' = gos σ ++ [f] ->
  wg σ' = (wg σ + Z.of_nat (Nat.b2n (in_flight f)))%Z ->
  uploading (Some f) = false ->
  (forall pc input rate headok done, f = Close_go pc input rate headok done ->
     headok < length (chans σ') /\ done < length (chans σ')
     /\ forall t, pc = Poll_select t -> t < length (timers σ')) ->
  length (chans σ) <= length (chans σ') ->
  length (timers σ) <= length (timers σ') ->
  (exists e, log σ' = log σ ++ [e] /\ (is_upload e = false)
             /\ (is_download e && negb (by_caller e) = false))
  \/ log σ' = log σ ->
  inv σ -> inv σ'.
Proof.
  intros Hg Hw Hf Hp Hc Ht Hl [Hwg Hpoll Hup Hue Hcu Hgd].
  assert (forall g, uploads_by g (log σ') = uploads_by g (log σ)) as Hu.
  { intros g. destruct Hl as [(e & -> & He & _)| ->]; [|done].
    rewrite uploads_by_snoc. destruct e; simplify_eq/=; lia. }
  split.
  - rewrite Hg, Hw, Hwg. unfold live. rewrite count_snoc. lia.
  - intros g pc input rate headok done H0. rewrite Hg in H0.
    apply lookup_app_Some in H0 as [H0|[_ H0]].
    + destruct (Hpoll _ _ _ _ _ _ H0) as (? & ? & Ht').
      split; [lia|split; [lia|]]. intros t ->. specialize (Ht' _ eq_refl). lia.
    + destruct (g - length (gos σ)) as [|i]; simplify_eq/=. eauto.
  - intros g. rewrite Hu, Hup, Hg.
    destruct (decide (g < length (gos σ))) as [Hlt|Hge].
    + by rewrite lookup_app_l.
    + rewrite (lookup_ge_None_2 (gos σ)) by lia. rewrite lookup_app_r by lia.
      destruct (g - length (gos σ)) as [|i]; simpl; [|done].
      simpl in Hf. by rewrite Hf.
  - pose proof (upload_events_extends σ σ' (extends_app _ _ _ Hg) Hue) as Hue'.
    intros who input r Hin. apply Hue'.
    destruct Hl as [(e & Hl & He & _)|Hl]; rewrite Hl in Hin; [|done].
    apply elem_of_app in Hin as [Hin|Hin]; [done|].
    apply list_elem_of_singleton in Hin. by subst e.
  - destruct Hl as [(e & -> & He & _)| ->]; [|done].
    rewrite count_snoc, He. simpl. lia.
  - destruct Hl as [(e & -> & _ & He)| ->]; [|done].
    rewrite count_snoc, He. simpl. lia.
Qed.


(** The invariant when a backend call that is no upload, and no
    download by a goroutine of the package, is recorded. *)
Lemma inv_event e σ σ' :
  wg σ' = wg σ -> gos σ' = gos σ -> log σ' = log σ ++ [e] ->
  length (chans σ') = length (chans σ) -> length (timers σ') = length (timers σ) ->
  is_upload e = false -> is_download e && negb (by_caller e) = false ->
  inv σ -> inv σ'.
Proof.
  intros Hw Hg Hl Hc Ht He1 He2 [Hwg Hpoll Hup Hue Hcu Hgd].
  split; rewrite ?Hw, ?Hg, ?Hl, ?Hc, ?Ht; try done.
  - intros g. rewrite uploads_by_snoc, Hup. destruct e; simplify_eq/=; lia.
  - intros who input r Hin.
    apply elem_of_app in Hin as [Hin|Hin]; [by apply Hue|].
    apply list_elem_of_singleton in Hin. by subst e.
  - rewrite count_snoc, He1. simpl. lia.
  - rewrite count_snoc, He2. simpl. lia.
Qed.

Variable Duration_String : Duration -> string.

Lemma Create_inv s id σ r σ' : inv σ -> Create s id σ = Some (r, σ') -> inv σ'.
Proof.
  intros Hi. unfold Create, bind, s3_HeadObject.
  destruct (HeadObject _ (s3 σ)) as [[e|] b];
    cbv [io_Pipe wg_Add go act ret]; intros [= <- <-].
  - eapply (inv_go _ σ); [reflexivity|reflexivity|reflexivity|done|simpl; lia|simpl; lia| |done].
    left. eexists. split; [reflexivity|done].
  - eapply (inv_event _ σ); try reflexivity; done.
Qed.

Lemma Open_inv s id σ r σ' :
  inv σ -> Open Duration_String s id σ = Some (r, σ') -> inv σ'.
Proof.
  intros Hi. unfold Open, bind, downloader_Download.
  destruct (Download _ (s3 σ)) as [[[buff n] [e|]] b];
    cbv [io_Pipe wg_Add go act ret]; intros [= <- <-].
  - eapply (inv_event _ σ); try reflexivity; done.
  - eapply (inv_go _ σ); [reflexivity|reflexivity|reflexivity|done|simpl; lia|simpl; lia| |done].
    left. eexists. split; [reflexivity|done].
Qed.

Lemma Remove_inv s id σ r σ' : inv σ -> Remove s id σ = Some (r, σ') -> inv σ'.
Proof.
  intros Hi. unfold Remove, s3_DeleteObject.
  destruct (DeleteObject _ (s3 σ)) as [e b]. intros [= <- <-].
  eapply (inv_event _ σ); try reflexivity; done.
Qed.

Lemma Store_Close_inv s σ r σ' : inv σ -> Store_Close s σ = Some (r, σ') -> inv σ'.
Proof.
  intros Hi. unfold Store_Close, bind, wg_Wait.
  destruct (park _ σ) as [[[] σ1]|] eqn:Hp; [|done]. intros [= <- <-].
  by eapply inv_park.
Qed.

Lemma Write_inv w b σ r σ' : inv σ -> s3WriteCloser_Write w b σ = Some (r, σ') -> inv σ'.
Proof.
  intros Hi. unfold s3WriteCloser_Write, io_WriteCloser_Write.
  destruct (wc_w w) as [p|n werr cerr]; [|by intros [= <- <-]].
  unfold PipeWriter_Write. destruct (io.done (pipe_at σ p)); [by intros [= <- <-]|].
  cbv [bind upd_pipe act ret].
  destruct (park _ _) as [[res σ1]|] eqn:Hp; [|done]. intros [= <- <-].
  eapply inv_park in Hp; [|by eapply inv_frame; [..|exact Hi]].
  by eapply inv_frame; [..|exact Hp].
Qed.

Lemma Read_inv r n σ x σ' : inv σ -> ReadCloser_Read r n σ = Some (x, σ') -> inv σ'.
Proof.
  intros Hi. destruct r as [p]. cbv [ReadCloser_Read PipeReader_Read bind].
  destruct (park _ _) as [[[[chunk err] p'] σ1]|] eqn:Hp; [|done].
  cbv [upd_pipe act ret]. intros [= <- <-].
  eapply inv_park in Hp; [|done].
  by eapply inv_frame; [..|exact Hp].
Qed.

Lemma Gosched_inv k σ x σ' : inv σ -> Gosched k σ = Some (x, σ') -> inv σ'.
Proof.
  intros Hi. cbv [Gosched act]. intros [= <- <-].
  destruct (idle_inv inv k (sched σ) σ) as (σ1 & l' & Hi1 & ->); [by intros; apply inv_bg|done|].
  by apply inv_set_sched.
Qed.

Lemma Close_inv w σ r σ' : inv σ -> s3WriteCloser_Close w σ = Some (r, σ') -> inv σ'.
Proof.
  intros Hi. unfold s3WriteCloser_Close.
  destruct (closed w); [by intros [= <- <-]|].
  unfold bind at 1.
  destruct (io_WriteCloser_Close _ σ) as [[[e|] σ0]|] eqn:Hw; [| |done].
  all: apply io_WriteCloser_Close_frame in Hw as (Hs3 & Hlog & Hgos & Hwg & Hch & Htm & Hsc).
  all: assert (inv σ0) as Hi0 by (eapply inv_frame; [..|exact Hi]; congruence).
  { by intros [= <- <-]. }
  destruct (negb _); [by intros [= <- <-]|].
  cbv [bind make_chan go act time_After select2 close flip ret].
  match goal with |- context [park ?r ?s] => destruct (park r s) as [[x σ3]|] eqn:Hp end; [|done].
  eapply inv_park in Hp.
  - destruct x as [[]|]; [| |destruct (fastrand σ3 0)]; intros [= <- <-];
      (eapply inv_frame; [..|exact Hp]; simpl; rewrite ?length_insert; done).
  - eapply (inv_go _ σ0); [reflexivity|simpl; lia|reflexivity| |simpl; rewrite !length_app; lia
                          |simpl; rewrite length_app; lia|by right|done].
    intros ????? [= <- <- <- <- <-]. simpl. rewrite !length_app. simpl.
    split; [lia|split; [lia|done]].
Qed.

Lemma exec_inv c σ σ' : inv σ -> exec Duration_String c σ = Some (tt, σ') -> inv σ'.
Proof.
  intros Hi. destruct c; cbv [exec]; try unfold bind at 1.
  - destruct (Create _ _ _) as [[res σ1]|] eqn:H; [|done]. intros [= <-]. by eapply Create_inv.
  - destruct (Open _ _ _ _) as [[res σ1]|] eqn:H; [|done]. intros [= <-]. by eapply Open_inv.
  - destruct (Remove _ _ _) as [[res σ1]|] eqn:H; [|done]. intros [= <-]. by eapply Remove_inv.
  - destruct (Store_Close _ _) as [[res σ1]|] eqn:H; [|done]. intros [= <-]. by eapply Store_Close_inv.
  - destruct (s3WriteCloser_Write _ _ _) as [[res σ1]|] eqn:H; [|done]. intros [= <-]. by eapply Write_inv.
  - destruct (s3WriteCloser_Close _ _) as [[res σ1]|] eqn:H; [|done]. intros [= <-]. by eapply Close_inv.
  - destruct (ReadCloser_Read _ _ _) as [[res σ1]|] eqn:H; [|done]. intros [= <-]. by eapply Read_inv.
  - by intros [= <-].
  - by apply Gosched_inv.
Qed.

Lemma reachable_inv σ : reachable Duration_String σ -> inv σ.
Proof.
  induction 1 as [b sched fastrand|c σ σ' _ IH H|sched fastrand σ _ IH].
  - apply inv_boot.
  - by eapply exec_inv.
  - by apply inv_oracle.
Qed.

End Invariant.

(** ** The wait group and the transfers *)

Section Transfers.

Context {B : Type} {api : S3API B}.
Variable Duration_String : Duration -> string.
Implicit Types (σ : World B).

Lemma park_extends {A} (ready : World B -> option A) σ a σ' :
  park ready σ = Some (a, σ') -> extends σ σ'.
Proof.
  intros H. unfold park in H.
  eapply (await_inv (extends σ)) in H as (σ1 & l' & He & _ & ->).
  - exact He.
  - intros x σ1 He _. eapply extends_trans; [exact He|apply extends_bg].
  - apply extends_refl.
Qed.

(** C4. In a reachable state, when the [Close] of the store returns,
    it returns [nil], and every goroutine that [Create] or [Open]
    started before has returned: each is still listed, with the code
    it was started with, at its exit.  When no transfer is in flight,
    [Close] returns at once. *)
Theorem Store_Close_waits_for_the_transfers s σ :
  reachable Duration_String σ ->
  (forall r σ', Store_Close s σ = Some (r, σ') ->
     r = None
     /\ wg σ' = 0%Z
     /\ (forall g f, gos σ' !! g = Some f -> in_flight f = false)
     /\ (forall g f, gos σ !! g = Some f ->
           exists f', gos σ' !! g = Some f' /\ same_code f f' /\ in_flight f' = false))
  /\ (live (gos σ) = 0 ->
      exists σ', Store_Close s σ = Some (None, σ')
                 /\ gos σ' = gos σ /\ log σ' = log σ /\ sched σ' = sched σ).
Proof.
  intros Hr. apply reachable_inv in Hr. split.
  - intros r σ'. unfold Store_Close, bind, wg_Wait.
    destruct (park _ σ) as [[[] σ1]|] eqn:Hp; [|done]. intros [= <- <-].
    pose proof (park_extends _ _ _ _ Hp) as Hext.
    unfold park in Hp.
    eapply (await_inv inv) in Hp as (σ2 & l' & Hi2 & Hz & ->);
      [|by intros; apply inv_bg|done].
    destruct (wg σ2 =? 0)%Z eqn:Hwg; [|done]. apply Z.eqb_eq in Hwg.
    assert (forall g f, gos σ2 !! g = Some f -> in_flight f = false) as Hall.
    { intros g f Hg. pose proof (inv_wg _ Hi2) as Hl. rewrite Hwg in Hl.
      assert (live (gos σ2) = 0) as Hl0 by lia.
      eapply (proj1 (count_zero _ _) Hl0). by eapply list_elem_of_lookup_2. }
    split; [done|split; [done|split; [exact Hall|]]].
    intros g f Hg. destruct (Hext _ _ Hg) as (f' & Hg' & Hs). eauto.
  - intros Hl. pose proof (inv_wg _ Hr) as Hwg. rewrite Hl in Hwg.
    unfold Store_Close, bind, wg_Wait, park.
    destruct (sched σ) as [|x l] eqn:Hs; simpl; rewrite Hwg; simpl;
      eexists; (split; [reflexivity|]); simpl; by rewrite ?Hs.
Qed.

Lemma moves_caller_transfers g n f σ f' σ' :
  moves g n f σ f' σ' -> caller_transfers (log σ') = caller_transfers (log σ).
Proof.
  unfold caller_transfers. destruct 1; simpl; rewrite ?count_snoc; simpl; lia.
Qed.

Lemma bg_caller_transfers x σ :
  caller_transfers (log (bg x σ)) = caller_transfers (log σ).
Proof.
  destruct (bg_cases x σ) as [->|[(g & n & f & f' & σ' & -> & Hg & Hm & ->)
    |[(t & -> & ->)|(g & e & body & input & r & -> & Hg & ->)]]]; try done.
  simpl. by eapply moves_caller_transfers.
Qed.

Lemma park_caller_transfers {A} (ready : World B -> option A) σ a σ' :
  park ready σ = Some (a, σ') -> caller_transfers (log σ') = caller_transfers (log σ).
Proof.
  intros H. unfold park in H.
  eapply (await_inv (fun σ1 => caller_transfers (log σ1) = caller_transfers (log σ)))
    in H as (σ1 & l' & He & _ & ->); [done| |done].
  intros x σ1 He _. by rewrite bg_caller_transfers.
Qed.

Lemma idle_caller_transfers k l σ :
  caller_transfers (log (idle k l σ)) = caller_transfers (log σ).
Proof.
  revert l σ. induction k as [|k IH]; intros [|x l] σ; simpl; try done.
  by rewrite IH, bg_caller_transfers.
Qed.

(** What the calls add to the transfers of the caller's goroutine. *)
Lemma exec_caller_transfers c σ σ' :
  exec Duration_String c σ = Some (tt, σ') ->
  caller_transfers (log σ')
  = caller_transfers (log σ) + match c with call_Open _ _ => 1 | _ => 0 end.
Proof.
  destruct c; cbv [exec]; try unfold bind at 1.
  - unfold Create, bind, s3_HeadObject.
    destruct (HeadObject _ (s3 σ)) as [[e|] b];
      cbv [io_Pipe wg_Add go act ret]; intros [= <-]; simpl;
      unfold caller_transfers; rewrite count_snoc; simpl; lia.
  - unfold Open, bind, downloader_Download.
    destruct (Download _ (s3 σ)) as [[[buff n] [e|]] b];
      cbv [io_Pipe wg_Add go act ret]; intros [= <-]; simpl;
      unfold caller_transfers; rewrite count_snoc; simpl; lia.
  - unfold Remove, s3_DeleteObject.
    destruct (DeleteObject _ (s3 σ)) as [e b]. intros [= <-]. simpl.
    unfold caller_transfers; rewrite count_snoc; simpl; lia.
  - unfold Store_Close, bind, wg_Wait.
    destruct (park _ σ) as [[[] σ1]|] eqn:Hp; [|done]. intros [= <-].
    apply park_caller_transfers in Hp. lia.
  - unfold s3WriteCloser_Write, io_WriteCloser_Write.
    destruct (wc_w w) as [p|n werr cerr]; [|intros [= <-]; lia].
    unfold PipeWriter_Write. destruct (io.done (pipe_at σ p)); [intros [= <-]; lia|].
    cbv [bind upd_pipe act ret].
    destruct (park _ _) as [[res σ1]|] eqn:Hp; [|done]. intros [= <-].
    apply park_caller_transfers in Hp. simpl in *. lia.
  - unfold s3WriteCloser_Close.
    destruct (closed w); [intros [= <-]; lia|].
    unfold bind at 1.
    destruct (io_WriteCloser_Close _ σ) as [[[e|] σ0]|] eqn:Hw; [| |done].
    all: apply io_WriteCloser_Close_frame in Hw as (Hs3 & Hlog & Hgos & Hwg & Hch & Htm & Hsc).
    { intros [= <-]. rewrite Hlog. lia. }
    destruct (negb _); [intros [= <-]; rewrite Hlog; lia|].
    cbv [bind make_chan go act time_After select2 close flip ret].
    match goal with |- context [park ?r ?s] => destruct (park r s) as [[x σ3]|] eqn:Hp end; [|done].
    apply park_caller_transfers in Hp. simpl in Hp. rewrite Hlog in Hp.
    destruct x as [[]|]; [| |destruct (fastrand σ3 0)]; intros [= <-]; simpl; lia.
  - destruct r as [p]. cbv [ReadCloser_Read PipeReader_Read bind].
    destruct (park _ _) as [[[[chunk err] p'] σ1]|] eqn:Hp; [|done].
    cbv [upd_pipe act ret]. intros [= <-].
    apply park_caller_transfers in Hp. simpl. lia.
  - intros [= <-]. lia.
  - cbv [Gosched act]. intros [= <-]. rewrite idle_caller_transfers. lia.
Qed.

(** C8. In a reachable state: a [Create] that returns a handle has
    itself issued no transfer and has started exactly one goroutine,
    which uploads to the key of the handle from the read end of the
    handle's pipe; every goroutine of a [Create] has issued exactly
    one upload once it has called [Upload], none before, and no other
    goroutine ever issues one; every upload in the log was issued by
    such a goroutine, for its key and from its pipe; an [Open] that
    returns a handle has issued exactly one download, and its
    goroutine issues none; no call adds more than one transfer of the
    caller's goroutine to the log. *)
Theorem one_transfer_per_Create_and_Open σ :
  reachable Duration_String σ ->
  (forall s id w e σ',
     Create s id σ = Some ((Some w, e), σ') ->
     let input := {| UploadInput_Bucket := bucket s; UploadInput_Key := Create_key s id |} in
     wc_w w = PipeWriter (length (pipes σ))
     /\ HeadObjectInput_Key (headInput w) = UploadInput_Key input
     /\ gos σ' = gos σ ++ [Create_go Upload_enter input (length (pipes σ))]
     /\ count is_transfer (log σ') = count is_transfer (log σ)
     /\ uploads_by (length (gos σ)) (log σ') = 0)
  /\ (forall g, uploads_by g (log σ) = if uploading (gos σ !! g) then 1 else 0)
  /\ (forall who input r, Upload_call who input r ∈ log σ ->
        exists g pc, who = goroutine_id g /\ gos σ !! g = Some (Create_go pc input r))
  /\ (forall s id r e σ',
        Open Duration_String s id σ = Some ((Some r, e), σ') ->
        exists buff n,
          let input := {| GetObjectInput_Bucket := bucket s;
                          GetObjectInput_Key := Open_key s id |} in
          log σ' = log σ ++ [Download_call caller input n None]
          /\ count is_transfer (log σ') = count is_transfer (log σ) + 1
          /\ gos σ' = gos σ ++ [Open_go Copy_enter (length (pipes σ)) buff])
  /\ count (fun e => is_download e && negb (by_caller e)) (log σ) = 0
  /\ count (fun e => is_upload e && by_caller e) (log σ) = 0
  /\ (forall c σ', exec Duration_String c σ = Some (tt, σ') ->
        caller_transfers (log σ') <= caller_transfers (log σ) + 1).
Proof.
  intros Hr. apply reachable_inv in Hr.
  destruct Hr as [Hwg Hpoll Hup Hue Hcu Hgd].
  split; [|split; [exact Hup|split; [exact Hue|split; [|split; [exact Hgd|split; [exact Hcu|]]]]]].
  - intros s id w e σ'. unfold Create, bind, s3_HeadObject.
    destruct (HeadObject _ (s3 σ)) as [[e0|] b];
      cbv [io_Pipe wg_Add go act ret]; intros [= <- <- <-]; simpl.
    split; [done|split; [done|split; [done|split]]].
    + rewrite count_snoc. simpl. lia.
    + rewrite uploads_by_snoc, Hup. simpl.
      rewrite (lookup_ge_None_2 (gos σ)) by lia. simpl. lia.
  - intros s id r e σ'. unfold Open, bind, downloader_Download.
    destruct (Download _ (s3 σ)) as [[[buff n] [e0|]] b];
      cbv [io_Pipe wg_Add go act ret]; intros [= <- <- <-]; simpl.
    exists buff, n. split; [done|split; [|done]].
    rewrite count_snoc. simpl. lia.
  - intros c σ' Hc. apply exec_caller_transfers in Hc. destruct c; lia.
Qed.

End Transfers.

(** ** The confirmation protocol *)

Section Confirmation.

Context {B : Type} {api : S3API B}.
Variable Duration_String : Duration -> string.
Implicit Types (σ : World B) (w : s3WriteCloser).







Lemma is_closed_insert_ne c c' σ (l : list bool) :
  l = <[c':=true]> (chans σ) -> c <> c' ->
  default false (l !! c) = is_closed c σ.
Proof. intros -> Hne. unfold is_closed. by rewrite list_lookup_insert_ne. Qed.

Lemma fired_app t σ x :
  t < length (timers σ) ->
  default false (snd <$> (timers σ ++ [x]) !! t) = fired t σ.
Proof. intros Hlt. unfold fired. by rewrite lookup_app_l. Qed.


Lemma bg_timers_length x σ : length (timers σ) <= length (timers (bg x σ)).
Proof.
  destruct (bg_cases x σ) as [->|[(g & n & f & f' & σ' & -> & Hg & Hm & ->)
    |[(t & -> & ->)|(g & e & body & input & r & -> & Hg & ->)]]]; proj; try done.
  - destruct Hm; proj; rewrite ?length_app; simpl; lia.
  - by rewrite length_alter.
Qed.

Lemma fired_Fire t σ : t < length (timers σ) -> fired t (bg (Fire t) σ) = true.
Proof.
  intros Hlt. unfold fired. simpl. rewrite list_lookup_alter_eq.
  destruct (lookup_lt_is_Some_2 _ _ Hlt) as [x ->]. done.
Qed.

(** Once its timer is due to expire, a [select] on the timer returns. *)
Lemma await_timer (c2 : World B -> bool) t l σ :
  Fire t ∈ l -> t < length (timers σ) ->
  is_Some (await (ready2 (fired t) c2) l σ).
Proof.
  revert σ. induction l as [|x l IH]; intros σ Hin Hlt.
  - by apply elem_of_nil in Hin.
  - simpl. destruct (ready2 (fired t) c2 σ) eqn:Hr; [done|].
    apply elem_of_cons in Hin as [<-|Hin].
    + pose proof (fired_Fire t σ Hlt) as Hf.
      remember (bg (Fire t) σ) as σ1 eqn:E. clear E.
      assert (is_Some (ready2 (fired t) c2 σ1)) as [a Ha]
        by (unfold ready2; rewrite Hf; by destruct (c2 _)).
      destruct l as [|y l]; simpl; by rewrite Ha.
    + apply IH; [done|]. pose proof (bg_timers_length x σ). lia.
Qed.


End Confirmation.

(** ** The round trip *)

Section RoundTripProofs.

Context {B : Type} {api : S3API B} {store : ObjectStore B}.
Variable Duration_String : Duration -> string.
Implicit Types (σ : World B) (p : io.pipe).

Lemma pipe_at_alter_eq (f : io.pipe -> io.pipe) q σ σ' :
  pipes σ' = alter f q (pipes σ) -> q < length (pipes σ) ->
  pipe_at σ' q = f (pipe_at σ q).
Proof.
  intros Hp Hlt. unfold pipe_at. rewrite Hp, list_lookup_alter_eq.
  destruct (lookup_lt_is_Some_2 _ _ Hlt) as [x ->]. done.
Qed.

Lemma pipe_at_alter_ne (f : io.pipe -> io.pipe) q q' σ σ' :
  pipes σ' = alter f q' (pipes σ) -> q' <> q -> pipe_at σ' q = pipe_at σ q.
Proof. intros Hp Hne. unfold pipe_at. by rewrite Hp, list_lookup_alter_ne. Qed.

Lemma pipe_at_same q σ σ' : pipes σ' = pipes σ -> pipe_at σ' q = pipe_at σ q.
Proof. unfold pipe_at. by intros ->. Qed.

(** What a read that hands over data does to the pipe. *)
Lemma read_data n p chunk p' :
  io.read n p = Some (chunk, None, p') ->
  io.done p = false /\ chunk ++ pending p' = pending p
  /\ io.done p' = false /\ io.rerr p' = io.rerr p /\ io.werr p' = io.werr p
  /\ (io.wr p = None -> False).
Proof.
  unfold io.read, pending. destruct (io.done p) eqn:Hd; [done|].
  destruct (io.wr p) as [bw|] eqn:Hw; [|done]. intros [= <- <-]. simpl.
  split; [done|]. split; [|done].
  destruct (drop n bw) eqn:E; simpl; rewrite <- E; by rewrite take_drop.
Qed.

(** What a read that reports an error found. *)
Lemma read_error n p chunk e p' :
  io.read n p = Some (chunk, Some e, p') ->
  io.done p = true /\ p' = p /\ chunk = [] /\ e = io.readCloseError p.
Proof.
  unfold io.read. destruct (io.done p) eqn:Hd.
  - by intros [= <- <- <-].
  - by destruct (io.wr p).
Qed.

Lemma uploaded_ext input offered b b' p pc :
  stored b' (UploadInput_Bucket input) (UploadInput_Key input)
  = stored b (UploadInput_Bucket input) (UploadInput_Key input) ->
  uploaded input offered b p pc -> uploaded input offered b' p pc.
Proof. unfold uploaded. intros ->. done. Qed.

Lemma moves_pipes_length g n f σ f' σ' :
  moves g n f σ f' σ' -> length (pipes σ') = length (pipes σ).
Proof. destruct 1; proj; by rewrite ?length_alter. Qed.

(** A goroutine only touches the pipe it was started with. *)
Lemma moves_pipes g n f σ f' σ' q :
  moves g n f σ f' σ' ->
  match f with
  | Create_go _ _ r => r <> q
  | Open_go _ w _ => w <> q
  | Close_go _ _ _ _ _ => True
  end ->
  pipes σ' !! q = pipes σ !! q.
Proof.
  destruct 1; intros Hne; try done; proj; by rewrite list_lookup_alter_ne.
Qed.

(** Only the goroutine of a [Create] changes what the backend stores. *)
Lemma moves_stored g n f σ f' σ' bucket key :
  moves g n f σ f' σ' ->
  match f with Create_go _ _ _ => False | _ => True end ->
  stored (s3 σ') bucket key = stored (s3 σ) bucket key.
Proof.
  destruct 1; intros Hf; try done; proj.
  - pose proof (HeadObject_stored input σ.(s3) bucket key) as Hs. by rewrite H in Hs.
  - pose proof (HeadObject_stored input σ.(s3) bucket key) as Hs. by rewrite H in Hs.
Qed.

Lemma writing_moves input offered σ g n f f' σ' :
  gos σ !! g = Some f -> moves g n f σ f' σ' ->
  writing input offered σ ->
  writing input offered (set_gos (<[g:=f']> (gos σ)) σ').
Proof.
  intros Hg Hm [Hpl Hoth (pc & Hp & Hu)].
  pose proof (lookup_lt_Some _ _ _ Hg) as Hlt.
  pose proof (moves_pipes_length _ _ _ _ _ _ Hm) as Hpl'.
  pose proof (moves_same_code _ _ _ _ _ _ Hm) as Hsc.
  split; proj.
  - lia.
  - intros g0 f0 Hne0 H0.
    apply lookup_insert_cases in H0 as [(-> & -> & _)|[Hne H0]]; [|by eapply Hoth].
    specialize (Hoth _ _ Hne0 Hg). by destruct f, f0.
  - destruct (decide (g = 0)) as [->|Hne].
    + rewrite Hp in Hg. injection Hg as <-.
      rewrite list_lookup_insert_eq by done.
      inversion Hm; subst; proj; (eexists; split; [reflexivity|]); simpl in Hu |- *.
      * exact Hu.
      * destruct Hu as (Ho & Hre & Hb & [Hc1 Hc2]).
        erewrite pipe_at_alter_eq; [|reflexivity|lia].
        match goal with H : io.read _ _ = Some _ |- _ =>
          apply read_data in H as (Hd & Hch & Hd' & Hre' & Hwe' & _) end.
        split; [done|]. split; [congruence|]. split.
        { rewrite <- app_assoc, Hch. done. }
        split; [congruence|]. intros _. rewrite Hwe'. by apply Hc2.
      * destruct Hu as (Ho & Hre & Hb & [Hc1 Hc2]).
        match goal with H : io.read _ _ = Some _ |- _ =>
          apply read_error in H as (Hd & -> & -> & He) end.
        destruct (Hc1 Hd) as [Hw He'].
        unfold pending in Hb. rewrite Hw in Hb. simpl in Hb. rewrite app_nil_r in Hb.
        subst body.
        erewrite pipe_at_alter_eq; [|reflexivity|lia].
        match goal with H : Upload _ _ _ = _ |- _ => rename H into Hup end.
        destruct err as [e|].
        -- left. rewrite (Upload_err _ _ _ _ _ _ _ Hup). done.
        -- right. split; [|done]. by rewrite (Upload_ok _ _ _ _ Hup).
      * left. by destruct Hu as (Ho & _).
      * erewrite pipe_at_alter_eq; [|reflexivity|lia].
        destruct Hu as [Ho|[Ho Hd]]; [by left|right]. done.
      * exact Hu.
      * exact Hu.
    + rewrite list_lookup_insert_ne by done.
      exists pc. split; [done|].
      specialize (Hoth _ _ Hne Hg).
      unfold pipe_at in *. proj.
      rewrite (moves_pipes _ _ _ _ _ _ 0 Hm) by by destruct f.
      eapply uploaded_ext; [|exact Hu].
      eapply moves_stored; [exact Hm|]. by destruct f.
Qed.

Lemma writing_bg input offered x σ :
  writing input offered σ -> writing input offered (bg x σ).
Proof.
  intros Hw.
  destruct (bg_cases x σ) as [->|[(g & n & f & f' & σ' & -> & Hg & Hm & ->)
    |[(t & -> & ->)|(g & e & body & input' & r & -> & Hg & ->)]]]; [done| | |].
  - by eapply writing_moves.
  - destruct Hw as [Hpl Hoth Hup]. by split.
  - destruct Hw as [Hpl Hoth (pc & Hp & Hu)].
    destruct (decide (g = 0)) as [->|Hne]; [|by specialize (Hoth _ _ Hne Hg)].
    rewrite Hp in Hg. injection Hg as -> <- <-.
    pose proof (lookup_lt_Some _ _ _ Hp) as Hlt.
    split; proj; [done| |].
    + intros g0 f0 Hne0 H0. rewrite list_lookup_insert_ne in H0 by done. by eapply Hoth.
    + rewrite list_lookup_insert_eq by done. eexists. split; [reflexivity|].
      left. by destruct Hu as (Ho & _).
Qed.


(** While no [Write] is parked on the pipe of the [Create], none appears. *)
Lemma idle_bg input offered x σ :
  writing input offered σ ->
  io.wr (pipe_at σ 0) = None -> io.wr (pipe_at (bg x σ) 0) = None.
Proof.
  intros [Hpl Hoth (pc & Hp & Hu)] Hidle.
  destruct (bg_cases x σ) as [->|[(g & n & f & f' & σ' & -> & Hg & Hm & ->)
    |[(t & -> & ->)|(g & e & body & input' & r & -> & Hg & ->)]]]; try done.
  destruct (decide (g = 0)) as [->|Hne].
  - rewrite Hp in Hg. injection Hg as <-.
    inversion Hm; subst; try done.
    + match goal with H : io.read _ _ = Some _ |- _ =>
        apply read_data in H as (_ & _ & _ & _ & _ & Hf) end. destruct (Hf Hidle).
    + match goal with H : io.read _ _ = Some _ |- _ =>
        apply read_error in H as (Hd & -> & -> & He) end.
      erewrite pipe_at_alter_eq; [|reflexivity|proj; lia]; simpl; done.
    + match goal with H : io.read _ _ = Some _ |- _ =>
        apply read_error in H as (Hd & -> & -> & He) end.
      erewrite pipe_at_alter_eq; [|reflexivity|proj; lia]; simpl; done.
    + erewrite pipe_at_alter_eq; [|reflexivity|proj; lia]; simpl; done.
  - specialize (Hoth _ _ Hne Hg). unfold pipe_at in *. proj.
    rewrite (moves_pipes _ _ _ _ _ _ 0 Hm); [done|]. by destruct f.
Qed.

Lemma writing_frame input offered σ σ' :
  pipes σ' = pipes σ -> gos σ' = gos σ -> s3 σ' = s3 σ ->
  writing input offered σ -> writing input offered σ'.
Proof.
  intros Hp Hg Hs [Hpl Hoth Hup]. unfold pipe_at in *.
  split; unfold pipe_at; rewrite ?Hp, ?Hg, ?Hs; done.
Qed.

Lemma retract_idle p : io.wr p = None -> io.retract p = p.
Proof. destruct p; simpl. by intros ->. Qed.

Lemma written_ok b p n : io.written b p = Some (n, None) -> io.wr p = None.
Proof.
  unfold io.written. destruct (io.wr p); [|done]. by destruct (io.done p).
Qed.

Lemma park_writing {A} input offered (ready : World B -> option A) σ a σ' :
  writing input offered σ ->
  park ready σ = Some (a, σ') ->
  exists σ1 l, writing input offered σ1 /\ ready σ1 = Some a /\ σ' = set_sched l σ1.
Proof.
  intros Hw H. unfold park in H.
  eapply (await_inv (writing input offered)) in H; [done| |done].
  intros x σ1 Hw1 _. by apply writing_bg.
Qed.

Lemma Write_writing input offered w b σ n σ' :
  wc_w w = PipeWriter 0 ->
  writing input offered σ -> io.wr (pipe_at σ 0) = None ->
  s3WriteCloser_Write w b σ = Some ((n, None), σ') ->
  writing input (offered ++ b) σ' /\ io.wr (pipe_at σ' 0) = None.
Proof.
  intros Hw Hwr Hidle. unfold s3WriteCloser_Write. rewrite Hw.
  unfold io_WriteCloser_Write, PipeWriter_Write.
  destruct (io.done (pipe_at σ 0)) eqn:Hd; [done|].
  cbv [bind upd_pipe act ret].
  destruct (park _ _) as [[res σ1]|] eqn:Hpk; [|done]. intros [= -> <-].
  pose proof (writing_pipes _ _ _ Hwr) as Hpl.
  eapply park_writing in Hpk as (σ2 & l & Hw2 & Hrd & ->).
  - apply written_ok in Hrd.
    assert (io.retract (pipe_at σ2 0) = pipe_at σ2 0) as Hre by by apply retract_idle.
    pose proof (writing_pipes _ _ _ Hw2) as Hpl2.
    split.
    + destruct Hw2 as [Hpl' Hoth (pc & Hp & Hu)].
      split; proj; [by rewrite length_alter|done|].
      exists pc. split; [done|].
      erewrite pipe_at_alter_eq; [|reflexivity|proj; lia].
      rewrite retract_idle by done. exact Hu.
    + erewrite pipe_at_alter_eq; [|reflexivity|proj; lia]. done.
  - destruct Hwr as [Hpl' Hoth (pc & Hp & Hu)].
    split; proj; [by rewrite length_alter|done|].
    exists pc. split; [done|].
    erewrite pipe_at_alter_eq; [|reflexivity|lia].
    unfold uploaded, pending, closing in *. simpl. rewrite Hidle, Hd in Hu. simpl in Hu.
    destruct pc; simpl; rewrite ?Hd.
    + destruct Hu as (Ho & Hre & <- & [_ Hc2]). done.
    + destruct Hu as (Ho & Hre & <- & [_ Hc2]). rewrite app_nil_r. done.
    + destruct Hu as [Ho|[_ ?]]; [by left|done].
    + destruct Hu as [Ho|[_ ?]]; [by left|done].
    + destruct Hu as [Ho|[_ ?]]; [by left|done].
Qed.

Lemma WriteAll_writing input offered w chunks σ σ' :
  wc_w w = PipeWriter 0 ->
  writing input offered σ -> io.wr (pipe_at σ 0) = None ->
  WriteAll w chunks σ = Some (None, σ') ->
  writing input (offered ++ concat chunks) σ' /\ io.wr (pipe_at σ' 0) = None.
Proof.
  intros Hw. revert offered σ. induction chunks as [|b chunks IH]; intros offered σ Hwr Hidle.
  - intros [= <-]. simpl. by rewrite app_nil_r.
  - cbn [WriteAll]. unfold bind.
    destruct (s3WriteCloser_Write w b σ) as [[[n [e|]] σ1]|] eqn:H1; try done.
    cbn [snd]. intros H2.
    destruct (Write_writing _ _ _ _ _ _ _ Hw Hwr Hidle H1) as [Hwr1 Hidle1].
    simpl. rewrite app_assoc. by eapply IH.
Qed.

Lemma Close_writing input offered w σ r σ' :
  wc_w w = PipeWriter 0 ->
  writing input offered σ -> io.wr (pipe_at σ 0) = None ->
  s3WriteCloser_Close w σ = Some (r, σ') ->
  writing input offered σ'.
Proof.
  intros Hw Hwr Hidle. unfold s3WriteCloser_Close.
  destruct (closed w); [by intros [= <- <-]|].
  unfold bind at 1. cbn [set_closed wc_w]. rewrite Hw.
  cbv [io_WriteCloser_Close PipeWriter_Close bind upd_pipe act ret
       make_chan go time_After select2 close flip].
  cbn [confirmCreate confirmationTimeout confirmationRequestRate headInput wc_id].
  set (σ0 := set_pipes _ σ).
  assert (writing input offered σ0) as Hw0.
  { subst σ0. destruct Hwr as [Hpl Hoth (pc & Hp & Hu)].
    split; proj; [by rewrite length_alter|done|].
    exists pc. split; [done|].
    erewrite pipe_at_alter_eq; [|reflexivity|lia].
    unfold uploaded, pending, closing in *. simpl. rewrite Hidle in Hu. simpl in Hu.
    assert (forall p (X : Prop), (io.done p = true -> X /\ io.werr p = Some io_EOF) ->
              (io.done p = false -> io.werr p = None) ->
              io.Store (io.werr p) io_EOF = Some io_EOF) as Hst.
    { intros p X Hc1 Hc2. destruct (io.done p).
      - destruct (Hc1 eq_refl) as [_ ->]. done.
      - by rewrite (Hc2 eq_refl). }
    destruct pc; simpl; rewrite ?Hidle; simpl.
    + destruct Hu as (Ho & Hre & Hb & Hc). split; [done|]. split; [done|]. split; [done|].
      split; [|done]. intros _. split; [done|]. destruct Hc as [Hc1 Hc2]. by eapply Hst.
    + destruct Hu as (Ho & Hre & Hb & Hc). split; [done|]. split; [done|]. split; [done|].
      split; [|done]. intros _. split; [done|]. destruct Hc as [Hc1 Hc2]. by eapply Hst.
    + destruct Hu as [Ho|[Ho _]]; [by left|by right].
    + destruct Hu as [Ho|[Ho _]]; [by left|by right].
    + destruct Hu as [Ho|[Ho _]]; [by left|by right]. }
  destruct (negb _); [by intros [= <- <-]|].
  match goal with |- context [park ?rd ?st] => destruct (park rd st) as [[x σ3]|] eqn:Hp end;
    [|done].
  eapply park_writing in Hp as (σ4 & l & Hw4 & _ & ->).
  - destruct x as [[]|]; [| |destruct (fastrand _ 0)]; intros [= <- <-];
      (eapply writing_frame; [..|exact Hw4]; done).
  - destruct Hw0 as [Hpl Hoth (pc & Hp0 & Hu)].
    pose proof (lookup_lt_Some _ _ _ Hp0) as Hlt.
    split; proj; [done| |].
    + intros g f Hne Hg. apply lookup_app_Some in Hg as [Hg|[Hge Hg]]; [by eapply Hoth|].
      destruct (g - length (gos σ0)) as [|i]; simplify_eq/=. done.
    + exists pc. split; [|done]. by rewrite lookup_app_l.
Qed.

Lemma Gosched_writing input offered k σ x σ' :
  writing input offered σ -> Gosched k σ = Some (x, σ') -> writing input offered σ'.
Proof.
  intros Hw. cbv [Gosched act]. intros [= <- <-].
  destruct (idle_inv (writing input offered) k (sched σ) σ) as (σ1 & l' & Hw1 & ->);
    [by intros; apply writing_bg|done|].
  by eapply writing_frame; [..|exact Hw1].
Qed.


Lemma reading_moves q gi P got σ g n f f' σ' :
  gos σ !! g = Some f -> moves g n f σ f' σ' ->
  reading q gi P got σ ->
  reading q gi P got (set_gos (<[g:=f']> (gos σ)) σ').
Proof.
  intros Hg Hm [Hoth (pc & Hp & Hq & Hc)].
  pose proof (lookup_lt_Some _ _ _ Hg) as Hlt.
  pose proof (moves_pipes_length _ _ _ _ _ _ Hm) as Hpl'.
  pose proof (moves_same_code _ _ _ _ _ _ Hm) as Hsc.
  split; proj.
  - intros g0 f0 Hne0 H0.
    apply lookup_insert_cases in H0 as [(-> & -> & _)|[Hne H0]]; [|by eapply Hoth].
    specialize (Hoth _ _ Hne0 Hg). destruct f, f0; simpl in Hsc; try done.
    + by destruct Hsc as [_ <-].
    + by destruct Hsc as [<- _].
  - destruct (decide (g = gi)) as [->|Hne].
    + rewrite Hp in Hg. injection Hg as <-.
      rewrite list_lookup_insert_eq by done.
      inversion Hm; subst; proj; (eexists; split; [reflexivity|]);
        (split; [rewrite ?length_alter; lia|]); simpl in Hc |- *.
      * exact Hc.
      * destruct Hc as (_ & _ & Hd & _). congruence.
      * erewrite pipe_at_alter_eq; [|reflexivity|lia].
        destruct Hc as (-> & Hw & Hd & Hre & Hwe). done.
      * erewrite pipe_at_alter_eq; [|reflexivity|lia].
        destruct Hc as (Hb & Hd & Hre & Hwe).
        match goal with H : io.written _ _ = Some _ |- _ => rename H into Hwr end.
        unfold io.written in Hwr. unfold pending in Hb.
        destruct (io.wr (pipe_at σ q)) as [rest|] eqn:Hw.
        -- rewrite Hd in Hwr. done.
        -- injection Hwr as <-. simpl in *. rewrite app_nil_r in Hb. done.
      * done.
      * exact Hc.
      * erewrite pipe_at_alter_eq; [|reflexivity|lia].
        destruct Hc as (-> & Hw & Hd & Hre & Hwe). simpl. rewrite Hwe. done.
      * exact Hc.
    + rewrite list_lookup_insert_ne by done.
      exists pc. split; [done|]. split; [lia|].
      specialize (Hoth _ _ Hne Hg). unfold pipe_at in *. proj.
      by rewrite (moves_pipes _ _ _ _ _ _ q Hm).
Qed.

Lemma reading_bg q gi P got x σ :
  reading q gi P got σ -> reading q gi P got (bg x σ).
Proof.
  intros Hr.
  destruct (bg_cases x σ) as [->|[(g & n & f & f' & σ' & -> & Hg & Hm & ->)
    |[(t & -> & ->)|(g & e & body & input' & r & -> & Hg & ->)]]]; [done| | |].
  - by eapply reading_moves.
  - destruct Hr as [Hoth Hc]. by split.
  - destruct Hr as [Hoth (pc & Hp & Hq & Hc)].
    assert (g <> gi) as Hne by (intros ->; congruence).
    split; proj.
    + intros g0 f0 Hne0 H0.
      apply lookup_insert_cases in H0 as [(-> & <- & _)|[? H0]]; [|by eapply Hoth].
      by apply (Hoth _ _ Hne0 Hg).
    + exists pc. by rewrite list_lookup_insert_ne.
Qed.

Lemma reading_frame q gi P got σ σ' :
  pipes σ' = pipes σ -> gos σ' = gos σ ->
  reading q gi P got σ -> reading q gi P got σ'.
Proof.
  intros Hp Hg [Hoth Hc]. unfold pipe_at in *.
  split; unfold pipe_at; rewrite ?Hp, ?Hg; done.
Qed.

(** A [Read] of the handle delivers the next bytes of [P], or
    end-of-data once all of [P] was read. *)
Lemma Read_reading q gi P got n σ chunk err σ' :
  reading q gi P got σ ->
  ReadCloser_Read (NopCloser q) n σ = Some ((chunk, err), σ') ->
  (err = None /\ reading q gi P (got ++ chunk) σ')
  \/ (err = Some io_EOF /\ chunk = [] /\ got = P /\ reading q gi P got σ').
Proof.
  intros Hr. cbv [ReadCloser_Read PipeReader_Read bind park].
  match goal with |- context [await ?rd ?l σ] => destruct (await rd l σ) as [[x σ1]|] eqn:Ha end;
    [|done].
  eapply (await_inv (reading q gi P got)) in Ha as (σ2 & l' & Hr2 & Hrd & ->);
    [|by intros; apply reading_bg|done].
  destruct x as [[chunk' err'] p']. cbv [upd_pipe act ret]. intros [= -> -> <-].
  destruct Hr2 as [Hoth (pc & Hp & Hq & Hc)].
  destruct err as [e|].
  - apply read_error in Hrd as (Hd & -> & -> & ->). right.
    assert (got = P /\ io.readCloseError (pipe_at σ2 q) = io_EOF) as [-> ->].
    { unfold io.readCloseError.
      destruct pc as [| |[?|]| | |]; simpl in Hc; try done.
      - destruct Hc as (_ & _ & ? & _). congruence.
      - destruct Hc as (_ & ? & _). congruence.
      - destruct Hc as (_ & _ & ? & _). congruence.
      - destruct Hc as (_ & _ & ? & _). congruence.
      - destruct Hc as (-> & _ & _ & -> & ->). done.
      - destruct Hc as (-> & _ & _ & -> & ->). done. }
    split; [done|]. split; [done|]. split; [done|].
    split; proj; [done|]. exists pc. split; [done|]. split; [by rewrite length_alter|].
    erewrite pipe_at_alter_eq; [|reflexivity|proj; lia]. exact Hc.
  - apply read_data in Hrd as (Hd & Hch & Hd' & Hre' & Hwe' & Hnw). left. split; [done|].
    split; proj; [done|]. exists pc. split; [done|]. split; [by rewrite length_alter|].
    erewrite pipe_at_alter_eq; [|reflexivity|proj; lia]. simpl.
    destruct pc as [| |[?|]| | |]; simpl in Hc |- *; try done.
    + destruct Hc as (_ & Hw & _). by destruct Hnw.
    + destruct Hc as (Hb & _ & Hre & Hwe). rewrite <- app_assoc, Hch.
      split; [done|]. split; [done|]. split; congruence.
    + destruct Hc as (_ & Hw & _). by destruct Hnw.
    + destruct Hc as (_ & Hw & _). by destruct Hnw.
    + destruct Hc as (_ & _ & ? & _). congruence.
    + destruct Hc as (_ & _ & ? & _). congruence.
Qed.

Lemma ReadAll_reading q gi P n fuel got σ data σ' :
  reading q gi P got σ ->
  ReadAll (NopCloser q) n fuel σ = Some ((data, Some io_EOF), σ') ->
  got ++ data = P.
Proof.
  revert got σ data. induction fuel as [|fuel IH]; intros got σ data Hr; [done|].
  cbn [ReadAll]. unfold bind at 1.
  destruct (ReadCloser_Read _ n σ) as [[[chunk err] σ1]|] eqn:H1; [|done].
  destruct (Read_reading _ _ _ _ _ _ _ _ _ Hr H1) as [[-> Hr1]|(-> & -> & -> & Hr1)]; cbn [snd fst].
  - unfold bind.
    destruct (ReadAll _ n fuel σ1) as [[[data' err'] σ2]|] eqn:H2; [|done].
    cbn [fst snd]. intros [= <- -> <-].
    rewrite app_assoc. by eapply IH.
  - intros [= <- <-]. by rewrite app_nil_r.
Qed.


Lemma Create_writing s id (b0 : B) sched fastrand w e σ1 :
  let input := {| UploadInput_Bucket := bucket s; UploadInput_Key := Create_key s id |} in
  stored b0 (bucket s) (Create_key s id) = None ->
  Create s id (boot b0 sched fastrand) = Some ((Some w, e), σ1) ->
  wc_w w = PipeWriter 0 /\ writing input [] σ1 /\ io.wr (pipe_at σ1 0) = None.
Proof.
  intros input Hst. unfold Create, bind, s3_HeadObject, boot. proj.
  match goal with |- context [HeadObject ?i b0] =>
    destruct (HeadObject i b0) as [[e0|] b] eqn:Hh end;
    cbv [io_Pipe wg_Add go act ret]; intros [= <- <- <-].
  split; [done|]. split; [|done].
  split; proj; [done| |].
  - intros [|g] f Hne Hg; [done|]. by destruct g.
  - exists Upload_enter. split; [done|]. simpl.
    pose proof (HeadObject_stored
      {| HeadObjectInput_Bucket := bucket s; HeadObjectInput_Key := Create_key s id |}
      b0 (bucket s) (Create_key s id)) as Hs.
    rewrite Hh in Hs. simpl in Hs. rewrite Hs. done.
Qed.

Lemma Open_reading s id P σ r e σ' :
  let input := {| UploadInput_Bucket := bucket s; UploadInput_Key := Create_key s id |} in
  writing input P σ ->
  Open Duration_String s id σ = Some ((Some r, e), σ') ->
  r = NopCloser 1 /\ reading 1 (length (gos σ)) P [] σ'.
Proof.
  intros input [Hpl Hoth (pc & Hp & Hu)]. unfold Open, bind, downloader_Download.
  destruct (Download _ (s3 σ)) as [[[buff n] [e0|]] b] eqn:Hd;
    cbv [io_Pipe wg_Add go act ret]; intros [= <- <- <-].
  apply Download_ok in Hd. simpl in Hd.
  change (Open_key s id) with (Create_key s id) in Hd.
  assert (buff = P) as ->.
  { unfold uploaded in Hu. simpl in Hu. rewrite Hd in Hu.
    destruct pc; try (by destruct Hu as [? _]); by destruct Hu as [?|[[= ->] _]]. }
  rewrite Hpl. split; [done|].
  pose proof (lookup_lt_Some _ _ _ Hp) as Hlt.
  split; proj.
  - intros g f Hne Hg. apply lookup_app_Some in Hg as [Hg|[Hge Hg]].
    + destruct g as [|g].
      * rewrite Hp in Hg. by injection Hg as <-.
      * specialize (Hoth (S g) f). destruct f; try done; exfalso; by apply Hoth.
    + destruct (g - length (gos σ)) as [|i] eqn:E; [lia|]. by destruct i.
  - exists Copy_enter. rewrite list_lookup_middle by done.
    split; [done|]. rewrite length_app, Hpl. split; [simpl; lia|].
    unfold pipe_at. proj. rewrite list_lookup_middle by done. done.
Qed.

(** The round trip hands back what was written. *)
Lemma roundtrip_safe s id chunks k n fuel (b0 : B) sched fastrand D σ' :
  stored b0 (bucket s) (Create_key s id) = None ->
  roundtrip Duration_String s id chunks k n fuel (boot b0 sched fastrand) = Some (Some D, σ') ->
  D = concat chunks.
Proof.
  intros Hst. unfold roundtrip. unfold bind at 1.
  destruct (Create s id _) as [[[[w|] e] σ1]|] eqn:H1; try done. cbn [fst].
  destruct (Create_writing _ _ _ _ _ _ _ _ Hst H1) as (Hw & Hwr1 & Hidle1).
  unfold bind at 1.
  destruct (WriteAll w chunks σ1) as [[[e2|] σ2]|] eqn:H2; try done.
  destruct (WriteAll_writing _ _ _ _ _ _ Hw Hwr1 Hidle1 H2) as [Hwr2 Hidle2].
  unfold bind at 1.
  destruct (s3WriteCloser_Close w σ2) as [[r3 σ3]|] eqn:H3; [|done].
  pose proof (Close_writing _ _ _ _ _ _ Hw Hwr2 Hidle2 H3) as Hwr3.
  unfold bind at 1.
  destruct (Gosched k σ3) as [[[] σ4]|] eqn:H4; [|done].
  pose proof (Gosched_writing _ _ _ _ _ _ Hwr3 H4) as Hwr4.
  unfold bind at 1.
  destruct (Open _ s id σ4) as [[[[r|] e5] σ5]|] eqn:H5; try done. cbn [fst].
  destruct (Open_reading _ _ _ _ _ _ _ Hwr4 H5) as [-> Hrd].
  unfold bind.
  destruct (ReadAll _ n fuel σ5) as [[[data [[]|]] σ6]|] eqn:H6; try done.
  cbn [fst snd]. intros [= <- <-].
  by apply (ReadAll_reading _ _ _ _ _ _ _ _ _ Hrd H6).
Qed.

End RoundTripProofs.

(** ** The round trip comes about *)

Section Live.

Context {B : Type} {api : S3API B}.
Variable Duration_String : Duration -> string.
Implicit Types (σ : World B).

Lemma await_ready {A} (ready : World B -> option A) l σ a :
  ready σ = Some a -> await ready l σ = Some (a, set_sched l σ).
Proof. intros H. destruct l; simpl; by rewrite H. Qed.

Lemma await_step {A} (ready : World B -> option A) x l σ :
  ready σ = None -> await ready (x :: l) σ = await ready l (bg x σ).
Proof. intros H. simpl. by rewrite H. Qed.

Lemma bg_Open_go g n pc w buff σ f' σ' :
  gos σ !! g = Some (Open_go pc w buff) ->
  Open_go_step pc w buff σ = Some (f', σ') ->
  bg (Run g n) σ = set_gos (<[g:=f']> (gos σ')) σ'.
Proof. intros Hg Hs. simpl. rewrite Hg. simpl. by rewrite Hs. Qed.

(** The three steps that end the copy once nothing is left to hand
    over: [io.Copy] returns, the deferred [w.Close()] runs. *)
Lemma copy_ends g q P pc σ :
  (pc = Copy_write \/ (pc = Copy_enter /\ P = [])) ->
  gos σ !! g = Some (Open_go pc q P) ->
  pipes σ !! q = Some (copying []) ->
  let σ1 := bg (Run g 0) σ in
  let σ2 := bg (Run g 0) σ1 in
  let σ3 := bg (Run g 0) σ2 in
  pipes σ1 !! q = Some (copying [])
  /\ pipes σ2 !! q = Some (copying [])
  /\ pipes σ3 !! q = Some (io.mkpipe None true None (Some io_EOF)).
Proof.
  intros Hpc Hg Hp σ1 σ2 σ3.
  pose proof (lookup_lt_Some _ _ _ Hg) as Hlt.
  assert (gos σ1 !! g = Some (Open_go (Copy_return None) q P)
          /\ pipes σ1 !! q = Some (copying [])) as [Hg1 Hp1].
  { subst σ1. destruct Hpc as [->|[-> ->]].
    - erewrite bg_Open_go; [|done|].
      2:{ cbv [Open_go_step bind try upd_pipe act ret pipe_at io.written]. rewrite Hp. simpl.
          reflexivity. }
      proj. rewrite list_lookup_insert_eq by done. rewrite list_lookup_alter_eq, Hp. done.
    - erewrite bg_Open_go; [|done|reflexivity].
      proj. by rewrite list_lookup_insert_eq. }
  pose proof (lookup_lt_Some _ _ _ Hg1) as Hlt1.
  assert (gos σ2 !! g = Some (Open_go Open_defer_Close q P)
          /\ pipes σ2 !! q = Some (copying [])) as [Hg2 Hp2].
  { subst σ2. erewrite bg_Open_go; [|done|reflexivity].
    proj. by rewrite list_lookup_insert_eq. }
  split; [done|]. split; [done|].
  subst σ3. erewrite bg_Open_go; [|done|reflexivity].
  proj. rewrite list_lookup_alter_eq, Hp2. done.
Qed.

(** The last [Read]: end-of-data. *)
Lemma Read_end g q P pc n l σ :
  (pc = Copy_write \/ (pc = Copy_enter /\ P = [])) ->
  gos σ !! g = Some (Open_go pc q P) ->
  pipes σ !! q = Some (copying []) ->
  sched σ = Run g 0 :: Run g 0 :: Run g 0 :: l ->
  exists σ', ReadCloser_Read (NopCloser q) n σ = Some (([], Some io_EOF), σ').
Proof.
  intros Hpc Hg Hp Hs.
  destruct (copy_ends _ _ _ _ _ Hpc Hg Hp) as (Hp1 & Hp2 & Hp3).
  cbv [ReadCloser_Read PipeReader_Read bind park]. rewrite Hs.
  rewrite await_step by (unfold pipe_at; by rewrite Hp).
  rewrite await_step by (unfold pipe_at; by rewrite Hp1).
  rewrite await_step by (unfold pipe_at; by rewrite Hp2).
  erewrite await_ready; [|unfold pipe_at; rewrite Hp3; reflexivity].
  eexists. reflexivity.
Qed.

(** The reads of what is left, up to end-of-data. *)
Lemma ReadAll_rest g q P n l fuel rest σ :
  0 < n ->
  length rest < fuel ->
  gos σ !! g = Some (Open_go Copy_write q P) ->
  pipes σ !! q = Some (copying rest) ->
  sched σ = Run g 0 :: Run g 0 :: Run g 0 :: l ->
  exists σ', ReadAll (NopCloser q) n fuel σ = Some ((rest, Some io_EOF), σ').
Proof.
  intros Hn. revert rest σ. induction fuel as [|fuel IH]; intros rest σ Hf Hg Hp Hs; [lia|].
  cbn [ReadAll]. unfold bind at 1.
  destruct rest as [|x rest].
  - destruct (Read_end g q P Copy_write n l σ) as (σ' & ->); auto.
    simpl. eauto.
  - assert (ReadCloser_Read (NopCloser q) n σ
            = Some ((take n (x :: rest), None),
                    set_pipes (alter (fun _ => copying (drop n (x :: rest))) q (pipes σ))
                      (set_sched (sched σ) σ))) as ->.
    { cbv [ReadCloser_Read PipeReader_Read bind park].
      erewrite await_ready; [|unfold pipe_at; rewrite Hp; reflexivity].
      reflexivity. }
    cbn [snd fst]. unfold bind.
    edestruct (IH (drop n (x :: rest))) as (σ' & ->).
    + rewrite length_drop. simpl in *. lia.
    + exact Hg.
    + proj. by rewrite list_lookup_alter_eq, Hp.
    + exact Hs.
    + cbn [fst snd]. rewrite take_drop. eauto.
Qed.

(** All the reads after [Open]: the copy starts, hands over [P], ends. *)
Lemma ReadAll_live g q P n l fuel σ :
  0 < n ->
  length P + 1 < fuel ->
  gos σ !! g = Some (Open_go Copy_enter q P) ->
  pipes σ !! q = Some io.Pipe ->
  sched σ = Run g 0 :: Run g 0 :: Run g 0 :: Run g 0 :: l ->
  exists σ', ReadAll (NopCloser q) n fuel σ = Some ((P, Some io_EOF), σ').
Proof.
  intros Hn Hf Hg Hp Hs.
  destruct fuel as [|fuel]; [lia|].
  destruct P as [|x P].
  - cbn [ReadAll]. unfold bind at 1.
    destruct (Read_end g q [] Copy_enter n (Run g 0 :: l) σ) as (σ' & ->); auto.
    simpl. eauto.
  - pose proof (lookup_lt_Some _ _ _ Hg) as Hlt.
    set (σ1 := bg (Run g 0) σ).
    assert (gos σ1 !! g = Some (Open_go Copy_write q (x :: P))
            /\ pipes σ1 !! q = Some (copying (x :: P))) as [Hg1 Hp1].
    { subst σ1. erewrite bg_Open_go; [|done|].
      2:{ cbv [Open_go_step bind upd_pipe act ret pipe_at]. rewrite Hp. reflexivity. }
      proj. rewrite list_lookup_insert_eq by done.
      by rewrite list_lookup_alter_eq, Hp. }
    cbn [ReadAll]. unfold bind at 1.
    assert (ReadCloser_Read (NopCloser q) n σ
            = Some ((take n (x :: P), None),
                    set_pipes (alter (fun _ => copying (drop n (x :: P))) q (pipes σ1))
                      (set_sched (Run g 0 :: Run g 0 :: Run g 0 :: l) σ1))) as ->.
    { cbv [ReadCloser_Read PipeReader_Read bind park]. rewrite Hs.
      rewrite await_step by (unfold pipe_at; by rewrite Hp).
      fold σ1.
      erewrite await_ready; [|unfold pipe_at; rewrite Hp1; reflexivity].
      reflexivity. }
    cbn [snd fst]. unfold bind.
    edestruct (ReadAll_rest g q (x :: P) n l fuel (drop n (x :: P))) as (σ' & ->).
    + done.
    + rewrite length_drop. simpl in *. lia.
    + exact Hg1.
    + proj. by rewrite list_lookup_alter_eq, Hp1.
    + reflexivity.
    + cbn [fst snd]. rewrite take_drop. eauto.
Qed.

End Live.

Section LiveMem.

Variable Duration_String : Duration -> string.

Lemma get_put (bucket key : string) (body : bytes) (b : gmap (string * string) bytes) :
  MemS3.get bucket key (MemS3.put bucket key body b) = Some body.
Proof. unfold MemS3.get, MemS3.put. apply lookup_insert_eq. Qed.

Ltac norm_in H :=
  cbv [bind ret act try emit upd_pipe wg_Done wg_Add s3_HeadObject downloader_Download
       time_After select2 flip close go make_chan io_Pipe park Gosched
       PipeWriter_Write PipeWriter_Close PipeReader_Read pipe_at
       set_s3 set_pipes set_chans set_timers set_wg set_gos set_log set_sched
       set_fastrand] in H;
  cbn -[take drop ReadAll await] in H;
  rewrite ?get_put in H.

Ltac wake_in H :=
  erewrite await_ready in H by (cbn; reflexivity).

Ltac wait_in H :=
  rewrite await_step in H by (cbn; reflexivity).

Ltac run_in H :=
  repeat (first [wake_in H | wait_in H]; do 2 norm_in H).

Lemma roundtrip_live_confirm (s : Store) (id : c4.ID) (P : bytes) (n : nat)
    (fastrand : nat -> bool) (b0 : gmap (string * string) bytes) (l : list label) :
  0 < n ->
  ConfirmCreate s = true ->
  MemS3.get (bucket s) (Create_key s id) b0 = None ->
  exists σ',
    roundtrip Duration_String s id [P] 0 n (length P + 2)
      (boot b0 (Run 0 0 :: Run 0 (length P) :: Run 0 0 :: Run 1 0 :: Run 1 0
                :: Run 2 0 :: Run 2 0 :: Run 2 0 :: Run 2 0 :: l) fastrand)
    = Some (Some P, σ').
Proof.
  intros Hn Hc Hb.
  assert (take (length P) P = P) as Htake by apply firstn_all.
  assert (drop (length P) P = []) as Hdrop by apply drop_all.
  assert (length P + 1 < length P + 2) as Hfuel by lia.
  remember (length P + 2) as fuel eqn:Hf. clear Hf.
  remember (length P) as m eqn:Hm.
  match goal with |- exists σ', ?lhs = _ => remember lhs as res eqn:H end.
  unfold roundtrip, boot in H.
  unfold bind at 1, Create, bind at 1, s3_HeadObject in H.
  cbn [s3 HeadObject MemS3.api HeadObjectInput_Bucket HeadObjectInput_Key] in H.
  rewrite Hb, Hc in H.
  do 2 norm_in H.
  repeat (first [wake_in H | wait_in H]; do 2 norm_in H; rewrite ?Htake, ?Hdrop in H).
  unfold Open in H. do 3 norm_in H.
  match type of H with context [ReadAll _ n fuel ?σ] =>
    assert (exists σ', ReadAll (NopCloser 1) n fuel σ = Some ((P, Some io_EOF), σ'))
      as [σ' Hr]
      by (eapply ReadAll_live with (g := 2) (l := l);
          [exact Hn | rewrite <- Hm; exact Hfuel | reflexivity..])
  end.
  rewrite Hr in H. cbn in H. eauto.
Qed.

Lemma roundtrip_live_plain (s : Store) (id : c4.ID) (P : bytes) (n : nat)
    (fastrand : nat -> bool) (b0 : gmap (string * string) bytes) (l : list label) :
  0 < n ->
  ConfirmCreate s = false ->
  MemS3.get (bucket s) (Create_key s id) b0 = None ->
  exists σ',
    roundtrip Duration_String s id [P] 1 n (length P + 2)
      (boot b0 (Run 0 0 :: Run 0 (length P) :: Run 0 0
                :: Run 1 0 :: Run 1 0 :: Run 1 0 :: Run 1 0 :: l) fastrand)
    = Some (Some P, σ').
Proof.
  intros Hn Hc Hb.
  assert (take (length P) P = P) as Htake by apply firstn_all.
  assert (drop (length P) P = []) as Hdrop by apply drop_all.
  assert (length P + 1 < length P + 2) as Hfuel by lia.
  remember (length P + 2) as fuel eqn:Hf. clear Hf.
  remember (length P) as m eqn:Hm.
  match goal with |- exists σ', ?lhs = _ => remember lhs as res eqn:H end.
  unfold roundtrip, boot in H.
  unfold bind at 1, Create, bind at 1, s3_HeadObject in H.
  cbn [s3 HeadObject MemS3.api HeadObjectInput_Bucket HeadObjectInput_Key] in H.
  rewrite Hb, Hc in H.
  do 2 norm_in H.
  repeat (first [wake_in H | wait_in H]; do 2 norm_in H; rewrite ?Htake, ?Hdrop in H).
  unfold Open in H. do 3 norm_in H.
  match type of H with context [ReadAll _ n fuel ?σ] =>
    assert (exists σ', ReadAll (NopCloser 1) n fuel σ = Some ((P, Some io_EOF), σ'))
      as [σ' Hr]
      by (eapply ReadAll_live with (g := 1) (l := l);
          [exact Hn | rewrite <- Hm; exact Hfuel | reflexivity..])
  end.
  rewrite Hr in H. cbn in H. eauto.
Qed.

End LiveMem.

(** ** The round trip *)

Lemma MemS3_HeadObject_stored (input : HeadObjectInput) (b : MemS3.state)
    (bucket key : string) :
  MemS3.get bucket key (snd (HeadObject input b)) = MemS3.get bucket key b.
Proof. cbn. by destruct (MemS3.get _ _ b). Qed.

Lemma MemS3_Download_stored (input : GetObjectInput) (b : MemS3.state)
    (bucket key : string) :
  MemS3.get bucket key (snd (Download input b)) = MemS3.get bucket key b.
Proof. cbn. by destruct (MemS3.get _ _ b). Qed.

Lemma MemS3_Download_ok (input : GetObjectInput) (b : MemS3.state) (buff : bytes)
    (n : Z) (b' : MemS3.state) :
  Download input b = (buff, n, None, b') ->
  MemS3.get (GetObjectInput_Bucket input) (GetObjectInput_Key input) b = Some buff.
Proof. cbn. destruct (MemS3.get _ _ b); intros [= <- _ _]; done. Qed.

Lemma MemS3_Upload_ok (input : UploadInput) (body : bytes) (b b' : MemS3.state) :
  Upload input body b = (None, b') ->
  MemS3.get (UploadInput_Bucket input) (UploadInput_Key input) b' = Some body.
Proof. cbn. intros [= <-]. apply get_put. Qed.

Lemma MemS3_Upload_err (input : UploadInput) (body : bytes) (b : MemS3.state)
    (e : error) (b' : MemS3.state) (bucket key : string) :
  Upload input body b = (Some e, b') ->
  MemS3.get bucket key b' = MemS3.get bucket key b.
Proof. cbn. intros [=]. Qed.

(** The in-memory backend is an object store. *)
#[global] Instance MemS3_ObjectStore : ObjectStore MemS3.state := {|
  stored b bucket key := MemS3.get bucket key b;
  HeadObject_stored := MemS3_HeadObject_stored;
  Download_stored := MemS3_Download_stored;
  Download_ok := MemS3_Download_ok;
  Upload_ok := MemS3_Upload_ok;
  Upload_err := MemS3_Upload_err;
|}.

(** C1. Round trip.  On whatever backend is an object store, from a
    start in which nothing is stored at the key of the identifier:
    when [Create], the writes of a payload in any number of chunks,
    [Close] (whatever it returns), [Open] and reads into a buffer of
    any size up to end-of-data all come about, under any schedule,
    the bytes read are exactly the bytes written.  And on the
    in-memory backend they do come about: for every payload, the
    empty one included, and every buffer size from one byte up,
    smaller than the payload included, there is a schedule under
    which the round trip returns the payload. *)
Theorem round_trip :
  (forall (B : Type) (api : S3API B) (store : ObjectStore B)
          (Duration_String : Duration -> string)
          (s : Store) (id : c4.ID) (chunks : list bytes) (k n fuel : nat)
          (b0 : B) (sched : list label) (fastrand : nat -> bool)
          (D : bytes) (σ' : World B),
     stored b0 (bucket s) (Create_key s id) = None ->
     roundtrip Duration_String s id chunks k n fuel (boot b0 sched fastrand)
     = Some (Some D, σ') ->
     D = concat chunks)
  /\ (forall (Duration_String : Duration -> string)
             (s : Store) (id : c4.ID) (P : bytes) (n : nat)
             (b0 : MemS3.state) (fastrand : nat -> bool),
        0 < n ->
        MemS3.get (bucket s) (Create_key s id) b0 = None ->
        exists (sched : list label) (k fuel : nat) (σ' : World MemS3.state),
          roundtrip Duration_String s id [P] k n fuel (boot b0 sched fastrand)
          = Some (Some P, σ')).
Proof.
  split.
  - intros B api store Duration_String s id chunks k n fuel b0 sched fastrand D σ'.
    apply roundtrip_safe.
  - intros Duration_String s id P n b0 fastrand Hn Hb.
    destruct (ConfirmCreate s) eqn:Hc.
    + destruct (roundtrip_live_confirm Duration_String s id P n fastrand b0 [] Hn Hc Hb)
        as [σ' H].
      by eexists _, 0, _, σ'.
    + destruct (roundtrip_live_plain Duration_String s id P n fastrand b0 [] Hn Hc Hb)
        as [σ' H].
      by eexists _, 1, _, σ'.
Qed.

(** ** The earlier revision *)

(** In [s3c4.go], a [Close] whose writer closed without error returns
    [nil] however the [select] came out, after a timeout too. *)
Lemma Legacy_Close_returns_nil {B : Type} {api : S3API B} (w : s3WriteCloser)
    (σ σ0 : World B) (r : option error) (w1 : s3WriteCloser) (σ' : World B) :
  closed w = false ->
  io_WriteCloser_Close (wc_w w) σ = Some (None, σ0) ->
  Legacy.s3WriteCloser_Close w σ = Some ((r, w1), σ') ->
  r = None.
Proof.
  intros Hc Hw. unfold Legacy.s3WriteCloser_Close. rewrite Hc.
  unfold bind at 1. cbn [set_closed wc_w]. rewrite Hw.
  unfold bind, ret.
  repeat match goal with
         | |- context [match ?x with Some _ => _ | None => _ end] =>
             destruct x as [[? ?]|]; [|done]
         end.
  by intros [= <- _ _].
Qed.

(** ** The properties at a concrete program *)

Module Witness.
Import Example.

Lemma round_trip_witness :
  (exists (sched : list label) (k fuel : nat) (σ' : World MemS3.state),
     roundtrip Duration_String (store true) id [foobar] k 4 fuel (boot empty sched fastrand)
     = Some (Some foobar, σ'))
  /\ (exists (sched : list label) (k fuel : nat) (σ' : World MemS3.state),
        roundtrip Duration_String (store false) id [[]] k 1 fuel (boot empty sched fastrand)
        = Some (Some [], σ'))
  /\ (forall (sched : list label) (k n fuel : nat) (D : bytes) (σ' : World MemS3.state),
        roundtrip Duration_String (store true) id [take 3 foobar; drop 3 foobar] k n fuel
          (boot empty sched fastrand)
        = Some (Some D, σ') ->
        D = foobar).
Proof.
  split; [|split].
  - apply (proj2 round_trip); [lia | reflexivity].
  - apply (proj2 round_trip); [lia | reflexivity].
  - intros sched k n fuel D σ' H.
    apply (proj1 round_trip _ _ MemS3_ObjectStore) in H; [exact H | reflexivity].
Defined.

Lemma Create_of_an_existing_key_witness :
  exists σ',
    Create (store true) id (boot full [] fastrand)
    = Some ((None, Some (PathError "create" (Create_key (store true) id) os_ErrExist)), σ')
    /\ gos σ' = [] /\ wg σ' = 0%Z /\ pipes σ' = []
    /\ log σ' = [HeadObject_call caller (headInput (handle true)) None]
    /\ sched σ' = [].
Proof.
  apply (Create_of_an_existing_key (store true) id (boot full [] fastrand)).
  vm_compute. reflexivity.
Defined.

Lemma Open_of_a_failed_download_witness :
  exists (msg : string) σ',
    Open Duration_String (store true) id (boot empty [] fastrand)
    = Some ((None, Some (errorString msg)), σ')
    /\ msg = Open_key (store true) id +:+ " " +:+ Error Duration_String MemS3.NoSuchKey
                 +:+ " (n == " +:+ itoa 0 +:+ ")"
    /\ includes (Open_key (store true) id) msg
    /\ includes (Error Duration_String MemS3.NoSuchKey) msg
    /\ includes (itoa 0) msg
    /\ gos σ' = [] /\ wg σ' = 0%Z /\ pipes σ' = []
    /\ log σ' = [Download_call caller
                   {| GetObjectInput_Bucket := "bucket";
                      GetObjectInput_Key := Open_key (store true) id |}
                   0 (Some MemS3.NoSuchKey)].
Proof.
  apply (Open_of_a_failed_download Duration_String (store true) id
           (boot empty [] fastrand) [] 0%Z MemS3.NoSuchKey empty).
  vm_compute. reflexivity.
Defined.

Lemma second_Close_is_rejected_witness :
  s3WriteCloser_Close (set_closed true (handle true))
    (after_Close (handle true) (after_Create true [Fire 0]))
  = Some ((Some (errorString "already closed"), set_closed true (handle true)),
          after_Close (handle true) (after_Create true [Fire 0])).
Proof.
  apply (second_Close_is_rejected (handle true) (after_Create true [Fire 0])
           (Some (ErrConfirmationTimeout id (Second * 5)%Z))).
  vm_compute. reflexivity.
Defined.

Lemma Close_without_confirmation_witness :
  s3WriteCloser_Close (handle false) (after_Create false [])
  = Some ((None, set_closed true (handle false)),
          after_writer_Close (handle false) (after_Create false []))
  /\ log (after_writer_Close (handle false) (after_Create false []))
     = log (after_Create false [])
  /\ s3 (after_writer_Close (handle false) (after_Create false []))
     = s3 (after_Create false [])
  /\ gos (after_writer_Close (handle false) (after_Create false []))
     = gos (after_Create false [])
  /\ chans (after_writer_Close (handle false) (after_Create false []))
     = chans (after_Create false [])
  /\ timers (after_writer_Close (handle false) (after_Create false []))
     = timers (after_Create false [])
  /\ sched (after_writer_Close (handle false) (after_Create false []))
     = sched (after_Create false []).
Proof.
  apply (Close_without_confirmation (handle false) (after_Create false [])).
  - reflexivity.
  - reflexivity.
  - vm_compute. reflexivity.
Defined.

Lemma failed_Close_is_not_retryable_witness :
  s3WriteCloser_Close broken (boot empty [] fastrand)
  = Some ((Some (errorString "close failed"), set_closed true broken),
          boot empty [] fastrand)
  /\ closed (set_closed true broken) = true
  /\ (log (boot empty [] fastrand) = log (boot empty [] fastrand)
      /\ gos (boot empty [] fastrand) = gos (boot empty [] fastrand)
      /\ chans (boot empty [] fastrand) = chans (boot empty [] fastrand)
      /\ timers (boot empty [] fastrand) = timers (boot empty [] fastrand))
  /\ forall σ' : World MemS3.state,
      s3WriteCloser_Close (set_closed true broken) σ'
      = Some ((Some (errorString "already closed"), set_closed true broken), σ').
Proof.
  apply (failed_Close_is_not_retryable broken (boot empty [] fastrand)
           (errorString "close failed") (boot empty [] fastrand)).
  - reflexivity.
  - reflexivity.
Defined.

Lemma after_Create_reachable (confirm : bool) (sched : list label) :
  Create (store confirm) id (boot empty sched fastrand)
  = Some ((Some (handle confirm), None), after_Create confirm sched)
  /\ reachable Duration_String (after_Create confirm sched).
Proof.
  assert (Create (store confirm) id (boot empty sched fastrand)
          = Some ((Some (handle confirm), None), after_Create confirm sched)) as H.
  { unfold after_Create. destruct confirm; reflexivity. }
  split; [exact H|].
  apply (reachable_call _ (call_Create (store confirm) id) (boot empty sched fastrand)).
  - apply reachable_boot.
  - cbn [exec]. unfold bind. rewrite H. reflexivity.
Qed.

Lemma closed_handle_reachable :
  reachable Duration_String closed_handle.
Proof.
  apply (reachable_call _ (call_Close (handle false)) (after_Create false upload)).
  - apply after_Create_reachable.
  - vm_compute. reflexivity.
Qed.

Lemma Store_Close_closed_handle :
  Store_Close (store false) closed_handle = Some (None, closed_store).
Proof.
  assert (fst <$> Store_Close (store false) closed_handle = Some None) as H
    by (vm_compute; reflexivity).
  unfold closed_store, after_Store_Close.
  destruct (Store_Close (store false) closed_handle) as [[r σ']|]; [|discriminate].
  injection H as ->. reflexivity.
Qed.

Lemma closed_store_reachable :
  reachable Duration_String closed_store.
Proof.
  apply (reachable_call _ (call_Store_Close (store false)) closed_handle).
  - apply closed_handle_reachable.
  - cbn [exec]. unfold bind. rewrite Store_Close_closed_handle. reflexivity.
Qed.

Lemma Store_Close_waits_for_the_transfers_witness :
  ((forall r σ',
      Store_Close (store false) closed_handle = Some (r, σ') ->
      r = None
      /\ wg σ' = 0%Z
      /\ (forall g f, gos σ' !! g = Some f -> in_flight f = false)
      /\ (forall g f, gos closed_handle !! g = Some f ->
            exists f', gos σ' !! g = Some f' /\ same_code f f' /\ in_flight f' = false))
   /\ (live (gos closed_handle) = 0 ->
       exists σ', Store_Close (store false) closed_handle = Some (None, σ')
                  /\ gos σ' = gos closed_handle
                  /\ log σ' = log closed_handle
                  /\ sched σ' = sched closed_handle))
  /\ live (gos closed_handle) = 1
  /\ Store_Close (store false) closed_handle = Some (None, closed_store)
  /\ live (gos closed_store) = 0.
Proof.
  split.
  - apply (Store_Close_waits_for_the_transfers Duration_String (store false) closed_handle).
    apply closed_handle_reachable.
  - split; [vm_compute; reflexivity|].
    split; [apply Store_Close_closed_handle|].
    vm_compute. reflexivity.
Defined.

Lemma one_transfer_per_Create_and_Open_witness :
  ((forall s id w e σ',
      Create s id closed_store = Some ((Some w, e), σ') ->
      wc_w w = PipeWriter (length (pipes closed_store))
      /\ HeadObjectInput_Key (headInput w) = Create_key s id
      /\ gos σ' = gos closed_store
                  ++ [Create_go Upload_enter
                        {| UploadInput_Bucket := bucket s;
                           UploadInput_Key := Create_key s id |}
                        (length (pipes closed_store))]
      /\ count is_transfer (log σ') = count is_transfer (log closed_store)
      /\ uploads_by (length (gos closed_store)) (log σ') = 0)
   /\ (forall g, uploads_by g (log closed_store)
                 = if uploading (gos closed_store !! g) then 1 else 0)
   /\ (forall who input r, Upload_call who input r ∈ log closed_store ->
         exists g pc, who = goroutine_id g
                      /\ gos closed_store !! g = Some (Create_go pc input r))
   /\ (forall s id r e σ',
         Open Duration_String s id closed_store = Some ((Some r, e), σ') ->
         exists buff n,
           log σ' = log closed_store
                    ++ [Download_call caller
                          {| GetObjectInput_Bucket := bucket s;
                             GetObjectInput_Key := Open_key s id |} n None]
           /\ count is_transfer (log σ') = count is_transfer (log closed_store) + 1
           /\ gos σ' = gos closed_store
                       ++ [Open_go Copy_enter (length (pipes closed_store)) buff])
   /\ count (fun e => is_download e && negb (by_caller e)) (log closed_store) = 0
   /\ count (fun e => is_upload e && by_caller e) (log closed_store) = 0
   /\ (forall c σ', exec Duration_String c closed_store = Some (tt, σ') ->
         caller_transfers (log σ') <= caller_transfers (log closed_store) + 1))
  /\ uploads_by 0 (log closed_store) = 1
  /\ count is_transfer (log closed_store) = 1
  /\ fst <$> Open Duration_String (store false) id closed_store
     = Some (Some (NopCloser 1), None).
Proof.
  split.
  - apply (one_transfer_per_Create_and_Open Duration_String closed_store).
    apply closed_store_reachable.
  - repeat split; vm_compute; reflexivity.
Defined.


End Witness.
(** * Further properties *)

(** ** What the calls return *)

Section Calls.

Context {B : Type} {api : S3API B}.
Implicit Types (σ : World B) (w : s3WriteCloser) (s : Store) (id : c4.ID).

Lemma Create_handle s id σ (e : error) (b : B) :
  let key := Create_key s id in
  let headInput := {| HeadObjectInput_Bucket := bucket s; HeadObjectInput_Key := key |} in
  HeadObject headInput (s3 σ) = (Some e, b) ->
  exists σ',
    Create s id σ
    = Some ((Some (mks3WriteCloser (ConfirmCreate s) (ConfirmationTimeout s)
                     (ConfirmationRequestRate s) id (PipeWriter (length (pipes σ)))
                     false headInput),
             None), σ')
    /\ s3 σ' = b
    /\ pipes σ' = pipes σ ++ [io.Pipe]
    /\ wg σ' = (wg σ + 1)%Z
    /\ gos σ' = gos σ ++ [Create_go Upload_enter
                            {| UploadInput_Bucket := bucket s; UploadInput_Key := key |}
                            (length (pipes σ))]
    /\ log σ' = log σ ++ [HeadObject_call caller headInput (Some e)]
    /\ chans σ' = chans σ /\ timers σ' = timers σ /\ sched σ' = sched σ.
Proof.
  intros key headInput H. unfold Create, bind, s3_HeadObject.
  fold key. fold headInput. rewrite H.
  cbv [io_Pipe wg_Add go act ret]. proj.
  eexists. split; [reflexivity|]. proj. done.
Qed.

(** Whatever error [HeadObject] returns, [Create] takes the key for
    free: it returns a handle that is open and carries the
    confirmation settings of the store as they are now, on a new pipe,
    with one more transfer registered and its goroutine about to call
    [Upload]; nothing has been uploaded yet. *)
Theorem Create_when_HeadObject_fails s id σ e b :
  let key := Create_key s id in
  let headInput := {| HeadObjectInput_Bucket := bucket s; HeadObjectInput_Key := key |} in
  HeadObject headInput (s3 σ) = (Some e, b) ->
  exists σ',
    Create s id σ
    = Some ((Some (mks3WriteCloser (ConfirmCreate s) (ConfirmationTimeout s)
                     (ConfirmationRequestRate s) id (PipeWriter (length (pipes σ)))
                     false headInput),
             None), σ')
    /\ s3 σ' = b
    /\ pipes σ' = pipes σ ++ [io.Pipe]
    /\ wg σ' = (wg σ + 1)%Z
    /\ gos σ' = gos σ ++ [Create_go Upload_enter
                            {| UploadInput_Bucket := bucket s; UploadInput_Key := key |}
                            (length (pipes σ))]
    /\ log σ' = log σ ++ [HeadObject_call caller headInput (Some e)]
    /\ chans σ' = chans σ /\ timers σ' = timers σ /\ sched σ' = sched σ.
Proof. apply Create_handle. Qed.

(** [Store.Close] can be called again. *)
Theorem Store_Close_again s s' σ r σ' :
  Store_Close s σ = Some (r, σ') ->
  Store_Close s' σ' = Some (None, σ').
Proof.
  unfold Store_Close, bind, wg_Wait, park.
  destruct (await _ (sched σ) σ) as [[[] σ1]|] eqn:Hp; [|done]. intros [= <- <-].
  eapply (await_inv (fun _ => True)) in Hp as (σ2 & l' & _ & Hz & ->); [|done|done].
  proj. rewrite await_ready with (a := tt); [|proj; done].
  reflexivity.
Qed.

End Calls.

(** ** The write end *)

Section Pipes.

Context {B : Type} {api : S3API B}.
Implicit Types (σ : World B) (w : s3WriteCloser) (s : Store) (id : c4.ID).

Lemma pipe_at_alter (f : io.pipe -> io.pipe) q r σ σ' :
  pipes σ' = alter f r (pipes σ) ->
  pipe_at σ' q = pipe_at σ q
  \/ (q = r /\ q < length (pipes σ) /\ pipe_at σ' q = f (pipe_at σ q)).
Proof.
  intros H. unfold pipe_at. rewrite H.
  destruct (decide (r = q)) as [->|Hne].
  - rewrite list_lookup_alter_eq.
    destruct (pipes σ !! q) eqn:E; [|by left].
    right. split; [done|]. split; [by eapply lookup_lt_Some|done].
  - left. by rewrite list_lookup_alter_ne.
Qed.

Lemma moves_write_closed g n f σ f' σ' q :
  moves g n f σ f' σ' ->
  write_closed (pipe_at σ q) -> write_closed (pipe_at σ' q).
Proof.
  intros Hm Hq.
  assert (forall (h : io.pipe -> io.pipe) r σ1,
            pipes σ1 = alter h r (pipes σ) ->
            (write_closed (pipe_at σ r) -> write_closed (h (pipe_at σ r))) ->
            write_closed (pipe_at σ1 q)) as Halt.
  { intros h r σ1 Hp Hh.
    destruct (pipe_at_alter h q r σ σ1 Hp) as [->|(-> & _ & ->)]; auto. }
  destruct Hm;
    try (by apply (pipe_at_same q) with (σ := σ) in Hq; [|reflexivity]);
    try exact Hq.
  all: try (eapply Halt; [reflexivity|]; clear Halt Hq;
            intros [Hd He]; split; simpl; try done).
  - by apply read_data in H as (Hnd & _); rewrite Hnd in Hd.
  - apply read_data in H as (Hnd & _). by rewrite Hnd in Hd.
  - by apply read_error in H as (_ & -> & _).
  - by apply read_error in H as (_ & -> & _).
  - by apply read_error in H as (_ & -> & _).
  - by apply read_error in H as (_ & -> & _).
  - destruct (io.werr _); done.
Qed.

Lemma bg_write_closed x σ q :
  write_closed (pipe_at σ q) -> write_closed (pipe_at (bg x σ) q).
Proof.
  intros Hq.
  destruct (bg_cases x σ) as [->|[(g & n & f & f' & σ' & -> & Hg & Hm & ->)
                                |[(t & -> & ->)|(g & e & body & input & r & -> & Hg & ->)]]];
    try done.
  change (write_closed (pipe_at σ' q)). by eapply moves_write_closed.
Qed.

(** Once its [Close] has returned, whatever it returned, a handle
    refuses every [Write]: nothing is written, the call does not
    block, and the error is [io.ErrClosedPipe]. *)
Theorem Write_after_Close w p σ r w1 σ1 (b : bytes) :
  closed w = false ->
  wc_w w = PipeWriter p ->
  p < length (pipes σ) ->
  s3WriteCloser_Close w σ = Some ((r, w1), σ1) ->
  s3WriteCloser_Write w1 b σ1 = Some ((0%Z, Some io_ErrClosedPipe), σ1).
Proof.
  intros Hc Hw Hp H.
  assert (wc_w w1 = PipeWriter p /\ write_closed (pipe_at σ1 p)) as [Hw1 [Hd He]].
  { revert H. unfold s3WriteCloser_Close. rewrite Hc.
    unfold bind at 1. cbn [set_closed wc_w]. rewrite Hw.
    cbv [io_WriteCloser_Close PipeWriter_Close bind upd_pipe act ret].
    set (σ0 := set_pipes _ σ).
    assert (write_closed (pipe_at σ0 p)) as H0.
    { erewrite pipe_at_alter_eq; [|reflexivity|done].
      split; simpl; [done|]. by destruct (io.werr _). }
    destruct (negb _); [by intros [= <- <- <-]|].
    cbv [make_chan go act time_After select2 close flip bind ret].
    match goal with |- context [park ?r ?s] => destruct (park r s) as [[x σ3]|] eqn:Hpk end;
      [|done].
    unfold park in Hpk.
    eapply (await_inv (fun σ => write_closed (pipe_at σ p))) in Hpk
      as (σ4 & l' & H4 & _ & ->); [|by intros; apply bg_write_closed|exact H0].
    destruct x as [[]|]; [| |destruct (fastrand _ 0)]; intros [= <- <- <-]; done. }
  unfold s3WriteCloser_Write. rewrite Hw1. cbn [io_WriteCloser_Write].
  unfold PipeWriter_Write. rewrite Hd.
  unfold io.writeCloseError. destruct (io.werr (pipe_at σ1 p)); done.
Qed.



End Pipes.

(** ** Removal, and the check of [Create] *)

Section Removal.

Variable Duration_String : Duration -> string.
Implicit Types (σ : World MemS3.state) (s : Store) (id : c4.ID).

Lemma keys_agree s id :
  Remove_path s id = Create_key s id /\ Open_key s id = Create_key s id.
Proof.
  unfold Remove_path, Create_key, Open_key.
  destruct (prefix s) as [|a pre] eqn:E; cbn [String.length Nat.ltb Nat.leb].
  - by rewrite (Join_empty_prefix _ (c4.String_canonical id)).
  - done.
Qed.

Lemma get_del (bucket key : string) (b : MemS3.state) :
  MemS3.get bucket key (MemS3.del bucket key b) = None.
Proof. unfold MemS3.get, MemS3.del. apply lookup_delete_eq. Qed.

Lemma get_del_ne (bucket key bucket' key' : string) (b : MemS3.state) :
  (bucket', key') <> (bucket, key) ->
  MemS3.get bucket' key' (MemS3.del bucket key b) = MemS3.get bucket' key' b.
Proof. intros H. unfold MemS3.get, MemS3.del. by apply lookup_delete_ne. Qed.

(** On the in-memory backend, in whatever state: [Remove] returns
    [nil], having issued one [DeleteObject] for the key of the
    identifier and nothing else; the object is gone and every other
    object is as it was; an [Open] of the identifier that follows
    fails with the backend's no-such-key error, and a [Create] that
    follows returns a handle. *)
Theorem Remove_then_Open_and_Create s id σ :
  exists σ1,
    Remove s id σ = Some (None, σ1)
    /\ log σ1 = log σ ++ [DeleteObject_call caller
                            {| DeleteObjectInput_Bucket := bucket s;
                               DeleteObjectInput_Key := Create_key s id |} None]
    /\ gos σ1 = gos σ /\ wg σ1 = wg σ /\ pipes σ1 = pipes σ /\ sched σ1 = sched σ
    /\ MemS3.get (bucket s) (Create_key s id) (s3 σ1) = None
    /\ (forall bucket' key',
          (bucket', key') <> (bucket s, Create_key s id) ->
          MemS3.get bucket' key' (s3 σ1) = MemS3.get bucket' key' (s3 σ))
    /\ (exists σ2,
          Open Duration_String s id σ1
          = Some ((None,
                   Some (errorString
                           (Open_key s id +:+ " " +:+ Error Duration_String MemS3.NoSuchKey
                            +:+ " (n == " +:+ itoa 0 +:+ ")"))), σ2))
    /\ (exists w σ2, Create s id σ1 = Some ((Some w, None), σ2)).
Proof.
  destruct (keys_agree s id) as [Hr Ho].
  unfold Remove, s3_DeleteObject. rewrite Hr. cbn [DeleteObject MemS3.api
    DeleteObjectInput_Bucket DeleteObjectInput_Key].
  eexists. split; [reflexivity|]. proj.
  repeat (split; [done|]).
  split; [apply get_del|].
  split; [intros; by apply get_del_ne|].
  split.
  - unfold Open, bind, downloader_Download. rewrite Ho.
    cbn [Download MemS3.api GetObjectInput_Bucket GetObjectInput_Key]. proj.
    rewrite get_del. eexists. reflexivity.
  - unfold Create, bind, s3_HeadObject.
    cbn [HeadObject MemS3.api HeadObjectInput_Bucket HeadObjectInput_Key]. proj.
    rewrite get_del. cbv [io_Pipe wg_Add go act ret]. eauto.
Qed.

(** The check of [Create] does not keep a second writer out: on the
    in-memory backend, while nothing is stored at the key, every
    [Create] of an identifier returns a handle, also when an earlier
    one is still open; the two handles have pipes of their own and
    their goroutines upload to the same key. *)
Theorem Create_is_not_exclusive s id σ :
  MemS3.get (bucket s) (Create_key s id) (s3 σ) = None ->
  exists w1 σ1 w2 σ2,
    Create s id σ = Some ((Some w1, None), σ1)
    /\ Create s id σ1 = Some ((Some w2, None), σ2)
    /\ wc_w w1 = PipeWriter (length (pipes σ))
    /\ wc_w w2 = PipeWriter (S (length (pipes σ)))
    /\ gos σ2 = gos σ
                ++ [Create_go Upload_enter
                      {| UploadInput_Bucket := bucket s; UploadInput_Key := Create_key s id |}
                      (length (pipes σ));
                    Create_go Upload_enter
                      {| UploadInput_Bucket := bucket s; UploadInput_Key := Create_key s id |}
                      (S (length (pipes σ)))]
    /\ wg σ2 = (wg σ + 2)%Z
    /\ s3 σ2 = s3 σ.
Proof.
  intros Hb.
  assert (forall σ0, s3 σ0 = s3 σ ->
            HeadObject {| HeadObjectInput_Bucket := bucket s;
                          HeadObjectInput_Key := Create_key s id |} (s3 σ0)
            = (Some MemS3.NotFound, s3 σ)) as Hh.
  { intros σ0 ->. cbn [HeadObject MemS3.api HeadObjectInput_Bucket HeadObjectInput_Key].
    by rewrite Hb. }
  destruct (Create_handle s id σ _ _ (Hh σ eq_refl))
    as (σ1 & H1 & Hs1 & Hp1 & Hw1 & Hg1 & _).
  destruct (Create_handle s id σ1 _ _ (Hh σ1 Hs1))
    as (σ2 & H2 & Hs2 & Hp2 & Hw2 & Hg2 & _).
  eexists _, σ1, _, σ2. split; [exact H1|]. split; [exact H2|].
  cbn [wc_w]. rewrite Hg2, Hg1, Hw2, Hw1, Hp1, length_app, <- app_assoc. simpl.
  repeat split; try done; try (repeat f_equal; lia). lia.
Qed.

End Removal.

(** ** Transfers that cannot end *)

Section Bounded.

Context {B : Type} {api : S3API B}.
Implicit Types (σ : World B) (w : s3WriteCloser) (s : Store) (id : c4.ID).

Lemma same_code_pipe_of f f' : same_code f f' -> pipe_of f' = pipe_of f.
Proof. destruct f, f'; simpl; intuition congruence. Qed.

Lemma bounded_frame σ σ' :
  gos σ' = gos σ -> length (pipes σ') = length (pipes σ) -> bounded σ -> bounded σ'.
Proof. intros Hg Hp Hb g f p. rewrite Hg, Hp. apply Hb. Qed.

Lemma bounded_insert σ σ' g f f' :
  gos σ !! g = Some f -> same_code f f' ->
  gos σ' = <[g:=f']> (gos σ) -> length (pipes σ') = length (pipes σ) ->
  bounded σ -> bounded σ'.
Proof.
  intros Hg Hsc Hg' Hp Hb g0 f0 p. rewrite Hg', Hp. intros H0 Hf0.
  apply lookup_insert_cases in H0 as [(<- & <- & _)|[_ H0]].
  - apply (Hb g f); [done|]. by rewrite <- (same_code_pipe_of f f').
  - by apply (Hb g0 f0).
Qed.

Lemma bounded_bg x σ : bounded σ -> bounded (bg x σ).
Proof.
  intros Hb.
  destruct (bg_cases x σ) as [->|[(g & n & f & f' & σ' & -> & Hg & Hm & ->)
                                |[(t & -> & ->)|(g & e & body & input & r & -> & Hg & ->)]]];
    try done.
  - eapply (bounded_insert σ _ g f f'); [done|by eapply moves_same_code| | |done].
    + proj. reflexivity.
    + proj. by eapply moves_pipes_length.
  - eapply (bounded_insert σ _ g); [exact Hg| |reflexivity|reflexivity|done]. done.
Qed.

Lemma bounded_go f σ σ' :
  gos σ' = gos σ ++ [f] ->
  length (pipes σ) <= length (pipes σ') ->
  (forall p, pipe_of f = Some p -> p < length (pipes σ')) ->
  bounded σ -> bounded σ'.
Proof.
  intros Hg Hp Hf Hb g f0 p. rewrite Hg. intros H0 Hf0.
  apply lookup_app_Some in H0 as [H0|[_ H0]].
  - specialize (Hb _ _ _ H0 Hf0). lia.
  - destruct (g - length (gos σ)) as [|i]; simplify_eq/=. by apply Hf.
Qed.

Lemma offering_frame σ σ' : gos σ' = gos σ -> offering σ -> offering σ'.
Proof. intros Hg Ho g w buff. rewrite Hg. apply Ho. Qed.

Lemma offering_bg x σ : offering σ -> offering (bg x σ).
Proof.
  intros Ho.
  destruct (bg_cases x σ) as [->|[(g & n & f & f' & σ' & -> & Hg & Hm & ->)
                                |[(t & -> & ->)|(g & e & body & input & r & -> & Hg & ->)]]];
    try done.
  - intros g0 w buff. proj. intros H0.
    apply lookup_insert_cases in H0 as [(<- & -> & _)|[_ H0]]; [|by eapply Ho].
    by inversion Hm; subst.
  - intros g0 w buff. proj. intros H0.
    apply lookup_insert_cases in H0 as [(<- & ? & _)|[_ H0]]; [done|by eapply Ho].
Qed.

Lemma offering_go f σ σ' :
  started f -> gos σ' = gos σ ++ [f] -> offering σ -> offering σ'.
Proof.
  intros Hf Hg Ho g w buff. rewrite Hg. intros H0.
  apply lookup_app_Some in H0 as [H0|[_ H0]]; [by eapply Ho|].
  destruct (g - length (gos σ)) as [|i]; simplify_eq/=. done.
Qed.

(** ** Properties of the goroutines and the number of pipes *)

Section Shape.

(** A property that only looks at the goroutines and at how many
    pipes there are, that the moves of the goroutines keep, and that a
    goroutine started on a pipe that exists keeps. *)
Variable I : World B -> Prop.
Hypothesis I_frame : forall σ σ',
  gos σ' = gos σ -> length (pipes σ') = length (pipes σ) -> I σ -> I σ'.
Hypothesis I_bg : forall x σ, I σ -> I (bg x σ).
Hypothesis I_go : forall f σ σ',
  started f -> gos σ' = gos σ ++ [f] ->
  length (pipes σ) <= length (pipes σ') ->
  (forall p, pipe_of f = Some p -> p < length (pipes σ')) ->
  I σ -> I σ'.

Lemma shape_park {A} (ready : World B -> option A) σ a σ' :
  I σ -> park ready σ = Some (a, σ') -> I σ'.
Proof using B I I_bg I_frame api.
  intros Hb H. unfold park in H.
  eapply (await_inv I) in H as (σ1 & l' & H1 & _ & ->); [|by intros; apply I_bg|done].
  by eapply I_frame; [..|exact H1].
Qed.

Variable Duration_String : Duration -> string.

Lemma Create_shape s id σ x σ' : I σ -> Create s id σ = Some (x, σ') -> I σ'.
Proof using B I I_frame I_go api.
  intros Hb. unfold Create, bind, s3_HeadObject.
  destruct (HeadObject _ (s3 σ)) as [[e|] b];
    cbv [io_Pipe wg_Add go act ret]; intros [= <- <-].
  - eapply (I_go _ σ); cycle 1;
      [reflexivity|proj; rewrite length_app; lia| |done|done].
    intros p [= <-]. proj. rewrite length_app. simpl. lia.
  - by eapply I_frame; [..|exact Hb].
Qed.

Lemma Open_shape s id σ x σ' :
  I σ -> Open Duration_String s id σ = Some (x, σ') -> I σ'.
Proof using B Duration_String I I_frame I_go api.
  intros Hb. unfold Open, bind, downloader_Download.
  destruct (Download _ (s3 σ)) as [[[buff n] [e|]] b];
    cbv [io_Pipe wg_Add go act ret]; intros [= <- <-].
  - by eapply I_frame; [..|exact Hb].
  - eapply (I_go _ σ); cycle 1;
      [reflexivity|proj; rewrite length_app; lia| |done|done].
    intros p [= <-]. proj. rewrite length_app. simpl. lia.
Qed.

Lemma Remove_shape s id σ x σ' : I σ -> Remove s id σ = Some (x, σ') -> I σ'.
Proof using B I I_frame api.
  intros Hb. unfold Remove, s3_DeleteObject.
  destruct (DeleteObject _ (s3 σ)) as [e b]. intros [= <- <-].
  by eapply I_frame; [..|exact Hb].
Qed.

Lemma Store_Close_shape s σ x σ' : I σ -> Store_Close s σ = Some (x, σ') -> I σ'.
Proof using B I I_bg I_frame api.
  intros Hb. unfold Store_Close, bind, wg_Wait.
  destruct (park _ σ) as [[[] σ1]|] eqn:Hp; [|done]. intros [= <- <-].
  by eapply shape_park.
Qed.

Lemma Write_shape w (b : bytes) σ x σ' :
  I σ -> s3WriteCloser_Write w b σ = Some (x, σ') -> I σ'.
Proof using B I I_bg I_frame api.
  intros Hb. unfold s3WriteCloser_Write, io_WriteCloser_Write.
  destruct (wc_w w) as [p|n werr cerr]; [|by intros [= <- <-]].
  unfold PipeWriter_Write. destruct (io.done (pipe_at σ p)); [by intros [= <- <-]|].
  cbv [bind upd_pipe act ret].
  destruct (park _ _) as [[res σ1]|] eqn:Hp; [|done]. intros [= <- <-].
  eapply shape_park in Hp.
  - eapply I_frame; [..|exact Hp]; [done|]. proj. by rewrite length_alter.
  - eapply I_frame; [..|exact Hb]; [done|]. proj. by rewrite length_alter.
Qed.

Lemma Close_shape w σ x σ' : I σ -> s3WriteCloser_Close w σ = Some (x, σ') -> I σ'.
Proof using B I I_bg I_frame I_go api.
  intros Hb. unfold s3WriteCloser_Close.
  destruct (closed w); [by intros [= <- <-]|].
  unfold bind at 1.
  destruct (io_WriteCloser_Close _ σ) as [[e σ0]|] eqn:Hw; [|done].
  assert (I σ0) as Hb0.
  { revert Hw. destruct (wc_w _) as [p|n werr cerr]; cbn [io_WriteCloser_Close].
    - cbv [PipeWriter_Close bind upd_pipe act ret]. intros [= <- <-].
      eapply I_frame; [..|exact Hb]; [done|]. proj. by rewrite length_alter.
    - by intros [= <- <-]. }
  destruct e; [by intros [= <- <-]|].
  destruct (negb _); [by intros [= <- <-]|].
  cbv [bind make_chan go act time_After select2 close flip ret].
  match goal with |- context [park ?r ?s] => destruct (park r s) as [[y σ3]|] eqn:Hp end;
    [|done].
  eapply shape_park in Hp.
  - destruct y as [[]|]; [| |destruct (fastrand σ3 0)]; intros [= <- <-];
      (eapply I_frame; [..|exact Hp]; done).
  - eapply (I_go _ σ0); cycle 1; [reflexivity|done|done|done|done].
Qed.

Lemma Read_shape r n σ x σ' : I σ -> ReadCloser_Read r n σ = Some (x, σ') -> I σ'.
Proof using B I I_bg I_frame api.
  intros Hb. destruct r as [p]. cbv [ReadCloser_Read PipeReader_Read bind].
  destruct (park _ _) as [[[[chunk err] p'] σ1]|] eqn:Hp; [|done].
  cbv [upd_pipe act ret]. intros [= <- <-].
  eapply shape_park in Hp; [|done].
  eapply I_frame; [..|exact Hp]; [done|]. proj. by rewrite length_alter.
Qed.

Lemma exec_shape c σ σ' : I σ -> exec Duration_String c σ = Some (tt, σ') -> I σ'.
Proof using B Duration_String I I_bg I_frame I_go api.
  intros Hi. destruct c; cbv [exec]; try unfold bind at 1.
  - destruct (Create _ _ _) as [[res σ1]|] eqn:H; [|done]. intros [= <-]. by eapply Create_shape.
  - destruct (Open _ _ _ _) as [[res σ1]|] eqn:H; [|done]. intros [= <-]. by eapply Open_shape.
  - destruct (Remove _ _ _) as [[res σ1]|] eqn:H; [|done]. intros [= <-]. by eapply Remove_shape.
  - destruct (Store_Close _ _) as [[res σ1]|] eqn:H; [|done]. intros [= <-].
    by eapply Store_Close_shape.
  - destruct (s3WriteCloser_Write _ _ _) as [[res σ1]|] eqn:H; [|done]. intros [= <-].
    by eapply Write_shape.
  - destruct (s3WriteCloser_Close _ _) as [[res σ1]|] eqn:H; [|done]. intros [= <-].
    by eapply Close_shape.
  - destruct (ReadCloser_Read _ _ _) as [[res σ1]|] eqn:H; [|done]. intros [= <-].
    by eapply Read_shape.
  - by intros [= <-].
  - cbv [Gosched act]. intros [= <-].
    destruct (idle_inv I k (sched σ) σ) as (σ1 & l' & H1 & ->);
      [by intros; apply I_bg|done|].
    by eapply I_frame; [..|exact H1].
Qed.

Lemma reachable_shape σ :
  (forall b sched fastrand, I (boot b sched fastrand)) ->
  reachable Duration_String σ -> I σ.
Proof using B Duration_String I I_bg I_frame I_go api.
  intros Hboot. induction 1 as [b sched fastrand|c σ σ' _ IH H|sched fastrand σ _ IH].
  - apply Hboot.
  - by eapply exec_shape.
  - by eapply I_frame; [..|exact IH].
Qed.

End Shape.

Variable Duration_String : Duration -> string.

Lemma reachable_bounded σ : reachable Duration_String σ -> bounded σ.
Proof.
  apply (reachable_shape bounded).
  - apply bounded_frame.
  - apply bounded_bg.
  - intros f σ0 σ' _. apply bounded_go.
  - intros b sched fastrand g f p H. done.
Qed.

Lemma reachable_offering σ : reachable Duration_String σ -> offering σ.
Proof.
  apply (reachable_shape offering).
  - intros σ0 σ' Hg _. by apply offering_frame.
  - apply offering_bg.
  - intros f σ0 σ' Hf Hg _ _. by eapply offering_go.
  - intros b sched fastrand g w buff H. done.
Qed.

Implicit Types (P got data : bytes).

Lemma await_never {A} (I : World B -> Prop) (ready : World B -> option A) l σ :
  (forall x σ, I σ -> I (bg x σ)) ->
  (forall σ, I σ -> ready σ = None) ->
  I σ ->
  await ready l σ = None.
Proof.
  intros Hbg Hr. revert σ. induction l as [|x l IH]; intros σ Hi; simpl;
    rewrite (Hr _ Hi); [done|]. apply IH. by apply Hbg.
Qed.

Lemma live_pos σ g f : gos σ !! g = Some f -> in_flight f = true -> live (gos σ) <> 0.
Proof.
  intros Hg Hf H0. unfold live in H0.
  pose proof (proj1 (count_zero _ _) H0 f) as H.
  rewrite H in Hf; [done|]. by eapply list_elem_of_lookup_2.
Qed.

(** What [Open] leaves in a state in which every goroutine holds a
    pipe that was made: a new pipe, and the goroutine that copies the
    downloaded bytes into it. *)
Lemma Open_fresh s id σ r e σ1 P m err b :
  bounded σ ->
  Download {| GetObjectInput_Bucket := bucket s; GetObjectInput_Key := Open_key s id |} (s3 σ)
  = (P, m, err, b) ->
  Open Duration_String s id σ = Some ((Some r, e), σ1) ->
  r = NopCloser (length (pipes σ))
  /\ reading (length (pipes σ)) (length (gos σ)) P [] σ1.
Proof.
  intros Hb Hd. unfold Open, bind, downloader_Download. rewrite Hd.
  destruct err; cbv [io_Pipe wg_Add go act ret]; intros [= <- <- <-].
  split; [done|]. split; proj.
  - intros g' f Hne Hg. apply lookup_app_Some in Hg as [Hg|[Hge Hg]].
    + pose proof (Hb g' f) as Hlt. rewrite Hg in Hlt.
      destruct f; simpl in *; try done.
      * specialize (Hlt _ eq_refl eq_refl). lia.
      * specialize (Hlt _ eq_refl eq_refl). lia.
    + destruct (g' - length (gos σ)) as [|i] eqn:E; [lia|done].
  - exists Copy_enter. split; [by rewrite lookup_app_r, Nat.sub_diag by lia|].
    split; [rewrite length_app; simpl; lia|].
    unfold pipe_at. proj. rewrite lookup_app_r, Nat.sub_diag by lia. done.
Qed.

(** Reads that do not reach the end deliver a part of what was
    downloaded and leave the copy under way. *)
Lemma ReadAll_more q gi P n fuel got σ data σ' :
  reading q gi P got σ ->
  ReadAll (NopCloser q) n fuel σ = Some ((data, None), σ') ->
  reading q gi P (got ++ data) σ'.
Proof.
  revert got σ data σ'. induction fuel as [|fuel IH]; intros got σ data σ' Hrd; simpl.
  - intros [= <- <-]. by rewrite app_nil_r.
  - unfold bind at 1.
    destruct (PipeReader_Read q n σ) as [[[chunk err] σ1]|] eqn:H1; [|done].
    cbn [fst snd].
    destruct (Read_reading _ _ _ _ _ _ _ _ _ Hrd H1) as [[-> Hrd1]|(-> & _)]; [|done].
    unfold bind.
    destruct (ReadAll _ n fuel σ1) as [[[d e] σ2]|] eqn:H2; [|done].
    cbn [fst snd]. intros [= <- -> <-].
    rewrite app_assoc. by eapply IH.
Qed.

Lemma ReadAll_inv r n fuel σ x σ' :
  inv σ -> ReadAll r n fuel σ = Some (x, σ') -> inv σ'.
Proof.
  revert σ x σ'. induction fuel as [|fuel IH]; intros σ x σ' Hi; simpl.
  - by intros [= <- <-].
  - unfold bind at 1.
    destruct (ReadCloser_Read r n σ) as [[y σ1]|] eqn:H1; [|done].
    pose proof (Read_inv _ _ _ _ _ Hi H1) as Hi1.
    destruct (snd y); [by intros [= <- <-]|].
    unfold bind. destruct (ReadAll r n fuel σ1) as [[z σ2]|] eqn:H2; [|done].
    intros [= <- <-]. by eapply IH.
Qed.

Lemma reading_in_flight q gi P got σ :
  reading q gi P got σ -> length got < length P ->
  exists f, gos σ !! gi = Some f /\ in_flight f = true.
Proof.
  intros [_ (pc & Hg & _ & Hc)] Hlt. exists (Open_go pc q P). split; [done|].
  destruct pc as [| |[e|]| | |]; simpl in *; try done;
    destruct Hc as (-> & _); lia.
Qed.

(** The [Close] of the store never returns while a read handle has
    not been read to the end of what [Open] downloaded, under any
    schedule; closing the read handle does not change that. *)
Theorem Store_Close_blocks_on_an_unread_handle s s' id σ r e σ1 n fuel data σ2 P m err b :
  reachable Duration_String σ ->
  Download {| GetObjectInput_Bucket := bucket s; GetObjectInput_Key := Open_key s id |} (s3 σ)
  = (P, m, err, b) ->
  Open Duration_String s id σ = Some ((Some r, e), σ1) ->
  ReadAll r n fuel σ1 = Some ((data, None), σ2) ->
  length data < length P ->
  (ReadCloser_Close r ;; Store_Close s') σ2 = None.
Proof.
  intros Hr Hd Ho Hra Hlt.
  pose proof (reachable_inv _ _ Hr) as Hi.
  pose proof (reachable_bounded _ Hr) as Hb.
  destruct (Open_fresh _ _ _ _ _ _ _ _ _ _ Hb Hd Ho) as [-> Hrd].
  pose proof (Open_inv _ _ _ _ _ _ Hi Ho) as Hi1.
  pose proof (ReadAll_inv _ _ _ _ _ _ Hi1 Hra) as Hi2.
  pose proof (ReadAll_more _ _ _ _ _ _ _ _ _ Hrd Hra) as Hrd2.
  cbn [app] in Hrd2.
  cbv [ReadCloser_Close bind ret Store_Close wg_Wait park].
  rewrite (await_never (fun σ3 => inv σ3 /\ reading (length (pipes σ)) (length (gos σ)) P data σ3));
    [done| | |done].
  - intros x σ3 [H3 H4]. split; [by apply inv_bg|by apply reading_bg].
  - intros σ3 [H3 H4].
    destruct (reading_in_flight _ _ _ _ _ H4 Hlt) as (f & Hg & Hf).
    pose proof (live_pos _ _ _ Hg Hf) as Hl. rewrite (inv_wg _ H3).
    destruct (Z.of_nat (live (gos σ3)) =? 0)%Z eqn:E; [|done].
    apply Z.eqb_eq in E. lia.
Qed.


Lemma await_inv_in {A} (I : World B -> Prop) (ready : World B -> option A) l σ a σ' :
  (forall x σ, x ∈ l -> I σ -> I (bg x σ)) ->
  I σ ->
  await ready l σ = Some (a, σ') ->
  exists σ1 l', I σ1 /\ ready σ1 = Some a /\ σ' = set_sched l' σ1 /\ l' ⊆ l.
Proof.
  revert σ. induction l as [|x l IH]; intros σ Hbg Hi; simpl;
    destruct (ready σ) as [a'|] eqn:Hr.
  - intros [= <- <-]. eauto 10.
  - done.
  - intros [= <- <-]. by exists σ, (x :: l).
  - intros H. apply IH in H as (σ1 & l' & H1 & H2 & H3 & H4).
    + exists σ1, l'. repeat split; try done. set_solver.
    + intros y σ1 Hy. apply Hbg. set_solver.
    + apply Hbg; [set_solver|done].
Qed.

Lemma await_never_in {A} (I : World B -> Prop) (ready : World B -> option A) l σ :
  (forall x σ, x ∈ l -> I σ -> I (bg x σ)) ->
  (forall σ, I σ -> ready σ = None) ->
  I σ ->
  await ready l σ = None.
Proof.
  intros Hbg Hr. revert σ Hbg. induction l as [|x l IH]; intros σ Hbg Hi; simpl;
    rewrite (Hr _ Hi); [done|]. apply IH.
  - intros y σ1 Hy. apply Hbg. set_solver.
  - apply Hbg; [set_solver|done].
Qed.

Lemma awaiting_frame q g σ σ' :
  gos σ' = gos σ -> pipes σ' = pipes σ -> awaiting q g σ -> awaiting q g σ'.
Proof. intros Hg Hp [H1 H2 H3 H4]. split; rewrite ?Hg, ?Hp; done. Qed.

(** Changing the slice of the parked [Write] leaves the goroutine
    where it is. *)
Lemma awaiting_alter q g (h : io.pipe -> io.pipe) σ σ' :
  (forall p, io.done (h p) = io.done p) ->
  gos σ' = gos σ -> pipes σ' = alter h q (pipes σ) ->
  awaiting q g σ -> awaiting q g σ'.
Proof.
  intros Hh Hg Hp [H1 H2 H3 H4]. split; rewrite ?Hg, ?Hp; try done.
  - rewrite list_lookup_alter_eq. destruct (pipes σ !! q); simpl in *; [|done].
    by rewrite Hh.
  - by rewrite length_alter.
Qed.

Lemma awaiting_bg q g x σ :
  (forall e, x <> Fail g e) -> awaiting q g σ -> awaiting q g (bg x σ).
Proof.
  intros Hx Ha. pose proof Ha as [Hoth (pc & input & Hg & Hpc) Hopen Hlt].
  destruct (bg_cases x σ) as [->|[(g0 & n & f & f' & σ' & -> & Hg0 & Hm & ->)
                                |[(t & -> & ->)|(g0 & e & body & input0 & r & -> & Hg0 & ->)]]];
    try done.
  - pose proof (moves_gos _ _ _ _ _ _ Hm) as Hgos.
    pose proof (moves_pipes_length _ _ _ _ _ _ Hm) as Hlen.
    destruct (decide (g0 = g)) as [->|Hne].
    + rewrite Hg in Hg0. injection Hg0 as <-.
      assert (forall g' f0, g' <> g ->
                <[g:=f']> (gos σ) !! g' = Some f0 -> pipe_of f0 <> Some q) as Hoth'.
      { intros g' f0 Hg' H0. rewrite list_lookup_insert_ne in H0 by done. by eapply Hoth. }
      destruct Hpc as [->|[body ->]]; inversion Hm; subst.
      * split; proj; try done.
        exists (Upload_read []), input. split; [|eauto].
        apply list_lookup_insert_eq. by eapply lookup_lt_Some.
      * match goal with H : io.read _ _ = Some _ |- _ => apply read_data in H as (_ & _ & Hd & _) end.
        split; proj; try done.
        -- eexists _, input. split; [|eauto].
           apply list_lookup_insert_eq. by eapply lookup_lt_Some.
        -- rewrite list_lookup_alter_eq. by destruct (pipes σ !! q).
        -- by rewrite length_alter.
      * match goal with H : io.read _ _ = Some _ |- _ => apply read_error in H as (Hd & _) end.
        unfold pipe_at in Hd. by rewrite Hd in Hopen.
      * match goal with H : io.read _ _ = Some _ |- _ => apply read_error in H as (Hd & _) end.
        unfold pipe_at in Hd. by rewrite Hd in Hopen.
    + assert (pipes σ' !! q = pipes σ !! q) as Hq.
      { eapply moves_pipes; [exact Hm|].
        specialize (Hoth _ _ Hne Hg0). destruct f; simpl in *; [congruence..|done]. }
      split; proj.
      * intros g' f0 Hg' H0.
        apply lookup_insert_cases in H0 as [(<- & <- & _)|[_ H0]]; [|by eapply Hoth].
        rewrite (same_code_pipe_of f f') by (by eapply moves_same_code).
        by eapply Hoth.
      * exists pc, input. split; [|done]. by rewrite list_lookup_insert_ne.
      * by rewrite Hq.
      * by rewrite Hlen.
  - by eapply awaiting_frame; [..|exact Ha].
  - assert (g0 <> g) as Hne by (intros ->; by eapply Hx).
    split; proj; try done.
    + intros g' f0 Hg' H0.
      apply lookup_insert_cases in H0 as [(<- & <- & _)|[_ H0]]; [|by eapply Hoth].
      by apply (Hoth _ _ Hne Hg0).
    + exists pc, input. split; [|done]. by rewrite list_lookup_insert_ne.
Qed.

Lemma Create_awaiting s id σ w e σ1 :
  bounded σ ->
  Create s id σ = Some ((Some w, e), σ1) ->
  wc_w w = PipeWriter (length (pipes σ))
  /\ awaiting (length (pipes σ)) (length (gos σ)) σ1
  /\ sched σ1 = sched σ.
Proof.
  intros Hb. unfold Create, bind, s3_HeadObject.
  destruct (HeadObject _ (s3 σ)) as [[e0|] b];
    cbv [io_Pipe wg_Add go act ret]; intros [= <- <- <-].
  split; [done|]. split; [|done]. split; proj.
  - intros g' f Hne Hg. apply lookup_app_Some in Hg as [Hg|[Hge Hg]].
    + intros Hf. specialize (Hb _ _ _ Hg Hf). lia.
    + destruct (g' - length (gos σ)) as [|i] eqn:E; [lia|done].
  - eexists _, _. split; [by rewrite lookup_app_r, Nat.sub_diag by lia|]. by left.
  - by rewrite lookup_app_r, Nat.sub_diag by lia.
  - rewrite length_app. simpl. lia.
Qed.

Lemma Write_awaiting q g w (b : bytes) σ x σ' :
  wc_w w = PipeWriter q ->
  (forall e, Fail g e ∉ sched σ) ->
  awaiting q g σ ->
  s3WriteCloser_Write w b σ = Some (x, σ') ->
  awaiting q g σ' /\ (forall e, Fail g e ∉ sched σ').
Proof.
  intros Hw Hs Ha. unfold s3WriteCloser_Write. rewrite Hw. cbn [io_WriteCloser_Write].
  unfold PipeWriter_Write, pipe_at. rewrite (awaiting_open _ _ _ Ha).
  cbv [bind upd_pipe act ret park]. proj.
  match goal with |- context [await ?r ?l ?s] => destruct (await r l s) as [[res σ1]|] eqn:Hp end;
    [|done].
  intros [= <- <-].
  eapply (await_inv_in (awaiting q g)) in Hp as (σ2 & l' & H2 & _ & -> & Hl).
  - split; proj.
    + eapply (awaiting_alter q g io.retract σ2); [done|done|done|done].
    + intros e He. apply (Hs e). set_solver.
  - intros y σ2 Hy H2. apply awaiting_bg; [|done]. intros e ->. by apply (Hs e).
  - by eapply (awaiting_alter q g (io.offer b) σ).
Qed.

Lemma WriteAll_awaiting q g w (chunks : list (list Byte.byte)) σ σ' :
  wc_w w = PipeWriter q ->
  (forall e, Fail g e ∉ sched σ) ->
  inv σ -> awaiting q g σ ->
  WriteAll w chunks σ = Some (None, σ') ->
  inv σ' /\ awaiting q g σ' /\ (forall e, Fail g e ∉ sched σ').
Proof.
  intros Hw. revert σ. induction chunks as [|b chunks IH]; intros σ Hs Hi Ha; simpl.
  - by intros [= <-].
  - unfold bind at 1.
    destruct (s3WriteCloser_Write w b σ) as [[x σ1]|] eqn:H1; [|done].
    destruct (Write_awaiting _ _ _ _ _ _ _ Hw Hs Ha H1) as [Ha1 Hs1].
    pose proof (Write_inv _ _ _ _ _ Hi H1) as Hi1.
    destruct (snd x); [done|]. by apply IH.
Qed.

(** The [Close] of the store never returns while a write handle is
    open, unless the upload fails: after a [Create] and writes that
    succeeded, under a schedule in which the uploader does not give
    up. *)
Theorem Store_Close_blocks_on_an_open_handle s s' id σ w e σ1 (chunks : list (list Byte.byte)) σ2 :
  reachable Duration_String σ ->
  (forall e, Fail (length (gos σ)) e ∉ sched σ) ->
  Create s id σ = Some ((Some w, e), σ1) ->
  WriteAll w chunks σ1 = Some (None, σ2) ->
  Store_Close s' σ2 = None.
Proof.
  intros Hr Hs Hc Hwa.
  pose proof (reachable_inv _ _ Hr) as Hi.
  pose proof (reachable_bounded _ Hr) as Hb.
  destruct (Create_awaiting _ _ _ _ _ _ Hb Hc) as (Hw & Ha & Hs1).
  pose proof (Create_inv _ _ _ _ _ Hi Hc) as Hi1.
  rewrite <- Hs1 in Hs.
  destruct (WriteAll_awaiting _ _ _ _ _ _ Hw Hs Hi1 Ha Hwa) as (Hi2 & Ha2 & Hs2).
  cbv [bind ret Store_Close wg_Wait park].
  rewrite (await_never_in
             (fun σ3 => inv σ3 /\ awaiting (length (pipes σ)) (length (gos σ)) σ3));
    [done| | |done].
  - intros x σ3 Hx [H3 H4]. split; [by apply inv_bg|].
    apply awaiting_bg; [|done]. intros e0 ->. by apply (Hs2 e0).
  - intros σ3 [H3 [_ (pc & input & Hg & Hpc) _ _]].
    assert (in_flight (Create_go pc input (length (pipes σ))) = true) as Hf
      by (by destruct Hpc as [->|[body ->]]).
    pose proof (live_pos _ _ _ Hg Hf) as Hl. rewrite (inv_wg _ H3).
    destruct (Z.of_nat (live (gos σ3)) =? 0)%Z eqn:E; [|done].
    apply Z.eqb_eq in E. lia.
Qed.

(** In [s3c4.go], once the writer has closed without error: whenever
    [Close] returns it returns [nil], and it does return when the
    timer of five seconds that it arms is due to expire, whether or
    not a poll ever succeeds. *)
Theorem Legacy_Close_hides_the_timeout w σ σ0 :
  closed w = false ->
  io_WriteCloser_Close (wc_w w) σ = Some (None, σ0) ->
  (forall r w1 σ', Legacy.s3WriteCloser_Close w σ = Some ((r, w1), σ') -> r = None)
  /\ (Fire (length (timers σ)) ∈ sched σ ->
      exists σ', Legacy.s3WriteCloser_Close w σ = Some ((None, set_closed true w), σ')).
Proof.
  intros Hc Hw.
  pose proof (io_WriteCloser_Close_frame _ _ _ _ Hw) as (_ & _ & _ & _ & _ & Htm & Hsc).
  split.
  - intros r w1 σ'. by apply Legacy_Close_returns_nil with (σ0 := σ0).
  - intros Hin. unfold Legacy.s3WriteCloser_Close. rewrite Hc.
    unfold bind at 1. cbn [set_closed wc_w]. rewrite Hw.
    cbv [bind make_chan go act time_After select2 close flip ret park].
    cbn [s3 pipes chans timers wg gos log sched fastrand set_s3 set_pipes set_chans
         set_timers set_wg set_gos set_log set_sched set_fastrand].
    match goal with |- context [await ?r ?l ?s] =>
      destruct (await_timer (is_closed (length (chans σ0))) (length (timers σ0)) l s)
        as [x Hx]
    end.
    + by rewrite Hsc, Htm.
    + cbn [timers set_timers]. rewrite length_app. simpl. lia.
    + rewrite Hx. destruct x as [[[]|] σ3]; [| |destruct (fastrand σ3 0)]; eauto.
Qed.

(** What is read from the handle of an [Open], in whatever state the
    [Open] was called, is what its download delivered: reads that
    reach the end have read exactly those bytes, and they do reach the
    end once the goroutine of the [Open] gets to run. *)
Theorem Open_delivers_the_download s id σ r e σ1 P m err b :
  reachable Duration_String σ ->
  Download {| GetObjectInput_Bucket := bucket s; GetObjectInput_Key := Open_key s id |} (s3 σ)
  = (P, m, err, b) ->
  Open Duration_String s id σ = Some ((Some r, e), σ1) ->
  (forall n fuel data σ2,
     ReadAll r n fuel σ1 = Some ((data, Some io_EOF), σ2) -> data = P)
  /\ (forall n fuel l σ2,
        0 < n -> length P + 1 < fuel ->
        gos σ2 = gos σ1 -> pipes σ2 = pipes σ1 ->
        sched σ2 = repeat (Run (length (gos σ)) 0) 4 ++ l ->
        exists σ3, ReadAll r n fuel σ2 = Some ((P, Some io_EOF), σ3)).
Proof.
  intros Hr Hd Ho.
  pose proof (reachable_bounded _ Hr) as Hb.
  destruct (Open_fresh _ _ _ _ _ _ _ _ _ _ Hb Hd Ho) as [-> Hrd].
  split.
  - intros n fuel data σ2 H. by apply (ReadAll_reading _ _ _ _ _ _ _ _ _ Hrd H).
  - intros n fuel l σ2 Hn Hf Hg Hp Hs.
    revert Ho. unfold Open, bind, downloader_Download. rewrite Hd.
    destruct err; cbv [io_Pipe wg_Add go act ret]; intros [= _ <-].
    eapply ReadAll_live with (g := length (gos σ)) (l := l); [done|done| | |exact Hs].
    + rewrite Hg. cbn [gos set_gos]. by rewrite lookup_app_r, Nat.sub_diag by lia.
    + rewrite Hp. cbn [pipes set_pipes set_gos set_wg set_log set_s3].
      by rewrite lookup_app_r, Nat.sub_diag by lia.
Qed.

End Bounded.

(** ** The shape of the keys *)

Section KeyShape.

Import path.

Implicit Types (e l out : list ascii) (c : ascii).

Lemma backtrack_ge out dotdot w : dotdot <= w -> dotdot <= backtrack out dotdot w.
Proof.
  induction w as [|w IH]; intros H; simpl; [done|].
  destruct (dotdot <? S w) eqn:E; simpl; [|done].
  destruct (negb _); [|done]. apply Nat.ltb_lt in E. apply IH. lia.
Qed.

Lemma copy_element_app l e out :
  exists l1 l2,
    l = l1 ++ l2
    /\ copy_element (l ++ "/"%char :: e) out = (l2 ++ "/"%char :: e, out ++ l1)
    /\ (forall c l', l = c :: l' -> is_slash c = false -> length l2 < length l).
Proof.
  revert out. induction l as [|c l IH]; intros out.
  - exists [], []. split; [done|]. split; [by rewrite app_nil_r|]. done.
  - simpl. destruct (is_slash c) eqn:E.
    + exists [], (c :: l). split; [done|]. split; [by rewrite app_nil_r|].
      intros c' l' [= <- <-] H. congruence.
    + destruct (IH (out ++ [c])) as (l1 & l2 & -> & H & _).
      exists (c :: l1), l2. split; [done|]. split.
      * rewrite H. by rewrite <- app_assoc.
      * intros _ _ _ _. rewrite length_app. simpl. lia.
Qed.

(** What [Clean] returns for a path whose last element [e] is plain
    ends with [e], which stands alone or follows a slash. *)
Lemma Clean_loop_last e fuel rooted l out dotdot :
  plain e ->
  length (l ++ "/"%char :: e) <= fuel ->
  rooted_ok rooted out dotdot ->
  exists pre,
    Clean_loop fuel rooted (l ++ "/"%char :: e) out dotdot = pre ++ e
    /\ (pre = [] \/ exists pre', pre = pre' ++ ["/"%char]).
Proof.
  intros He. revert l out dotdot.
  induction fuel as [|fuel IH]; intros l out dotdot Hf Hok.
  { rewrite length_app in Hf. simpl in Hf. lia. }
  destruct l as [|c rest].
  - (* the slash before [e], then [e] itself *)
    cbn [app Clean_loop]. change (is_slash "/") with true. cbv iota.
    destruct e as [|c0 e']; [done|]. destruct He as [Hdot Hns].
    destruct fuel as [|fuel]; [simpl in Hf; lia|].
    pose proof Hns as Hns'. simpl in Hns'. apply andb_true_iff in Hns' as [Hc0 _].
    apply negb_true_iff in Hc0.
    cbn [Clean_loop]. rewrite Hc0, Hdot. cbn [andb].
    rewrite (copy_element_no_slash _ _ Hns), Clean_loop_nil.
    eexists. split; [reflexivity|].
    destruct rooted.
    + destruct (Hok eq_refl) as [_ [t ->]]. cbn [andb negb orb].
      destruct t as [|a t]; cbn [length Nat.eqb negb]; right.
      * by exists [].
      * by exists ("/"%char :: a :: t).
    + cbn [andb negb orb]. destruct out as [|a out]; cbn [length Nat.eqb negb].
      * by left.
      * right. by exists (a :: out).
  - rewrite length_app in Hf. simpl in Hf.
    assert (length (rest ++ "/"%char :: e) <= fuel) as Hf'
      by (rewrite length_app; simpl; lia).
    cbn [app Clean_loop].
    destruct (is_slash c) eqn:Hsl; [by apply IH|].
    destruct (is_dot c && ends_element (rest ++ "/"%char :: e)) eqn:Hd1; [by apply IH|].
    match goal with |- context [if ?b then _ else _] => destruct b eqn:Hd2 end.
    + (* .. *)
      destruct rest as [|d rest'].
      { simpl in Hd2. by rewrite andb_false_r in Hd2. }
      cbn [app tl].
      assert (length (rest' ++ "/"%char :: e) <= fuel) as Hf''
        by (rewrite length_app in *; simpl in *; lia).
      destruct (dotdot <? length out) eqn:Hlt.
      * apply IH; [done|]. intros ->. destruct (Hok eq_refl) as [Hdd [t ->]].
        split; [done|].
        apply Nat.ltb_lt in Hlt.
        pose proof (backtrack_ge ("/"%char :: t) dotdot (length ("/"%char :: t) - 1)) as Hge.
        destruct (backtrack _ _ _) as [|w]; [lia|]. simpl. by eexists.
      * destruct rooted; cbn [negb]; [by apply IH|].
        by apply IH.
    + (* a real element *)
      cbv zeta.
      match goal with |- context [copy_element _ ?o] => set (out1 := o) end.
      destruct (copy_element_app (c :: rest) e out1) as (l1 & l2 & Hl & Hcp & Hlen).
      specialize (Hlen _ _ eq_refl Hsl).
      change (c :: rest ++ "/"%char :: e) with ((c :: rest) ++ "/"%char :: e).
      rewrite Hcp. apply IH.
      * rewrite length_app in *. simpl in *. lia.
      * intros ->. destruct (Hok eq_refl) as [Hdd [t ->]]. split; [done|].
        subst out1. destruct (_ || _); simpl; by eexists.
Qed.

Lemma string_of_list_ascii_app l1 l2 :
  string_of_list_ascii (l1 ++ l2) = string_of_list_ascii l1 +:+ string_of_list_ascii l2.
Proof. induction l1 as [|c l1 IH]; simpl; [done|]. by rewrite IH. Qed.

Lemma list_ascii_of_string_app (s1 s2 : string) :
  list_ascii_of_string (s1 +:+ s2) = list_ascii_of_string s1 ++ list_ascii_of_string s2.
Proof. induction s1 as [|c s1 IH]; simpl; [done|]. by rewrite IH. Qed.

Lemma canonical_plain (s : string) :
  c4.canonical s = true -> plain (list_ascii_of_string s).
Proof.
  intros H. pose proof (canonical_nonempty _ H) as Hne.
  unfold c4.canonical in H.
  apply andb_true_iff in H as [_ Hall].
  destruct s as [|c s]; [done|]. simpl in Hall |- *.
  apply andb_true_iff in Hall as [Hc Hall].
  split; [by apply in_charset_plain|].
  apply andb_true_iff. split.
  - apply negb_true_iff. by apply in_charset_plain.
  - apply forallb_forall. intros x Hx. apply negb_true_iff.
    apply in_charset_plain. revert x Hx. by apply forallb_forall.
Qed.

(** The list of characters of a key. *)
Lemma key_chars (s : Store) (id : c4.ID) :
  exists pre,
    list_ascii_of_string (Create_key s id) = pre ++ list_ascii_of_string (c4.String id)
    /\ (pre = [] \/ exists pre', pre = pre' ++ ["/"%char]).
Proof.
  pose proof (canonical_plain _ (c4.String_canonical id)) as He.
  unfold Create_key. destruct (prefix s) as [|c p] eqn:Hp; cbn [String.length Nat.ltb Nat.leb].
  { exists []. split; [done|by left]. }
  unfold Join. cbn [foldr String.length Nat.add]. cbn [Nat.eqb].
  cbn [fold_left String.length Nat.ltb Nat.leb orb negb String.eqb].
  change (EmptyString +:+ String c p) with (String c p).
  change (String.length (String c p)) with (S (String.length p)). cbv iota. cbn [orb].
  unfold Clean.
  rewrite !list_ascii_of_string_app.
  change (list_ascii_of_string (String c p)) with (c :: list_ascii_of_string p).
  change (list_ascii_of_string "/") with ["/"%char].
  cbn [app]. rewrite <- app_assoc. cbn [app]. cbv zeta.
  set (e := list_ascii_of_string (c4.String id)) in *.
  set (l := list_ascii_of_string p).
  destruct (is_slash c) eqn:Hsl.
  - destruct (Clean_loop_last e (length (l ++ "/"%char :: e)) true l ["/"%char] 1 He)
      as (pre & -> & Hpre); [done| |].
    { intros _. split; [done|]. by eexists. }
    exists pre. split; [|done].
    destruct (pre ++ e) eqn:E; [destruct pre, e; done|].
    by rewrite <- E, list_ascii_of_string_of_list_ascii.
  - destruct (Clean_loop_last e (S (length (l ++ "/"%char :: e))) false (c :: l) [] 0 He)
      as (pre & Heq & Hpre); [simpl; lia|done|].
    cbn [app] in Heq. rewrite Heq.
    exists pre. split; [|done].
    destruct (pre ++ e) eqn:E; [destruct pre, e; done|].
    by rewrite <- E, list_ascii_of_string_of_list_ascii.
Qed.

(** Under every prefix the key of an identifier ends with the
    canonical string of the identifier, which is the whole key or its
    last path element. *)
Theorem key_ends_with_the_identifier (s : Store) (id : c4.ID) :
  Create_key s id = c4.String id
  \/ exists dir : string, Create_key s id = dir +:+ "/" +:+ c4.String id.
Proof.
  destruct (key_chars s id) as (pre & H & [->|[pre' ->]]).
  - left. apply (f_equal string_of_list_ascii) in H. cbn [app] in H.
    by rewrite !string_of_list_ascii_of_string in H.
  - right. exists (string_of_list_ascii pre').
    apply (f_equal string_of_list_ascii) in H.
    rewrite string_of_list_ascii_of_string in H. rewrite H.
    rewrite <- app_assoc, !string_of_list_ascii_app, string_of_list_ascii_of_string.
    reflexivity.
Qed.

Lemma canonical_length (s : string) : c4.canonical s = true -> String.length s = 90.
Proof.
  unfold c4.canonical. intros H.
  apply andb_true_iff in H as [H _]. apply andb_true_iff in H as [Hlen _].
  by apply Nat.eqb_eq in Hlen.
Qed.

Lemma length_list_ascii_of_string (s : string) :
  length (list_ascii_of_string s) = String.length s.
Proof. induction s as [|c s IH]; simpl; [done|]. by rewrite IH. Qed.

Lemma ID_eq (id1 id2 : c4.ID) : c4.String id1 = c4.String id2 -> id1 = id2.
Proof.
  destruct id1 as [s1 H1], id2 as [s2 H2]. simpl. intros ->.
  f_equal. apply UIP_dec. apply Bool.bool_dec.
Qed.

(** In one store, two identifiers that have the same key are the same
    identifier: no two objects share a key, whatever the prefix. *)
Theorem keys_are_injective (s : Store) (id1 id2 : c4.ID) :
  Create_key s id1 = Create_key s id2 <-> id1 = id2.
Proof.
  split; [|by intros ->].
  intros H. apply ID_eq.
  destruct (key_chars s id1) as (pre1 & H1 & _).
  destruct (key_chars s id2) as (pre2 & H2 & _).
  rewrite H, H2 in H1.
  apply app_inj_2 in H1 as [_ H1].
  - apply (f_equal string_of_list_ascii) in H1.
    by rewrite !string_of_list_ascii_of_string in H1.
  - rewrite !length_list_ascii_of_string.
    by rewrite !canonical_length by apply c4.String_canonical.
Qed.

End KeyShape.

(** ** The example program of the README *)

Section READMEProofs.

Context {B : Type} {api : S3API B} {store : ObjectStore B}.
Variable Duration_String : Duration -> string.
Implicit Types (σ : World B) (P got data : bytes).

(** A [Read] that delivers bytes delivers at most as many as the
    buffer holds, and takes them from a goroutine that has some. *)
Lemma Read_some q gi P got n σ chunk σ' :
  reading q gi P got σ -> offering σ ->
  ReadCloser_Read (NopCloser q) n σ = Some ((chunk, None), σ') ->
  P <> [] /\ length chunk <= n.
Proof.
  intros Hrd Hof. cbv [ReadCloser_Read PipeReader_Read bind park].
  match goal with |- context [await ?r ?l ?s] => destruct (await r l s) as [[[[c e] p'] σ1]|] eqn:Hp end;
    [|done].
  cbv [upd_pipe act ret]. intros [= -> -> <-].
  eapply (await_inv (fun σ => reading q gi P got σ /\ offering σ)) in Hp
    as (σ2 & l' & [H2 Ho2] & Hread & ->).
  - destruct H2 as [_ (pc & Hg & _ & Hc)].
    unfold io.read in Hread. destruct (io.done (pipe_at σ2 q)) eqn:Hd; [done|].
    destruct (io.wr (pipe_at σ2 q)) as [bw|] eqn:Hwr; [|done].
    injection Hread as <- _. split; [|rewrite length_take; lia].
    destruct pc as [| |[e|]| | |]; simpl in Hc; try (destruct Hc as (_ & Hc & _); congruence);
      try done.
    by eapply Ho2.
  - intros x σ2 [H2 Ho2] _. split; [by apply reading_bg|by apply offering_bg].
  - done.
Qed.

(** When the [Close] of the store returns, the reader has read all
    that its [Open] downloaded. *)
Lemma Store_Close_read_all s q gi P got σ r σ' :
  inv σ -> reading q gi P got σ ->
  Store_Close s σ = Some (r, σ') -> got = P.
Proof.
  intros Hi Hrd. cbv [Store_Close bind wg_Wait park ret].
  match goal with |- context [await ?r ?l ?s] => destruct (await r l s) as [[[] σ1]|] eqn:Hp end;
    [|done].
  intros _.
  eapply (await_inv (fun σ => inv σ /\ reading q gi P got σ)) in Hp
    as (σ2 & l' & [H2 Hr2] & Hz & _).
  - destruct (wg σ2 =? 0)%Z eqn:Hwg; [|done]. apply Z.eqb_eq in Hwg.
    destruct Hr2 as [_ (pc & Hg & _ & Hc)].
    destruct (in_flight (Open_go pc q P)) eqn:Hf.
    + pose proof (live_pos _ _ _ Hg Hf) as Hl. rewrite (inv_wg _ H2) in Hwg. lia.
    + destruct pc; simpl in Hf; try done. by destruct Hc.
  - intros x σ2 [H2 Hr2] _. split; [by apply inv_bg|by apply reading_bg].
  - done.
Qed.

Lemma io_Copy_writing input w data σ m σ' :
  wc_w w = PipeWriter 0 ->
  writing input [] σ -> io.wr (pipe_at σ 0) = None ->
  io_Copy w data σ = Some ((m, None), σ') ->
  writing input data σ' /\ io.wr (pipe_at σ' 0) = None.
Proof.
  intros Hw Hwr Hidle. unfold io_Copy. destruct data as [|c data].
  { by intros [= <- <-]. }
  unfold bind.
  destruct (s3WriteCloser_Write w (c :: data) σ) as [[[k e] σ1]|] eqn:H1; [|done].
  cbv [ret]. destruct e; [done|].
  intros [= <- _ <-].
  by apply (Write_writing _ _ _ _ _ _ _ Hw Hwr Hidle H1).
Qed.

Lemma io_Copy_inv w data σ x σ' : inv σ -> io_Copy w data σ = Some (x, σ') -> inv σ'.
Proof.
  intros Hi. unfold io_Copy. destruct data as [|c data]; [by intros [= <- <-]|].
  unfold bind.
  destruct (s3WriteCloser_Write w (c :: data) σ) as [[[k e] σ1]|] eqn:H1; [|done].
  cbv [ret]. intros [= <- <-]. by eapply Write_inv.
Qed.

Lemma io_Copy_offering w data σ x σ' :
  offering σ -> io_Copy w data σ = Some (x, σ') -> offering σ'.
Proof.
  intros Hi. unfold io_Copy. destruct data as [|c data]; [by intros [= <- <-]|].
  unfold bind.
  destruct (s3WriteCloser_Write w (c :: data) σ) as [[[k e] σ1]|] eqn:H1; [|done].
  cbv [ret]. intros [= <- <-].
  eapply (Write_shape offering); [..|exact Hi|exact H1].
  - intros ?? Hg _. by apply offering_frame.
  - apply offering_bg.
Qed.

Lemma main_returned id data (b0 : B) sched fastrand out σ' :
  stored b0 "your_bucket" (Create_key (fst (New "your_bucket" "optional_prefix")) id) = None ->
  main Duration_String id data (boot b0 sched fastrand) = Some ((out, None), σ') ->
  out = data ++ [Byte.x0a] /\ 0 < length data <= 512.
Proof.
  intros Hst. unfold main. cbn [New DontPanic fst snd] in *.
  set (s := mkStore _ _ _ _ _) in *.
  unfold bind at 1.
  destruct (Create s id _) as [[[w e] σ1]|] eqn:H1; [|done].
  destruct e; [done|]. cbn [DontPanic]. destruct w as [w|]; [|done].
  destruct (Create_writing s id b0 sched fastrand w None σ1 Hst H1) as (Hw & Hwr1 & Hidle1).
  pose proof (Create_inv _ _ _ _ _ (inv_boot _ _ _) H1) as Hi1.
  assert (offering σ1) as Ho1.
  { eapply (Create_shape offering); [..|exact H1].
    - intros ?? Hg _. by apply offering_frame.
    - intros f ?? Hf Hg _ _. by eapply offering_go.
    - intros g w0 buff H. done. }
  unfold bind at 1.
  destruct (io_Copy w data σ1) as [[[m e] σ2]|] eqn:H2; [|done].
  cbn [snd]. destruct e; [done|]. cbn [DontPanic].
  destruct (io_Copy_writing _ _ _ _ _ _ Hw Hwr1 Hidle1 H2) as [Hwr2 Hidle2].
  pose proof (io_Copy_inv _ _ _ _ _ Hi1 H2) as Hi2.
  pose proof (io_Copy_offering _ _ _ _ _ Ho1 H2) as Ho2.
  unfold bind at 1.
  destruct (s3WriteCloser_Close w σ2) as [[[e w'] σ3]|] eqn:H3; [|done].
  cbn [fst]. destruct e; [done|]. cbn [DontPanic].
  pose proof (Close_writing _ _ _ _ _ _ Hw Hwr2 Hidle2 H3) as Hwr3.
  pose proof (Close_inv _ _ _ _ Hi2 H3) as Hi3.
  assert (offering σ3) as Ho3.
  { eapply (Close_shape offering); [..|exact Ho2|exact H3].
    - intros ?? Hg _. by apply offering_frame.
    - apply offering_bg.
    - intros f ?? Hf Hg _ _. by eapply offering_go. }
  unfold bind at 1.
  destruct (Open _ s id σ3) as [[[r e] σ4]|] eqn:H4; [|done].
  destruct e; [done|]. cbn [DontPanic]. destruct r as [r|]; [|done].
  destruct (Open_reading _ _ _ _ _ _ _ _ Hwr3 H4) as [-> Hrd4].
  pose proof (Open_inv _ _ _ _ _ _ Hi3 H4) as Hi4.
  assert (offering σ4) as Ho4.
  { eapply (Open_shape offering); [..|exact Ho3|exact H4].
    - intros ?? Hg _. by apply offering_frame.
    - intros f ?? Hf Hg _ _. by eapply offering_go. }
  unfold bind at 1.
  destruct (ReadCloser_Read _ 512 σ4) as [[[chunk e] σ5]|] eqn:H5; [|done].
  destruct e; [done|]. cbn [DontPanic].
  destruct (Read_some _ _ _ _ _ _ _ _ Hrd4 Ho4 H5) as [Hne Hlen].
  destruct (Read_reading _ _ _ _ _ _ _ _ _ Hrd4 H5) as [[_ Hrd5]|[? _]]; [|done].
  pose proof (Read_inv _ _ _ _ _ Hi4 H5) as Hi5.
  cbn [app] in Hrd5.
  cbv [ReadCloser_Close]. unfold bind at 1. cbv [ret]. cbn [DontPanic].
  unfold bind at 1.
  destruct (Remove s id σ5) as [[e σ6]|] eqn:H6; [|done].
  destruct e; [done|]. cbn [DontPanic].
  pose proof (Remove_inv _ _ _ _ _ Hi5 H6) as Hi6.
  assert (reading 1 (length (gos σ3)) data chunk σ6) as Hrd6.
  { revert H6. unfold Remove, s3_DeleteObject.
    destruct (DeleteObject _ (s3 σ5)) as [e b]. intros [= _ <-].
    by eapply reading_frame; [..|exact Hrd5]. }
  unfold bind at 1.
  destruct (Store_Close s σ6) as [[e σ7]|] eqn:H7; [|done].
  pose proof (Store_Close_read_all _ _ _ _ _ _ _ _ Hi6 Hrd6 H7) as ->.
  destruct e; [done|]. cbn [DontPanic]. cbv [ret]. intros [= <- <-].
  split; [done|]. split; [|done].
  destruct data; [done|simpl; lia].
Qed.

(** When [main] returns, on whatever backend is an object store and
    had nothing at the key, under whatever schedule: it has printed
    the data and a newline, and the data are not empty and fit the
    buffer of 512 bytes. *)
Theorem main_prints_the_data id data (b0 : B) sched fastrand out σ' :
  stored b0 "your_bucket" (main_key id) = None ->
  main Duration_String id data (boot b0 sched fastrand) = Some ((out, None), σ') ->
  out = data ++ [Byte.x0a] /\ 0 < length data <= 512.
Proof. exact (main_returned id data b0 sched fastrand out σ'). Qed.

End READMEProofs.

Section Scenario.

Context {B : Type} {api : S3API B}.
Variable Duration_String : Duration -> string.

Ltac norm_in H :=
  cbv [bind ret act try emit upd_pipe wg_Done wg_Add s3_HeadObject s3_DeleteObject
       downloader_Download time_After select2 flip close go make_chan io_Pipe park Gosched
       PipeWriter_Write PipeWriter_Close PipeReader_Read pipe_at DontPanic
       Open Create Remove ReadCloser_Read ReadCloser_Close Store_Close wg_Wait
       s3WriteCloser_Write io_WriteCloser_Write s3WriteCloser_Close io_WriteCloser_Close
       set_s3 set_pipes set_chans set_timers set_wg set_gos set_log set_sched
       set_fastrand] in H;
  cbn -[take drop await Create_key Open_key Remove_path] in H.

Ltac wake_in H :=
  erewrite await_ready in H by (cbn -[take drop]; reflexivity).

Ltac wait_in H :=
  rewrite await_step in H by (cbn -[take drop]; reflexivity).

Variables (id : c4.ID) (b0 b1 b2 b3 b4 b5 : B) (e0 : error) (n : Z).
Variable fastrand : nat -> bool.

(** When the backend answers as a store does that had nothing at the
    key: the first [HeadObject] fails, the upload succeeds, the next
    [HeadObject] succeeds, the download delivers what was uploaded, and
    the object can be deleted; then there is a schedule under which
    [main], given data that are not empty and fit the buffer, prints
    them and returns with no transfer left. *)
Lemma main_scenario (data : bytes) :
  0 < length data <= 512 ->
  HeadObject
    {| HeadObjectInput_Bucket := "your_bucket";
       HeadObjectInput_Key := Create_key (fst (New "your_bucket" "optional_prefix")) id |} b0
  = (Some e0, b1) ->
  Upload
    {| UploadInput_Bucket := "your_bucket";
       UploadInput_Key := Create_key (fst (New "your_bucket" "optional_prefix")) id |} data b1
  = (None, b2) ->
  HeadObject
    {| HeadObjectInput_Bucket := "your_bucket";
       HeadObjectInput_Key := Create_key (fst (New "your_bucket" "optional_prefix")) id |} b2
  = (None, b3) ->
  Download
    {| GetObjectInput_Bucket := "your_bucket";
       GetObjectInput_Key := Create_key (fst (New "your_bucket" "optional_prefix")) id |} b3
  = (data, n, None, b4) ->
  DeleteObject
    {| DeleteObjectInput_Bucket := "your_bucket";
       DeleteObjectInput_Key := Create_key (fst (New "your_bucket" "optional_prefix")) id |} b4
  = (None, b5) ->
  exists (sched : list label) (σ' : World B),
    main Duration_String id data (boot b0 sched fastrand)
    = Some ((data ++ [Byte.x0a], None), σ')
    /\ s3 σ' = b5 /\ wg σ' = 0%Z.
Proof.
  intros [Hpos Hfit] Hh0 Hup Hh1 Hdl Hrm.
  destruct data as [|c d]; [simpl in Hpos; lia|].
  remember (c :: d) as data eqn:Hd.
  assert (take (length data) data = data) as Htake by apply firstn_all.
  assert (drop (length data) data = []) as Hdrop by apply drop_all.
  assert (take 512 data = data) as Htake' by (by apply take_ge).
  assert (drop 512 data = []) as Hdrop' by (by apply drop_ge).
  exists [Run 0 0; Run 0 (length data); Run 0 0; Run 1 0; Run 1 0; Run 2 0;
          Run 0 0; Run 0 0; Run 2 0; Run 2 0; Run 2 0; Run 2 0].
  remember (length data) as m eqn:Hm.
  match goal with |- exists σ', ?lhs = _ /\ _ => remember lhs as res eqn:H end.
  destruct (keys_agree (fst (New "your_bucket" "optional_prefix")) id) as [Hkr Hko].
  cbn [New fst] in *.
  unfold main, boot in H. cbn [New DontPanic fst snd] in H.
  unfold io_Copy in H.
  rewrite Hd in *. clear Hd.
  norm_in H.
  repeat (first [progress (rewrite ?Htake, ?Hdrop, ?Htake', ?Hdrop', ?Z.eqb_refl, ?Hko, ?Hkr,
                             ?Hh0, ?Hup, ?Hh1, ?Hdl, ?Hrm in H)
                | wake_in H | wait_in H];
          do 2 norm_in H).
  eexists. split; [exact H|]. split; reflexivity.
Qed.

(** Answered in the same way, and given no data, [main] panics with
    [io.EOF] under some schedule: the one [Read] of the example meets
    the end of the empty object. *)
Lemma main_scenario_empty :
  HeadObject
    {| HeadObjectInput_Bucket := "your_bucket";
       HeadObjectInput_Key := Create_key (fst (New "your_bucket" "optional_prefix")) id |} b0
  = (Some e0, b1) ->
  Upload
    {| UploadInput_Bucket := "your_bucket";
       UploadInput_Key := Create_key (fst (New "your_bucket" "optional_prefix")) id |} [] b1
  = (None, b2) ->
  HeadObject
    {| HeadObjectInput_Bucket := "your_bucket";
       HeadObjectInput_Key := Create_key (fst (New "your_bucket" "optional_prefix")) id |} b2
  = (None, b3) ->
  Download
    {| GetObjectInput_Bucket := "your_bucket";
       GetObjectInput_Key := Create_key (fst (New "your_bucket" "optional_prefix")) id |} b3
  = ([], n, None, b4) ->
  exists (sched : list label) (σ' : World B),
    main Duration_String id [] (boot b0 sched fastrand) = Some (([], Some io_EOF), σ')
    /\ s3 σ' = b4.
Proof.
  intros Hh0 Hup Hh1 Hdl.
  exists [Run 0 0; Run 0 0; Run 1 0; Run 1 0; Run 2 0; Run 2 0; Run 2 0].
  match goal with |- exists σ', ?lhs = _ /\ _ => remember lhs as res eqn:H end.
  destruct (keys_agree (fst (New "your_bucket" "optional_prefix")) id) as [Hkr Hko].
  cbn [New fst] in *.
  unfold main, boot in H. cbn [New DontPanic fst snd] in H.
  unfold io_Copy in H.
  norm_in H.
  repeat (first [progress (rewrite ?Hko, ?Hkr, ?Hh0, ?Hup, ?Hh1, ?Hdl in H)
                | wake_in H | wait_in H];
          do 2 norm_in H).
  eexists. split; [exact H|reflexivity].
Qed.

End Scenario.

Section READMERuns.

Variable Duration_String : Duration -> string.

Lemma main_run (id : c4.ID) (data : bytes) (b0 : MemS3.state) (fastrand : nat -> bool) :
  0 < length data <= 512 ->
  MemS3.get "your_bucket" (Create_key (fst (New "your_bucket" "optional_prefix")) id) b0
  = None ->
  exists (sched : list label) (σ' : World MemS3.state),
    main Duration_String id data (boot b0 sched fastrand)
    = Some ((data ++ [Byte.x0a], None), σ')
    /\ MemS3.get "your_bucket" (Create_key (fst (New "your_bucket" "optional_prefix")) id)
         (s3 σ') = None
    /\ wg σ' = 0%Z.
Proof.
  intros Hlen Hb.
  set (key := Create_key (fst (New "your_bucket" "optional_prefix")) id) in *.
  destruct (main_scenario Duration_String id b0 b0
              (MemS3.put "your_bucket" key data b0) (MemS3.put "your_bucket" key data b0)
              (MemS3.put "your_bucket" key data b0)
              (MemS3.del "your_bucket" key (MemS3.put "your_bucket" key data b0))
              MemS3.NotFound (Z.of_nat (length data)) fastrand data Hlen)
    as (sched & σ' & H & Hs3 & Hwg).
  - cbn [HeadObject MemS3.api HeadObjectInput_Bucket HeadObjectInput_Key].
    fold key. by rewrite Hb.
  - reflexivity.
  - cbn [HeadObject MemS3.api HeadObjectInput_Bucket HeadObjectInput_Key].
    fold key. by rewrite get_put.
  - cbn [Download MemS3.api GetObjectInput_Bucket GetObjectInput_Key].
    fold key. by rewrite get_put.
  - reflexivity.
  - exists sched, σ'. split; [exact H|]. split; [|exact Hwg].
    rewrite Hs3. apply get_del.
Qed.

Lemma main_panic (id : c4.ID) (b0 : MemS3.state) (fastrand : nat -> bool) :
  MemS3.get "your_bucket" (Create_key (fst (New "your_bucket" "optional_prefix")) id) b0
  = None ->
  exists (sched : list label) (σ' : World MemS3.state),
    main Duration_String id [] (boot b0 sched fastrand) = Some (([], Some io_EOF), σ').
Proof.
  intros Hb.
  set (key := Create_key (fst (New "your_bucket" "optional_prefix")) id) in *.
  destruct (main_scenario_empty Duration_String id b0 b0
              (MemS3.put "your_bucket" key [] b0) (MemS3.put "your_bucket" key [] b0)
              (MemS3.put "your_bucket" key [] b0)
              MemS3.NotFound 0%Z fastrand)
    as (sched & σ' & H & _).
  - cbn [HeadObject MemS3.api HeadObjectInput_Bucket HeadObjectInput_Key].
    fold key. by rewrite Hb.
  - reflexivity.
  - cbn [HeadObject MemS3.api HeadObjectInput_Bucket HeadObjectInput_Key].
    fold key. by rewrite get_put.
  - cbn [Download MemS3.api GetObjectInput_Bucket GetObjectInput_Key].
    fold key. by rewrite get_put.
  - by exists sched, σ'.
Qed.

(** On the in-memory backend that has nothing at the key, for data
    that are not empty and fit the buffer, there is a schedule under
    which [main] prints the data and returns, with the object removed
    again and no transfer left. *)
Theorem main_runs (id : c4.ID) (data : bytes) (b0 : MemS3.state) (fastrand : nat -> bool) :
  0 < length data <= 512 ->
  MemS3.get "your_bucket" (main_key id) b0 = None ->
  exists (sched : list label) (σ' : World MemS3.state),
    main Duration_String id data (boot b0 sched fastrand)
    = Some ((data ++ [Byte.x0a], None), σ')
    /\ MemS3.get "your_bucket" (main_key id) (s3 σ') = None
    /\ wg σ' = 0%Z.
Proof. exact (main_run id data b0 fastrand). Qed.

(** On the in-memory backend that has nothing at the key, there is a
    schedule under which [main], given no data, panics with [io.EOF]. *)
Theorem main_panics_without_data (id : c4.ID) (b0 : MemS3.state) (fastrand : nat -> bool) :
  MemS3.get "your_bucket" (main_key id) b0 = None ->
  exists (sched : list label) (σ' : World MemS3.state),
    main Duration_String id [] (boot b0 sched fastrand) = Some (([], Some io_EOF), σ').
Proof. exact (main_panic id b0 fastrand). Qed.

End READMERuns.

(** ** The further properties at a concrete program *)

Module Runs.

Import Example Cases.

Lemma Create_when_HeadObject_fails_witness :
  exists σ',
    Create (store true) id (boot empty [] fastrand) = Some ((Some (handle true), None), σ')
    /\ s3 σ' = empty
    /\ pipes σ' = [io.Pipe]
    /\ wg σ' = 1%Z
    /\ gos σ' = [Create_go Upload_enter
                   {| UploadInput_Bucket := "bucket";
                      UploadInput_Key := Create_key (store true) id |} 0]
    /\ log σ' = [HeadObject_call caller (headInput (handle true)) (Some MemS3.NotFound)]
    /\ chans σ' = [] /\ timers σ' = [] /\ sched σ' = [].
Proof.
  apply (Create_when_HeadObject_fails (store true) id (boot empty [] fastrand)
           MemS3.NotFound empty).
  reflexivity.
Defined.

Lemma Store_Close_again_witness :
  Store_Close (store true) closed_store = Some (None, closed_store).
Proof.
  apply (Store_Close_again (store false) (store true) closed_handle None closed_store).
  apply Witness.Store_Close_closed_handle.
Defined.

Lemma Write_after_Close_witness :
  s3WriteCloser_Write (set_closed true (handle true)) foobar
    (after_Close (handle true) (after_Create true [Fire 0]))
  = Some ((0%Z, Some io_ErrClosedPipe), after_Close (handle true) (after_Create true [Fire 0])).
Proof.
  apply (Write_after_Close (handle true) 0 (after_Create true [Fire 0])
           (Some (ErrConfirmationTimeout id (Second * 5)%Z))).
  - reflexivity.
  - reflexivity.
  - vm_compute. lia.
  - vm_compute. reflexivity.
Defined.



Lemma Create_is_not_exclusive_witness :
  exists w1 σ1 w2 σ2,
    Create (store true) id (boot empty [] fastrand) = Some ((Some w1, None), σ1)
    /\ Create (store true) id σ1 = Some ((Some w2, None), σ2)
    /\ wc_w w1 = PipeWriter 0
    /\ wc_w w2 = PipeWriter 1
    /\ gos σ2 = [Create_go Upload_enter
                   {| UploadInput_Bucket := "bucket";
                      UploadInput_Key := Create_key (store true) id |} 0;
                 Create_go Upload_enter
                   {| UploadInput_Bucket := "bucket";
                      UploadInput_Key := Create_key (store true) id |} 1]
    /\ wg σ2 = 2%Z
    /\ s3 σ2 = empty.
Proof.
  apply (Create_is_not_exclusive (store true) id (boot empty [] fastrand)).
  reflexivity.
Defined.

Lemma Download_stocked (sched : list label) :
  Download {| GetObjectInput_Bucket := "bucket";
              GetObjectInput_Key := Open_key (store true) id |} (s3 (stocked sched))
  = (foobar, 6%Z, None, full).
Proof.
  cbn [Download MemS3.api GetObjectInput_Bucket GetObjectInput_Key stocked boot s3].
  unfold full at 1. by rewrite get_put.
Qed.

Lemma Open_stocked (sched : list label) :
  Open Duration_String (store true) id (stocked sched)
  = Some ((Some (NopCloser 0), None), after_Open (stocked sched)).
Proof.
  unfold after_Open, Open, bind, downloader_Download.
  change (bucket (store true)) with "bucket".
  rewrite (Download_stocked sched). reflexivity.
Qed.

Lemma ReadAll_stocked :
  ReadAll (NopCloser 0) 4 1 (after_Open (stocked [Run 0 0]))
  = Some ((take 4 foobar, None),
          after_ReadAll (NopCloser 0) 4 1 (after_Open (stocked [Run 0 0]))).
Proof.
  assert (fst <$> ReadAll (NopCloser 0) 4 1 (after_Open (stocked [Run 0 0]))
          = Some (take 4 foobar, None)) as H by (vm_compute; reflexivity).
  unfold after_ReadAll.
  destruct (ReadAll (NopCloser 0) 4 1 (after_Open (stocked [Run 0 0]))) as [[x σ']|];
    [|discriminate].
  injection H as ->. reflexivity.
Qed.

Lemma Store_Close_blocks_on_an_unread_handle_witness :
  (ReadCloser_Close (NopCloser 0) ;; Store_Close (store true))
    (after_ReadAll (NopCloser 0) 4 1 (after_Open (stocked [Run 0 0])))
  = None.
Proof.
  apply (Store_Close_blocks_on_an_unread_handle Duration_String (store true) (store true) id
           (stocked [Run 0 0]) (NopCloser 0) None (after_Open (stocked [Run 0 0]))
           4 1 (take 4 foobar) _ foobar 6%Z None full).
  - apply reachable_boot.
  - apply Download_stocked.
  - apply Open_stocked.
  - apply ReadAll_stocked.
  - simpl. lia.
Defined.

Lemma Store_Close_blocks_on_an_open_handle_witness :
  Store_Close (store false)
    (after_WriteAll (handle false) [foobar] (after_Create false writing_six))
  = None.
Proof.
  apply (Store_Close_blocks_on_an_open_handle Duration_String (store false) (store false) id
           (boot empty writing_six fastrand) (handle false) None
           (after_Create false writing_six) [foobar]).
  - apply reachable_boot.
  - intros e H. cbn in H.
    repeat (apply elem_of_cons in H as [H|H]; [discriminate|]).
    by apply elem_of_nil in H.
  - vm_compute. reflexivity.
  - vm_compute. reflexivity.
Defined.

Lemma Legacy_Close_hides_the_timeout_witness :
  (forall r w1 σ',
     Legacy.s3WriteCloser_Close (handle true) (after_Create true [Fire 0])
     = Some ((r, w1), σ') -> r = None)
  /\ (Fire 0 ∈ sched (after_Create true [Fire 0]) ->
      exists σ',
        Legacy.s3WriteCloser_Close (handle true) (after_Create true [Fire 0])
        = Some ((None, set_closed true (handle true)), σ')).
Proof.
  apply (Legacy_Close_hides_the_timeout (handle true) (after_Create true [Fire 0])
           (after_writer_Close (handle true) (after_Create true [Fire 0]))).
  - reflexivity.
  - vm_compute. reflexivity.
Defined.

Lemma Open_delivers_the_download_witness :
  (forall n fuel data σ2,
     ReadAll (NopCloser 0) n fuel (after_Open (stocked [])) = Some ((data, Some io_EOF), σ2) ->
     data = foobar)
  /\ (forall n fuel l σ2,
        0 < n -> length foobar + 1 < fuel ->
        gos σ2 = gos (after_Open (stocked [])) ->
        pipes σ2 = pipes (after_Open (stocked [])) ->
        sched σ2 = repeat (Run 0 0) 4 ++ l ->
        exists σ3, ReadAll (NopCloser 0) n fuel σ2 = Some ((foobar, Some io_EOF), σ3)).
Proof.
  apply (Open_delivers_the_download Duration_String (store true) id (stocked [])
           (NopCloser 0) None (after_Open (stocked [])) foobar 6%Z None full).
  - apply reachable_boot.
  - apply Download_stocked.
  - apply Open_stocked.
Defined.

Lemma main_prints_the_data_witness :
  foobar ++ [Byte.x0a] = foobar ++ [Byte.x0a] /\ 0 < length foobar <= 512.
Proof.
  apply (main_prints_the_data (store := MemS3_ObjectStore) Duration_String id foobar empty
           main_sched fastrand (foobar ++ [Byte.x0a])
           (after_main foobar (boot empty main_sched fastrand))).
  - reflexivity.
  - vm_compute. reflexivity.
Defined.

Lemma main_runs_witness :
  exists (sched : list label) (σ' : World MemS3.state),
    main Duration_String id foobar (boot empty sched fastrand)
    = Some ((foobar ++ [Byte.x0a], None), σ')
    /\ MemS3.get "your_bucket" (main_key id) (s3 σ') = None
    /\ wg σ' = 0%Z.
Proof.
  apply (main_runs Duration_String id foobar empty fastrand).
  - simpl. lia.
  - reflexivity.
Defined.

Lemma main_panics_without_data_witness :
  exists (sched : list label) (σ' : World MemS3.state),
    main Duration_String id [] (boot empty sched fastrand) = Some (([], Some io_EOF), σ').
Proof.
  apply (main_panics_without_data Duration_String id empty fastrand).
  reflexivity.
Defined.

End Runs.
